(** * PLEX Runtime: the pulse scheduler and the sparse (BM25) engine

    A shallow embedding of the pieces of the repository that carry
    algorithmic content:

    - [PlexRuntime] (src/plex.js): [run] and [executePulse], a
      bounded-concurrency batch executor;
    - [SparseEngine] (src/plex-demo.js, src/plex-vs-dense-demo.mjs and the
      benchmark variant): [tokenize], [init], [score]/[scoreDoc], [search],
      and the loops of the demos that call them;
    - [VectorEngine] (src/plex.js): [tokenize], [vectorize], [cosine], and
      the ranking of the [search] command;
    - [getFlag] and the filter of the [scan] command.

    Conventions of the embedding.

    - A JavaScript number that is an integer by construction (array index,
      counter, length) is a [Z] or a [nat].  Other numbers are [jsnum]:
      exact reals extended with [NaN] and the two infinities; rounding and
      the sign of zero are not modelled there.  [Binary64] has the numeric
      part of the engines on IEEE doubles, with [Math.log] a parameter; it
      is used to evaluate the scorers where rounding can be observed.
    - A string is a [string] of ASCII characters: [toLowerCase], [\s] and
      [\W] are those of ASCII.
    - A [Map] with string keys is a [gmap string _]; its iteration order is
      not observable through [get].  An object literal used as a map is a
      [gmap string _] of its own properties, read through the properties it
      inherits from [Object.prototype].
    - An [async] function is a coroutine of the event loop: synchronous code
      runs to the next [await] in one step, and the order in which pending
      promises settle is chosen by a schedule (a list of events). *)

From Stdlib Require Import ZArith List Lia Permutation Sorted Reals Lra Ascii PrimFloat.
From stdpp Require Import base option list gmap strings.
Import ListNotations.

(** ** JavaScript numbers *)

Module JS.
Local Open Scope R_scope.

(** A number: an exact real, [Infinity], [-Infinity] or [NaN]. *)
Inductive jsnum : Type := Fin (r : R) | PInf | NInf | NaN.

(** An integer as a number. *)
Definition of_nat (n : nat) : jsnum := Fin (INR n).

(** Sign of a real. *)
Definition sgn (r : R) : comparison :=
  match total_order_T r 0 with
  | inleft (left _) => Lt
  | inleft (right _) => Eq
  | inright _ => Gt
  end.

(** [- x] *)
Definition neg (x : jsnum) : jsnum :=
  match x with
  | Fin r => Fin (- r)
  | PInf => NInf
  | NInf => PInf
  | NaN => NaN
  end.

(** [x + y] *)
Definition add (x y : jsnum) : jsnum :=
  match x, y with
  | NaN, _ | _, NaN => NaN
  | Fin a, Fin c => Fin (a + c)
  | PInf, NInf | NInf, PInf => NaN
  | PInf, _ | _, PInf => PInf
  | NInf, _ | _, NInf => NInf
  end.

(** [x - y] *)
Definition sub (x y : jsnum) : jsnum := add x (neg y).

(** An infinity [x] multiplied by a finite number of sign [s]. *)
Definition scale_inf (s : comparison) (x : jsnum) : jsnum :=
  match s with
  | Eq => NaN
  | Gt => x
  | Lt => neg x
  end.

(** [x * y] *)
Definition mul (x y : jsnum) : jsnum :=
  match x, y with
  | NaN, _ | _, NaN => NaN
  | Fin a, Fin c => Fin (a * c)
  | Fin a, PInf | PInf, Fin a => scale_inf (sgn a) PInf
  | Fin a, NInf | NInf, Fin a => scale_inf (sgn a) NInf
  | PInf, PInf | NInf, NInf => PInf
  | PInf, NInf | NInf, PInf => NInf
  end.

(** [x / y]: a finite number divided by zero is an infinity of its sign,
    and [0 / 0] is [NaN]. *)
Definition div (x y : jsnum) : jsnum :=
  match x, y with
  | NaN, _ | _, NaN => NaN
  | Fin a, Fin c =>
      match sgn c with
      | Eq => scale_inf (sgn a) PInf
      | _ => Fin (a / c)
      end
  | Fin _, (PInf | NInf) => Fin 0
  | PInf, Fin c => match sgn c with Lt => NInf | _ => PInf end
  | NInf, Fin c => match sgn c with Lt => PInf | _ => NInf end
  | _, _ => NaN
  end.

(** [Math.log(x)] *)
Definition log (x : jsnum) : jsnum :=
  match x with
  | Fin r =>
      match sgn r with
      | Lt => NaN
      | Eq => NInf
      | Gt => Fin (ln r)
      end
  | PInf => PInf
  | NInf | NaN => NaN
  end.

(** [Boolean(x)]: zero and [NaN] are falsy. *)
Definition truthy (x : jsnum) : bool :=
  match x with
  | Fin r => match sgn r with Eq => false | _ => true end
  | NaN => false
  | _ => true
  end.

(** [x || y] on numbers. *)
Definition or_else (x y : jsnum) : jsnum := if truthy x then x else y.

(** [x < y], as a boolean: false when either side is [NaN]. *)
Definition ltb (x y : jsnum) : bool :=
  match x, y with
  | NaN, _ | _, NaN => false
  | Fin a, Fin c => if Rlt_dec a c then true else false
  | NInf, NInf | PInf, _ | _, NInf => false
  | NInf, _ | _, PInf => true
  end.

(** [x > y] *)
Definition gtb (x y : jsnum) : bool := ltb y x.

(** [x < y] for finite numbers, as a proposition. *)
Definition lt (x y : jsnum) : Prop :=
  match x, y with
  | Fin a, Fin c => a < c
  | _, _ => False
  end.

(** [x <= y] for finite numbers. *)
Definition le (x y : jsnum) : Prop :=
  match x, y with
  | Fin a, Fin c => a <= c
  | _, _ => False
  end.

(** The number is neither [NaN] nor an infinity. *)
Definition finite (x : jsnum) : Prop :=
  match x with
  | Fin _ => True
  | _ => False
  end.

(** The errors the modelled code can throw. *)
Inductive error : Type := TypeError.

(** What a call evaluates to: a value, or a thrown error. *)
Inductive completion (A : Type) : Type :=
| Normal (a : A)
| Throw (e : error).
Arguments Normal {A} _.
Arguments Throw {A} _.

#[global] Instance completion_bind : MBind completion :=
  fun A B (k : A -> completion B) (c : completion A) =>
    match c with
    | Normal a => k a
    | Throw e => Throw e
    end.

(** [Array.prototype.sort(comparefn)]: the sort is stable, and [a] is placed
    after [b] when [comparefn(a, b) > 0] (a [NaN] counts as 0).  For a
    consistent comparator every stable sort returns the same array; it is
    written here as an insertion sort. *)
Fixpoint sort_insert {A : Type} (comparefn : A -> A -> jsnum) (x : A) (l : list A) : list A :=
  match l with
  | [] => [x]
  | y :: ys =>
      if gtb (comparefn x y) (Fin 0) then y :: sort_insert comparefn x ys
      else x :: l
  end.

Fixpoint sort {A : Type} (comparefn : A -> A -> jsnum) (l : list A) : list A :=
  match l with
  | [] => []
  | x :: xs => sort_insert comparefn x (sort comparefn xs)
  end.

End JS.

Declare Scope js_scope.
Delimit Scope js_scope with js.
Bind Scope js_scope with JS.jsnum.
Infix "+" := JS.add : js_scope.
Infix "-" := JS.sub : js_scope.
Infix "*" := JS.mul : js_scope.
Infix "/" := JS.div : js_scope.

(** ** The sparse engine *)

Module Sparse.
Import JS.

(** A record of the dataset: an object whose properties are strings. *)
Abbreviation doc := (gmap string string).

(** [String.prototype.toLowerCase], on ASCII. *)
Definition lower (c : ascii) : ascii :=
  let n := nat_of_ascii c in
  if (65 <=? n)%nat && (n <=? 90)%nat then ascii_of_nat (n + 32) else c.

Fixpoint toLowerCase (s : string) : string :=
  match s with
  | EmptyString => EmptyString
  | String c s' => String (lower c) (toLowerCase s')
  end.

(** The ASCII characters matched by [\s]. *)
Definition is_space (c : ascii) : bool :=
  let n := nat_of_ascii c in
  (n =? 32)%nat || ((9 <=? n)%nat && (n <=? 13)%nat).

(** [s.split(/\s+/)]: the pieces between maximal runs of white space; a
    leading or trailing run leaves an empty piece.  [prev] tells that the
    previous character was white space. *)
Fixpoint split_from (prev : bool) (s : string) : list string :=
  match s with
  | EmptyString => [EmptyString]
  | String c s' =>
      if is_space c then
        if prev then split_from true s' else EmptyString :: split_from true s'
      else
        match split_from false s' with
        | piece :: pieces => String c piece :: pieces
        | [] => [String c EmptyString]
        end
  end.

Definition split_ws (s : string) : list string := split_from false s.

(** [Boolean(s)] for a string: the empty string is falsy. *)
Definition nonempty (s : string) : bool :=
  match s with
  | EmptyString => false
  | String _ _ => true
  end.

Definition fields : list string := ["city"; "state"; "zip"; "_id"]%string.

(** [(item[f] || "").toString().toLowerCase()] *)
Definition field_text (item : doc) (f : string) : string :=
  toLowerCase (default EmptyString (item !! f)).

(** [tokenize(item)] (plex-demo.js, plex-vs-dense-demo.mjs):
    [fields.map(...).join(" ").split(/\s+/).filter(Boolean)]. *)
Definition tokenize (item : doc) : list string :=
  List.filter nonempty (split_ws (String.concat " " (map (field_text item) fields))).

(** [itemToTokens(item)] (the benchmark variant): the same with
    [.filter(t => t.length > 0)]. *)
Definition itemToTokens (item : doc) : list string :=
  List.filter (fun t => (0 <? String.length t)%nat)
    (split_ws (String.concat " " (map (field_text item) fields))).

(** [m.set(t, (m.get(t) || 0) + 1)] *)
Definition bump (m : gmap string nat) (t : string) : gmap string nat :=
  <[t := S (default 0%nat (m !! t))]> m.

(** [tokens.forEach(t => freq.set(t, (freq.get(t) || 0) + 1))] on a new
    [Map]. *)
Definition count_tokens (tokens : list string) : gmap string nat :=
  fold_left bump tokens ∅.

(** [new Set(tokens)], as the list of its elements in insertion order. *)
Fixpoint set_add_all (seen tokens : list string) : list string :=
  match tokens with
  | [] => seen
  | t :: ts =>
      if bool_decide (t ∈ seen) then set_add_all seen ts
      else set_add_all (seen ++ [t]) ts
  end.

Definition new_Set (tokens : list string) : list string := set_add_all [] tokens.

(** [Math.log((N - count + 0.5) / (count + 0.5) + 1)] *)
Definition idf_value (n count : nat) : jsnum :=
  log ((of_nat n - of_nat count + Fin 0.5) / (of_nat count + Fin 0.5) + Fin 1)%js.

(** [this.idf.set(term, Math.log(...))] *)
Definition set_idf (n : nat) (term : string) (count : nat)
    (m : gmap string jsnum) : gmap string jsnum :=
  <[term := idf_value n count]> m.

(** [m.get(q) || 0] on a map of numbers. *)
Definition get_or_0 (m : gmap string jsnum) (q : string) : jsnum :=
  match m !! q with
  | Some x => or_else x (Fin 0)
  | None => Fin 0
  end.

(** The body of [docs.forEach] in [init] (plex-demo.js): the accumulator is
    [(df, totalLen)]. *)
Definition scan (acc : gmap string nat * nat) (d : doc) : gmap string nat * nat :=
  let tokens := tokenize d in
  (fold_left bump (new_Set tokens) (fst acc), (snd acc + length tokens)%nat).

(** *** plex-demo.js: the class with static fields *)
Module Demo.

Record engine : Type := Engine {
  docs : list doc;
  idf : gmap string jsnum;
  avgLen : jsnum;
  k1 : jsnum;
  b : jsnum
}.

(** The static initialisers. *)
Definition SparseEngine : engine :=
  {| docs := []; idf := ∅; avgLen := Fin 0; k1 := Fin 1.2; b := Fin 0.75 |}.

(** [init(docs)] *)
Definition init (e : engine) (ds : list doc) : engine :=
  let '(df, totalLen) := fold_left scan ds (∅, 0%nat) in
  {| docs := ds;
     idf := map_fold (set_idf (length ds)) (idf e) df;
     avgLen := (of_nat totalLen / of_nat (length ds))%js;
     k1 := k1 e;
     b := b e |}.

(** [score(queryTokens, doc)]: the document is tokenized on every call. *)
Definition score (e : engine) (queryTokens : list string) (d : doc) : jsnum :=
  let tokens := tokenize d in
  let freq := count_tokens tokens in
  fold_left
    (fun score q =>
       let tf := default 0%nat (freq !! q) in
       if (tf =? 0)%nat then score
       else
         let idf := get_or_0 (idf e) q in
         (score + idf *
            ((of_nat tf * (k1 e + Fin 1)) /
             (of_nat tf + k1 e * (Fin 1 - b e + b e * of_nat (length tokens) / avgLen e))))%js)
    queryTokens (Fin 0).

End Demo.

(** *** The benchmark variant: [scoreDoc] by document index *)
Module Bench.

Record engine : Type := Engine {
  docs : list doc;
  vocab : gset string;
  idf : gmap string jsnum;
  avgDocLen : jsnum;
  k1 : jsnum;
  b : jsnum
}.

Definition SparseEngine : engine :=
  {| docs := []; vocab := ∅; idf := ∅; avgDocLen := Fin 0; k1 := Fin 1.2; b := Fin 0.75 |}.

(** The body of [tokens.forEach] in [init]: the accumulator is
    [(seen, termDocCount, vocab)]. *)
Definition visit (acc : gset string * gmap string nat * gset string) (t : string)
    : gset string * gmap string nat * gset string :=
  let '(seen, termDocCount, voc) := acc in
  if bool_decide (t ∈ seen) then (seen, termDocCount, {[t]} ∪ voc)
  else ({[t]} ∪ seen, bump termDocCount t, {[t]} ∪ voc).

(** The body of [docs.forEach]: the accumulator is
    [(termDocCount, totalLen, vocab)]. *)
Definition scan_doc (acc : gmap string nat * nat * gset string) (d : doc)
    : gmap string nat * nat * gset string :=
  let '(termDocCount, totalLen, voc) := acc in
  let tokens := itemToTokens d in
  let '(_, termDocCount', voc') := fold_left visit tokens (∅, termDocCount, voc) in
  (termDocCount', (totalLen + length tokens)%nat, voc').

(** [init(docs)] *)
Definition init (e : engine) (ds : list doc) : engine :=
  let n := length ds in
  let '(termDocCount, totalLen, voc) := fold_left scan_doc ds (∅, 0%nat, vocab e) in
  {| docs := ds;
     vocab := voc;
     idf := map_fold (set_idf n) (idf e) termDocCount;
     avgDocLen := (of_nat totalLen / of_nat n)%js;
     k1 := k1 e;
     b := b e |}.

(** [scoreDoc(tokens, docIndex)]: [this.docs[docIndex]] is [undefined] out
    of range, and reading a property of [undefined] throws. *)
Definition scoreDoc (e : engine) (tokens : list string) (docIndex : nat) : completion jsnum :=
  match docs e !! docIndex with
  | None => Throw TypeError
  | Some d =>
      let docTokens := itemToTokens d in
      let docLen := length docTokens in
      let freq := count_tokens docTokens in
      Normal (fold_left
        (fun score term =>
           let tf := default 0%nat (freq !! term) in
           let idf := get_or_0 (idf e) term in
           let norm := ((of_nat tf * (k1 e + Fin 1)) /
                        (of_nat tf + k1 e * (Fin 1 - b e + b e * of_nat docLen / avgDocLen e)))%js in
           (score + idf * norm)%js)
        tokens (Fin 0))
  end.

(** [{ id: i, score: SparseEngine.scoreDoc(tokens, i) }] *)
Record ranked : Type := Ranked { ranked_id : nat; ranked_score : jsnum }.

(** [data.map((_, i) => ({ id: i, score: SparseEngine.scoreDoc(tokens, i) }))]
    from index [i] on. *)
Fixpoint score_all (e : engine) (tokens : list string) (i : nat) (data : list doc)
    : completion (list ranked) :=
  match data with
  | [] => Normal []
  | _ :: rest =>
      s ← scoreDoc e tokens i;
      l ← score_all e tokens (S i) rest;
      Normal (Ranked i s :: l)
  end.

(** The comparator [(a, b) => b.score - a.score]. *)
Definition by_score (a b : ranked) : jsnum := (ranked_score b - ranked_score a)%js.

(** The ranking of a query in the main loop of the benchmark:
    [data.map(...).sort((a, b) => b.score - a.score).slice(0, 10)]. *)
Definition ranking (e : engine) (tokens : list string) (data : list doc)
    : completion (list ranked) :=
  l ← score_all e tokens 0 data;
  Normal (take 10 (sort by_score l)).

End Bench.

(** *** plex-vs-dense-demo.mjs: per-instance fields and a cached index *)
Module Cached.

Record engine : Type := Engine {
  docs : list doc;
  idf : gmap string jsnum;
  avgLen : jsnum;
  k1 : jsnum;
  b : jsnum;
  docFreqs : list (gmap string nat)
}.

(** [new SparseEngine()] *)
Definition new_SparseEngine : engine :=
  {| docs := []; idf := ∅; avgLen := Fin 0; k1 := Fin 1.2; b := Fin 0.75; docFreqs := [] |}.

(** [a[i] = x] for [i <= a.length]: an element is overwritten, or appended
    when [i] is the length.  ([init] writes the indices in increasing order
    from 0, so no hole is ever created.) *)
Definition array_set {A : Type} (a : list A) (i : nat) (x : A) : list A :=
  if decide (i < length a)%nat then <[i := x]> a else a ++ [x].

(** The body of [docs.forEach((d, i) => ...)] in [init]: the accumulator is
    [(df, total, docFreqs, i)]. *)
Definition scan_doc (acc : gmap string nat * nat * list (gmap string nat) * nat) (d : doc)
    : gmap string nat * nat * list (gmap string nat) * nat :=
  let '(df, total, freqs, i) := acc in
  let tokens := tokenize d in
  let freq := count_tokens tokens in
  (fold_left bump (new_Set tokens) df, (total + length tokens)%nat,
   array_set freqs i freq, S i).

(** [init(docs)] *)
Definition init (e : engine) (ds : list doc) : engine :=
  let '(df, total, freqs, _) := fold_left scan_doc ds (∅, 0%nat, docFreqs e, 0%nat) in
  {| docs := ds;
     idf := map_fold (set_idf (length ds)) (idf e) df;
     avgLen := (of_nat total / of_nat (length ds))%js;
     k1 := k1 e;
     b := b e;
     docFreqs := freqs |}.

(** [Array.from(tokens.values()).reduce((a, b) => a + b, 0)] *)
Definition sum_values (freq : gmap string nat) : nat :=
  map_fold (fun _ v acc => (acc + v)%nat) 0%nat freq.

(** [score(query, docIndex)]: [this.docFreqs[docIndex]] is [undefined] out
    of range, and the first [tokens.get(q)] then throws. *)
Definition score (e : engine) (query : list string) (docIndex : nat) : completion jsnum :=
  let tokens := docFreqs e !! docIndex in
  fold_left
    (fun acc q =>
       score ← acc;
       match tokens with
       | None => Throw TypeError
       | Some freq =>
           let tf := default 0%nat (freq !! q) in
           if (tf =? 0)%nat then Normal score
           else
             let idf := get_or_0 (idf e) q in
             let lenFactor := (of_nat (sum_values freq) / or_else (avgLen e) (Fin 1))%js in
             Normal (score + idf *
               ((of_nat tf * (k1 e + Fin 1)) /
                (of_nat tf + k1 e * (Fin 1 - b e + b e * lenFactor))))%js
       end)
    query (Normal (Fin 0)).

(** [{ doc: this.docs[i], score: s }] *)
Record hit : Type := Hit { hit_doc : doc; hit_score : jsnum }.

(** The [for] loop of [search] from index [i], with [rest] the documents
    from [i] on. *)
Fixpoint search_loop (e : engine) (tokens : list string) (i : nat) (rest : list doc)
    (results : list hit) : completion (list hit) :=
  match rest with
  | [] => Normal results
  | d :: rest' =>
      s ← score e tokens i;
      search_loop e tokens (S i) rest'
        (if gtb s (Fin 0) then results ++ [Hit d s] else results)
  end.

(** [search(query)] *)
Definition search (e : engine) (query : list string) : completion (list hit) :=
  search_loop e (map toLowerCase query) 0 (docs e) [].

End Cached.

End Sparse.


(** ** The sparse engine on IEEE doubles *)

(** The numeric part of the three engines once more, with every number a
    binary64 float and every operation rounded as JavaScript rounds it.
    Tokenizing and counting are those of [Sparse].  [Math.log] is
    implementation-approximated in ECMAScript; it is the parameter
    [Math_log]. *)
Module Binary64.
Import Sparse.
Import PrimFloat.PrimFloatNotations.
Local Open Scope float_scope.

(** An integer as a double, exact below 2^53. *)
Fixpoint of_nat (n : nat) : float :=
  match n with
  | O => 0
  | S m => of_nat m + 1
  end.

(** [Boolean(x)]: both zeros and [NaN] are falsy. *)
Definition truthy (x : float) : bool :=
  negb (PrimFloat.is_zero x || PrimFloat.is_nan x).

(** [x || y] on numbers. *)
Definition or_else (x y : float) : float := if truthy x then x else y.

Section WithLog.
Variable Math_log : float -> float.

(** [Math.log((N - count + 0.5) / (count + 0.5) + 1)] *)
Definition idf_value (n count : nat) : float :=
  Math_log ((of_nat n - of_nat count + 0.5) / (of_nat count + 0.5) + 1).

(** [this.idf.set(term, Math.log(...))] *)
Definition set_idf (n : nat) (term : string) (count : nat)
    (m : gmap string float) : gmap string float :=
  <[term := idf_value n count]> m.

End WithLog.

(** [m.get(q) || 0] on a map of numbers. *)
Definition get_or_0 (m : gmap string float) (q : string) : float :=
  match m !! q with
  | Some x => or_else x 0
  | None => 0
  end.

(** The literals [1.2] and [0.75] as doubles. *)
Definition lit_1_2 : float := 0x1.3333333333333p+0.
Definition lit_0_75 : float := 0x1.8p-1.

(** *** plex-demo.js *)
Module Demo.

Record engine : Type := Engine {
  docs : list doc;
  idf : gmap string float;
  avgLen : float;
  k1 : float;
  b : float
}.

Definition SparseEngine : engine :=
  {| docs := []; idf := ∅; avgLen := 0; k1 := lit_1_2; b := lit_0_75 |}.

(** [init(docs)] *)
Definition init (Math_log : float -> float) (e : engine) (ds : list doc) : engine :=
  let '(df, totalLen) := fold_left scan ds (∅, 0%nat) in
  {| docs := ds;
     idf := map_fold (set_idf Math_log (length ds)) (idf e) df;
     avgLen := of_nat totalLen / of_nat (length ds);
     k1 := k1 e;
     b := b e |}.

(** [score(queryTokens, doc)] *)
Definition score (e : engine) (queryTokens : list string) (d : doc) : float :=
  let tokens := tokenize d in
  let freq := count_tokens tokens in
  fold_left
    (fun score q =>
       let tf := default 0%nat (freq !! q) in
       if (tf =? 0)%nat then score
       else
         let idf := get_or_0 (idf e) q in
         score + idf *
           ((of_nat tf * (k1 e + 1)) /
            (of_nat tf + k1 e * (1 - b e + b e * of_nat (length tokens) / avgLen e))))
    queryTokens 0.

End Demo.

(** *** The benchmark variant *)
Module Bench.

Record engine : Type := Engine {
  docs : list doc;
  vocab : gset string;
  idf : gmap string float;
  avgDocLen : float;
  k1 : float;
  b : float
}.

Definition SparseEngine : engine :=
  {| docs := []; vocab := ∅; idf := ∅; avgDocLen := 0; k1 := lit_1_2; b := lit_0_75 |}.

(** [init(docs)] *)
Definition init (Math_log : float -> float) (e : engine) (ds : list doc) : engine :=
  let n := length ds in
  let '(termDocCount, totalLen, voc) :=
    fold_left Sparse.Bench.scan_doc ds (∅, 0%nat, vocab e) in
  {| docs := ds;
     vocab := voc;
     idf := map_fold (set_idf Math_log n) (idf e) termDocCount;
     avgDocLen := of_nat totalLen / of_nat n;
     k1 := k1 e;
     b := b e |}.

(** [scoreDoc(tokens, docIndex)] *)
Definition scoreDoc (e : engine) (tokens : list string) (docIndex : nat)
    : JS.completion float :=
  match docs e !! docIndex with
  | None => JS.Throw JS.TypeError
  | Some d =>
      let docTokens := itemToTokens d in
      let docLen := length docTokens in
      let freq := count_tokens docTokens in
      JS.Normal (fold_left
        (fun score term =>
           let tf := default 0%nat (freq !! term) in
           let idf := get_or_0 (idf e) term in
           let norm := (of_nat tf * (k1 e + 1)) /
                       (of_nat tf + k1 e * (1 - b e + b e * of_nat docLen / avgDocLen e)) in
           score + idf * norm)
        tokens 0)
  end.

End Bench.

(** *** plex-vs-dense-demo.mjs *)
Module Cached.

Record engine : Type := Engine {
  docs : list doc;
  idf : gmap string float;
  avgLen : float;
  k1 : float;
  b : float;
  docFreqs : list (gmap string nat)
}.

(** [new SparseEngine()] *)
Definition new_SparseEngine : engine :=
  {| docs := []; idf := ∅; avgLen := 0; k1 := lit_1_2; b := lit_0_75; docFreqs := [] |}.

(** [init(docs)] *)
Definition init (Math_log : float -> float) (e : engine) (ds : list doc) : engine :=
  let '(df, total, freqs, _) :=
    fold_left Sparse.Cached.scan_doc ds (∅, 0%nat, docFreqs e, 0%nat) in
  {| docs := ds;
     idf := map_fold (set_idf Math_log (length ds)) (idf e) df;
     avgLen := of_nat total / of_nat (length ds);
     k1 := k1 e;
     b := b e;
     docFreqs := freqs |}.

(** [score(query, docIndex)] *)
Definition score (e : engine) (query : list string) (docIndex : nat) : JS.completion float :=
  let tokens := docFreqs e !! docIndex in
  fold_left
    (fun acc q =>
       score ← acc;
       match tokens with
       | None => JS.Throw JS.TypeError
       | Some freq =>
           let tf := default 0%nat (freq !! q) in
           if (tf =? 0)%nat then JS.Normal score
           else
             let idf := get_or_0 (idf e) q in
             let lenFactor := of_nat (Sparse.Cached.sum_values freq) / or_else (avgLen e) 1 in
             JS.Normal (score + idf *
               ((of_nat tf * (k1 e + 1)) /
                (of_nat tf + k1 e * (1 - b e + b e * lenFactor))))
       end)
    query (JS.Normal 0).

End Cached.

End Binary64.
(** ** PlexRuntime (src/plex.js, lines 70-115) *)

Module Plex.
Local Open Scope Z_scope.

(** [Array.prototype.slice(start, end)] on integer arguments: a negative
    index counts from the end, both are clamped to [0, length]. *)
Definition rel_index (len k : Z) : Z :=
  if k <? 0 then Z.max (len + k) 0 else Z.min k len.

(** [l.slice(s, e)] *)
Definition slice {A : Type} (l : list A) (s e : Z) : list A :=
  let len := Z.of_nat (length l) in
  let k := rel_index len s in
  let final := rel_index len e in
  firstn (Z.to_nat (final - k)) (skipn (Z.to_nat k) l).

(** The constructor's argument [{ pulseSize = 32, maxConcurrency = 8 }]:
    an absent property takes its default. *)
Record config : Type := Config {
  cfg_pulseSize : option Z;
  cfg_maxConcurrency : option Z
}.

(** The fields of a [PlexRuntime] instance. *)
Record runtime : Type := Runtime {
  pulseSize : Z;
  maxConcurrency : Z;
  active : Z
}.

(** [constructor({ pulseSize = 32, maxConcurrency = 8 })]. *)
Definition new_PlexRuntime (c : config) : runtime :=
  {| pulseSize := default 32 (cfg_pulseSize c);
     maxConcurrency := default 8 (cfg_maxConcurrency c);
     active := 0 |}.

(** State of a promise. *)
Inductive promise : Type := Pending | Fulfilled | Rejected.

#[global] Instance promise_eq_dec : EqDecision promise.
Proof. solve_decision. Defined.

(** [{ id: i, data: d }] *)
Record task (T : Type) : Type := Task { id : nat; data : T }.
Arguments Task {T} _ _.
Arguments id {T} _.
Arguments data {T} _.

(** [{ id: task.id, result: ... }] *)
Record entry (V : Type) : Type := Entry { entry_id : nat; result : V }.
Arguments Entry {V} _ _.
Arguments entry_id {V} _.
Arguments result {V} _.

(** Where the controlling flow ([run] together with the [executePulse] it
    awaits) is suspended.  [AwaitRace rest p]: at
    [await Promise.race(inflight)] in the [while] loop, with [rest] the
    tasks of the pulse not yet started (the head is the one waiting for
    admission) and [p] the state of the race promise.  [AwaitAll p]: at
    [await Promise.all(inflight)].  [Returned]: [run] has returned
    [results].  [Thrown]: a rejection has escaped from [run]. *)
Inductive control (T : Type) : Type :=
| AwaitRace (rest : list (task T)) (p : promise)
| AwaitAll (p : promise)
| Returned
| Thrown.
Arguments AwaitRace {T} _ _.
Arguments AwaitAll {T} _.
Arguments Returned {T}.
Arguments Thrown {T}.

(** One call of [run]: the instance, the local variables of [run] and of the
    current [executePulse], and the suspension point.  [inflight] pairs each
    [exec] promise with the task it runs. *)
Record state (T V : Type) : Type := State {
  self : runtime;
  tasks : list (task T);
  results : list (entry V);
  i : Z;
  inflight : list (task T * promise);
  ctl : control T
}.
Arguments State {T V} _ _ _ _ _ _.
Arguments self {T V} _.
Arguments tasks {T V} _.
Arguments results {T V} _.
Arguments i {T V} _.
Arguments inflight {T V} _.
Arguments ctl {T V} _.

(** [dataset.map((d, i) => ({ id: i, data: d }))] *)
Fixpoint make_tasks {T : Type} (k : nat) (dataset : list T) : list (task T) :=
  match dataset with
  | [] => []
  | d :: ds => Task k d :: make_tasks (S k) ds
  end.

(** The promise [Promise.race(inflight)] at the moment it is created: it
    takes the state of the first already settled element, in array order,
    and stays pending when there is none (for ever when [inflight] is
    empty). *)
Fixpoint race_of {T : Type} (infl : list (task T * promise)) : promise :=
  match infl with
  | [] => Pending
  | (_, Pending) :: rest => race_of rest
  | (_, p) :: _ => p
  end.

(** The promise [Promise.all(inflight)]: rejected as soon as one element is,
    fulfilled when all are. *)
Definition all_of {T : Type} (infl : list (task T * promise)) : promise :=
  if existsb (fun u => bool_decide (snd u = Rejected)) infl then Rejected
  else if forallb (fun u => bool_decide (snd u = Fulfilled)) infl then Fulfilled
  else Pending.

(** The [for (const task of pulse)] loop of [executePulse] from the test of
    the [while] condition for the head of [rest], run up to its next
    [await].  Starting a unit increments the counter and appends its [exec]
    promise, still pending, to [inflight]. *)
Fixpoint executePulse {T : Type} (maxc : Z) (rest : list (task T)) (act : Z)
    (infl : list (task T * promise)) : Z * list (task T * promise) * control T :=
  match rest with
  | [] => (act, infl, AwaitAll (all_of infl))
  | t :: rest' =>
      if maxc <=? act
      then (act, infl, AwaitRace rest (race_of infl))
      else executePulse maxc rest' (act + 1) (infl ++ [(t, Pending)])
  end.

(** [this.active = a] *)
Definition set_active (rt : runtime) (a : Z) : runtime :=
  {| pulseSize := pulseSize rt; maxConcurrency := maxConcurrency rt; active := a |}.

(** The [for] loop of [run] from its test [i < tasks.length], run up to the
    next [await]: either the loop is over and [run] returns, or the next
    pulse is sliced and [executePulse] starts with a fresh [inflight]. *)
Definition enter_loop {T V : Type} (st : state T V) : state T V :=
  if i st <? Z.of_nat (length (tasks st)) then
    let pulse := slice (tasks st) (i st) (i st + pulseSize (self st)) in
    let '(act, infl, c) := executePulse (maxConcurrency (self st)) pulse (active (self st)) [] in
    State (set_active (self st) act) (tasks st) (results st) (i st) infl c
  else
    State (self st) (tasks st) (results st) (i st) (inflight st) Returned.

(** [run(dataset, fn)] up to its first [await]. *)
Definition run_start {T V : Type} (rt : runtime) (dataset : list T) : state T V :=
  enter_loop (State rt (make_tasks 0 dataset) [] 0 [] (AwaitAll Pending)).

(** The controlling flow is resumed after its [await]. Nothing happens while
    the awaited promise is pending. *)
Definition resume {T V : Type} (st : state T V) : state T V :=
  match ctl st with
  | AwaitRace rest Fulfilled =>
      let '(act, infl, c) :=
        executePulse (maxConcurrency (self st)) rest (active (self st)) (inflight st) in
      State (set_active (self st) act) (tasks st) (results st) (i st) infl c
  | AwaitRace _ Rejected => State (self st) (tasks st) (results st) (i st) (inflight st) Thrown
  | AwaitAll Fulfilled =>
      enter_loop (State (self st) (tasks st) (results st)
                        (i st + pulseSize (self st)) (inflight st) (ctl st))
  | AwaitAll Rejected => State (self st) (tasks st) (results st) (i st) (inflight st) Thrown
  | _ => st
  end.

(** The promise returned by [fn] for the unit at position [k] of [inflight]
    settles, and the body of [exec] runs to its end: on fulfilment the entry
    is pushed; the [finally] block decrements the counter either way.  The
    promise the controlling flow awaits reacts: a pending race takes the
    outcome of the unit, a pending [Promise.all] is recomputed.  The
    per-item function is an [async] function: [fn d] is [Some r] when the
    promise of [fn(d)] is fulfilled with [r], and [None] when it is
    rejected. *)
Definition settle {T V : Type} (fn : T -> option V) (k : nat) (st : state T V) : state T V :=
  match inflight st !! k with
  | Some (t, Pending) =>
      let out := fn (data t) in
      let p := match out with Some _ => Fulfilled | None => Rejected end in
      let res := match out with
                 | Some r => results st ++ [Entry (id t) r]
                 | None => results st
                 end in
      let infl := <[k := (t, p)]> (inflight st) in
      let c := match ctl st with
               | AwaitRace rest Pending => AwaitRace rest p
               | AwaitAll Pending => AwaitAll (all_of infl)
               | c => c
               end in
      State (set_active (self st) (active (self st) - 1)) (tasks st) res (i st) infl c
  | _ => st
  end.

(** What the event loop does next. *)
Inductive event : Type :=
| Resume
| Settle (k : nat).

(** One event. *)
Definition step {T V : Type} (fn : T -> option V) (st : state T V) (e : event) : state T V :=
  match e with
  | Resume => resume st
  | Settle k => settle fn k st
  end.

(** The events of a schedule, one after the other. *)
Definition exec {T V : Type} (fn : T -> option V) (st : state T V)
    (sched : list event) : state T V :=
  fold_left (step fn) sched st.

(** [rt.run(dataset, fn)] under a schedule. *)
Definition run {T V : Type} (rt : runtime) (dataset : list T) (fn : T -> option V)
    (sched : list event) : state T V :=
  exec fn (run_start rt dataset) sched.

(** Units whose [exec] has started and not finished. *)
Definition pending_units {T : Type} (infl : list (task T * promise)) : nat :=
  length (filter (fun u => snd u = Pending) infl).

End Plex.

(** ** Vocabulary of the properties of the sparse engine *)

Module SparseSpec.
Import JS Sparse.
Local Open Scope R_scope.
Local Open Scope string_scope.

(** The argument of the logarithm in [idf_value]. *)
Definition idf_arg (n count : nat) : R := (INR n - INR count + 0.5) / (INR count + 0.5) + 1.

(** Occurrences of the token [t] in [l]. *)
Definition occ (t : string) (l : list string) : nat :=
  length (filter (fun x => x = t) l).

(** [m.get(t) || 0] on a map of counters. *)
Definition count_at (m : gmap string nat) (t : string) : nat := default 0%nat (m !! t).

(** No entry of the map is zero. *)
Definition positive_counts (m : gmap string nat) : Prop :=
  forall t c, m !! t = Some c -> (1 <= c)%nat.

(** Documents of [ds] that contain the token [t]. *)
Definition doc_freq (t : string) (ds : list doc) : nat :=
  length (filter (fun d => t ∈ tokenize d) ds).

(** Tokens in the documents of [ds]. *)
Definition total_len (ds : list doc) : nat :=
  list_sum (map (fun d => length (tokenize d)) ds).

(** The BM25 term of a token of idf [v] that occurs [tf] times in a
    document of [len] tokens, with [k1 = 1.2] and [b = 0.75]. *)
Definition bm25 (v tf len avg : R) : R :=
  v * ((tf * (1.2 + 1)) / (tf + 1.2 * (1 - 0.75 + 0.75 * len / avg))).

(** The contribution of the query token [q] to the score of [d] on the
    corpus [ds], as a real number. *)
Definition contribution (ds : list doc) (d : doc) (q : string) : R :=
  let tf := occ q (tokenize d) in
  if decide (tf = 0%nat) then 0
  else bm25 (ln (idf_arg (length ds) (doc_freq q ds))) (INR tf)
            (INR (length (tokenize d))) (INR (total_len ds) / INR (length ds)).

(** The score of [d] for [query] on the corpus [ds], as a real number. *)
Definition score_real (ds : list doc) (d : doc) (query : list string) : R :=
  fold_left (fun a q => a + contribution ds d q) query 0.

(** The entry [search] pushes for [d], if any. *)
Definition hit_of (ds : list doc) (tokens : list string) (d : doc) : option Cached.hit :=
  if Rlt_dec 0 (score_real ds d tokens)
  then Some (Cached.Hit d (Fin (score_real ds d tokens)))
  else None.

(** The document [d] has at least one of the tokens. *)
Definition matches (tokens : list string) (d : doc) : Prop :=
  Exists (fun q => q ∈ tokenize d) tokens.

#[global] Instance matches_dec tokens d : Decision (matches tokens d) :=
  Exists_dec _ tokens.

(** The full set of (index, score) entries of the documents [rest], which
    start at index [i]. *)
Fixpoint scored (ds : list doc) (tokens : list string) (i : nat) (rest : list doc)
    : list Bench.ranked :=
  match rest with
  | [] => []
  | d :: rest' => Bench.Ranked i (Fin (score_real ds d tokens)) :: scored ds tokens (S i) rest'
  end.

(** [a] is ranked before [b]: its score is higher, or the scores are equal
    and [a] comes first in the document order. *)
Definition ranks_before (a b : Bench.ranked) : Prop :=
  match Bench.ranked_score a, Bench.ranked_score b with
  | Fin x, Fin y => y < x \/ (x = y /\ (Bench.ranked_id a < Bench.ranked_id b)%nat)
  | _, _ => False
  end.

(** The score of the entry is a finite number. *)
Definition finite_score (a : Bench.ranked) : Prop := finite (Bench.ranked_score a).

(** A record with only a city. *)
Definition city (name : string) : doc := {[ "city" := name ]}.

(** Two records with the same city, the first one longer. *)
Definition boston_ma : doc := {[ "city" := "Boston"; "state" := "MA" ]}.

End SparseSpec.


(** ** Inputs for the engine on doubles *)

Module Binary64Spec.
Import Sparse.
Local Open Scope string_scope.

(** A record of six tokens, three of them [boston]. *)
Definition boston_thrice : doc :=
  {[ "city" := "Boston Boston Boston"; "state" := "MA"; "zip" := "02134"; "_id" := "1" ]}.

(** A record of one token. *)
Definition salem : doc := {[ "city" := "Salem" ]}.

(** The double nearest to [ln 2], [0.6931471805599453] (it is [Math.LN2]). *)
Definition ln2 : float := 0x1.62e42fefa39efp-1%float.

(** A [Math.log] that is only asked for the logarithm of 2 and answers
    [v].  (Every term of the corpus [[boston_thrice; salem]] occurs in one
    document of two, so that [init] calls [Math.log(1.5 / 1.5 + 1)].) *)
Definition log_at_2 (v x : float) : float :=
  if (x =? 2)%float then v else PrimFloat.nan.

(** The scores of document 0, [boston_thrice], for the query [["boston"]]
    on the corpus [[boston_thrice; salem]], when [Math.log(2)] is [v]: with
    the scorer that tokenizes the document again, and with the scorer that
    keeps the index. *)
Definition retokenizing_score (v : float) : float :=
  Binary64.Demo.score
    (Binary64.Demo.init (log_at_2 v) Binary64.Demo.SparseEngine [boston_thrice; salem])
    ["boston"] boston_thrice.

Definition cached_score (v : float) : JS.completion float :=
  Binary64.Cached.score
    (Binary64.Cached.init (log_at_2 v) Binary64.Cached.new_SparseEngine [boston_thrice; salem])
    ["boston"] 0.

(** [a === c], for a number and the completion of a call. *)
Definition strict_equal (a : float) (c : JS.completion float) : bool :=
  match c with
  | JS.Normal x => (a =? x)%float
  | JS.Throw _ => false
  end.

End Binary64Spec.
(** ** Vocabulary of the properties of the scheduler *)

Module PlexSpec.
Import Plex.
Local Open Scope Z_scope.

Section Invariants.
Context {T V : Type}.
Implicit Types (st : state T V) (infl : list (task T * promise)).

(** The unit has completed. *)
Definition settled_ok (u : task T * promise) : Prop := snd u = Fulfilled.

(** The counter invariant: [active] counts the units in flight, and once
    the barrier promise is fulfilled (or [run] has returned) every unit of
    the pulse has completed. *)
Definition counter_inv st : Prop :=
  active (self st) = Z.of_nat (pending_units (inflight st)) /\
  (ctl st = AwaitAll Fulfilled \/ ctl st = Returned -> Forall settled_ok (inflight st)).

(** The bound: a unit starts only while [active < maxConcurrency]. *)
Definition bound_inv st : Prop := active (self st) <= maxConcurrency (self st).

(** The unit has not failed. *)
Definition not_rejected (u : task T * promise) : Prop := snd u <> Rejected.

(** The controlling flow has seen no failure. *)
Definition healthy (c : control T) : Prop :=
  match c with
  | AwaitRace _ Rejected | AwaitAll Rejected | Thrown => False
  | _ => True
  end.

(** No rejection: when [fn] never fails no promise is ever rejected. *)
Definition healthy_inv st : Prop :=
  Forall not_rejected (inflight st) /\ healthy (ctl st).

(** The schedule that settles every unit of [inflight], in array order. *)
Definition drain st : list event := map Settle (seq 0 (length (inflight st))).

(** [inflight] has [L] units and none of the first [j] is in flight. *)
Definition settled_below (L j : nat) st : Prop :=
  length (inflight st) = L /\
  forall k, (k < j)%nat -> forall t, inflight st !! k <> Some (t, Pending).

End Invariants.

Section OrderSpec.
Context {T V : Type}.

(** The entry a unit pushes for task [t] when [fn] is [f]. *)
Definition entry_of (f : T -> V) (t : task T) : entry V := Entry (id t) (f (data t)).

(** The tasks before index [z]. *)
Definition upto (l : list (task T)) (z : Z) : list (task T) := take (Z.to_nat z) l.

(** The tasks whose unit has completed. *)
Definition fulfilled_tasks (infl : list (task T * promise)) : list (task T) :=
  map fst (filter (fun u => snd u = Fulfilled) infl).

(** The tasks of the pulse that wait for admission. *)
Definition waiting (c : control T) : list (task T) :=
  match c with
  | AwaitRace rest _ => rest
  | _ => []
  end.

(** While a pulse runs, the tasks before [i] are done, the pulse is made of
    the started tasks followed by the waiting ones, and [results] holds,
    in some order, one entry for each completed task. *)
Definition order_inv (f : T -> V) (st : state T V) : Prop :=
  0 <= i st /\
  match ctl st with
  | Returned => results st ≡ₚ map (entry_of f) (tasks st)
  | Thrown => True
  | c =>
      upto (tasks st) (i st) ++ map fst (inflight st) ++ waiting c
        = upto (tasks st) (i st + pulseSize (self st)) /\
      results st ≡ₚ map (entry_of f) (upto (tasks st) (i st) ++ fulfilled_tasks (inflight st))
  end.

(** What the awaited promise records: a race is awaited only for a waiting
    task, and it is still pending only if no unit has completed since the
    counter reached the limit; the barrier promise is [Promise.all] of the
    current [inflight]. *)
Definition latch_inv (st : state T V) : Prop :=
  match ctl st with
  | AwaitRace rest l =>
      rest <> [] /\ (l = Pending -> maxConcurrency (self st) <= active (self st))
  | AwaitAll l => l = all_of (inflight st)
  | _ => True
  end.

(** The work left: entries still to be pushed and tasks still to be
    started. *)
Definition work_left (st : state T V) : nat :=
  match ctl st with
  | Returned => 0
  | _ =>
      S ((length (tasks st) - length (results st))
         + (length (tasks st)
            - (length (upto (tasks st) (i st)) + length (inflight st))))
  end.

(** The invariants of a run of a scheduler with a valid configuration and
    a per-item function [f] that never fails. *)
Definition good (f : T -> V) (st : state T V) : Prop :=
  1 <= pulseSize (self st) /\ 1 <= maxConcurrency (self st) /\
  counter_inv st /\ healthy_inv st /\ latch_inv st /\ order_inv f st.

End OrderSpec.

Section SequentialSpec.
Context {T V : Type}.

(** Only the last started unit can be in flight. *)
Definition pending_last (infl : list (task T * promise)) : Prop :=
  forall k t, infl !! k = Some (t, Pending) -> S k = length infl.

(** With one unit at a time, [results] holds the entries of the completed
    tasks in the order of the dataset. *)
Definition sequential_inv (f : T -> V) (st : state T V) : Prop :=
  match ctl st with
  | Returned => results st = map (entry_of f) (tasks st)
  | Thrown => True
  | c =>
      upto (tasks st) (i st) ++ map fst (inflight st) ++ waiting c
        = upto (tasks st) (i st + pulseSize (self st)) /\
      results st = map (entry_of f) (upto (tasks st) (i st) ++ fulfilled_tasks (inflight st)) /\
      pending_last (inflight st)
  end.

End SequentialSpec.

(** The per-item function of the spec's scenario, [x => x * 2]. *)
Definition twice (x : Z) : option Z := Some (x * 2).

End PlexSpec.


(** ** VectorEngine (src/plex.js, lines 43-64) *)

Module Vector.
Import JS Sparse.
Local Open Scope string_scope.

(** The ASCII characters matched by [\w]: letters, digits and the
    underscore.  [\W] matches the others. *)
Definition is_word (c : ascii) : bool :=
  let n := nat_of_ascii c in
  ((48 <=? n)%nat && (n <=? 57)%nat) || ((65 <=? n)%nat && (n <=? 90)%nat)
  || ((97 <=? n)%nat && (n <=? 122)%nat) || (n =? 95)%nat.

(** [s.split(re)] for a regular expression [re] that matches the maximal
    runs of the characters [sep] ([/\s+/], [/\W+/]): the pieces between the
    runs; a leading or trailing run leaves an empty piece.  [prev] tells
    that the previous character was a separator. *)
Fixpoint split_on (sep : ascii -> bool) (prev : bool) (s : string) : list string :=
  match s with
  | EmptyString => [EmptyString]
  | String c s' =>
      if sep c then
        if prev then split_on sep true s' else EmptyString :: split_on sep true s'
      else
        match split_on sep false s' with
        | piece :: pieces => String c piece :: pieces
        | [] => [String c EmptyString]
        end
  end.

(** [tokenize(text)]: [text.toLowerCase().split(/\W+/).filter(Boolean)]. *)
Definition tokenize (text : string) : list string :=
  List.filter nonempty (split_on (fun c => negb (is_word c)) false (toLowerCase text)).

(** A value stored in a vector: a number, or the string that comes from an
    inherited function ([FunctionText k] is the source text of that
    function followed by [k] characters [1]). *)
Inductive value : Type := Count (n : nat) | FunctionText (ones : nat).

(** The property names of [Object.prototype], which every object literal
    inherits. *)
Definition prototype_names : list string :=
  ["constructor"; "__defineGetter__"; "__defineSetter__"; "hasOwnProperty";
   "__lookupGetter__"; "__lookupSetter__"; "isPrototypeOf"; "propertyIsEnumerable";
   "toString"; "valueOf"; "__proto__"; "toLocaleString"].

Definition inherited (k : string) : bool := bool_decide (k ∈ prototype_names).

(** What [o[k]] evaluates to for an object literal with the own properties
    [o]: an own value, an inherited function or object, or [undefined]. *)
Inductive looked : Type := Own (v : value) | Inherited | Undefined.

Definition get (o : gmap string value) (k : string) : looked :=
  match o !! k with
  | Some v => Own v
  | None => if inherited k then Inherited else Undefined
  end.

(** [Boolean(o[k])]: a number other than 0, a string that is not empty, a
    function and an object are truthy. *)
Definition truthy_looked (x : looked) : bool :=
  match x with
  | Own (Count n) => negb (n =? 0)%nat
  | Own (FunctionText _) => true
  | Inherited => true
  | Undefined => false
  end.

(** [Number(o[k])], as the operator [*] converts its operands: the text of
    a function and an object are [NaN]. *)
Definition to_number (x : looked) : jsnum :=
  match x with
  | Own (Count n) => of_nat n
  | _ => NaN
  end.

(** [map[t] = (map[t] || 0) + 1].  With an inherited function on the left
    [+] concatenates strings.  [__proto__] is an accessor of
    [Object.prototype]: reading it gives an object, and its setter ignores
    the string that is assigned. *)
Definition bump (map : gmap string value) (t : string) : gmap string value :=
  match get map t with
  | Own (Count n) => <[t := Count (S n)]> map
  | Own (FunctionText k) => <[t := FunctionText (S k)]> map
  | Inherited => if String.eqb t "__proto__" then map else <[t := FunctionText 1]> map
  | Undefined => <[t := Count 1]> map
  end.

(** [vectorize(text)] *)
Definition vectorize (text : string) : gmap string value :=
  fold_left bump (tokenize text) ∅.

(** [Math.sqrt(x)] *)
Definition Math_sqrt (x : jsnum) : jsnum :=
  match x with
  | Fin r => match sgn r with Lt => NaN | _ => Fin (R_sqrt.sqrt r) end
  | PInf => PInf
  | NInf | NaN => NaN
  end.

(** The body of [for (const k in a)] in [cosine]: the accumulator is
    [(dot, magA)]. *)
Definition visit_a (b : gmap string value) (k : string) (v : value)
    (acc : jsnum * jsnum) : jsnum * jsnum :=
  let bk := get b k in
  ((if truthy_looked bk then fst acc + to_number (Own v) * to_number bk else fst acc)%js,
   (snd acc + to_number (Own v) * to_number (Own v))%js).

(** The body of [for (const k in b)]. *)
Definition visit_b (k : string) (v : value) (magB : jsnum) : jsnum :=
  (magB + to_number (Own v) * to_number (Own v))%js.

(** [cosine(a, b)].  The two loops add numbers, in the order of [for-in];
    the sums do not depend on that order. *)
Definition cosine (a b : gmap string value) : jsnum :=
  let '(dot, magA) := map_fold (visit_a b) (Fin 0, Fin 0) a in
  let magB := map_fold visit_b (Fin 0) b in
  (dot / or_else (Math_sqrt magA * Math_sqrt magB) (Fin 1))%js.

(** [vectors.map((v, i) => ({ id: i, score: VectorEngine.cosine(v, qv) }))]
    from index [i] on (the [search] command of [main]). *)
Fixpoint score_all (qv : gmap string value) (i : nat) (vectors : list (gmap string value))
    : list Bench.ranked :=
  match vectors with
  | [] => []
  | v :: rest => Bench.Ranked i (cosine v qv) :: score_all qv (S i) rest
  end.

(** [ranked] in the [search] command:
    [vectors.map(...).sort((a, b) => b.score - a.score)]. *)
Definition ranked (vectors : list (gmap string value)) (qv : gmap string value)
    : list Bench.ranked :=
  sort Bench.by_score (score_all qv 0 vectors).

End Vector.

(** ** The command line and the demo loops *)

Module Cli.
Import JS Sparse.

(** [args.indexOf(name)]: the first index that holds [name]; [None] stands
    for [-1]. *)
Fixpoint indexOf (args : list string) (name : string) : option nat :=
  match args with
  | [] => None
  | a :: rest =>
      if String.eqb a name then Some 0%nat
      else match indexOf rest name with
           | Some i => Some (S i)
           | None => None
           end
  end.

(** What [getFlag] returns: [null], [undefined] or a string. *)
Inductive flag : Type := Null | Undefined | Value (s : string).

(** [getFlag(args, name)] (plex-vs-dense-demo.mjs, lines 353-356):
    [i !== -1 ? args[i + 1] : null]. *)
Definition getFlag (args : list string) (name : string) : flag :=
  match indexOf args name with
  | Some i =>
      match args !! (i + 1)%nat with
      | Some v => Value v
      | None => Undefined
      end
  | None => Null
  end.

(** [res.filter(r => r.result)] in the [scan] command, where the per-item
    function returns a boolean. *)
Definition scan_filter (res : list (Plex.entry bool)) : list (Plex.entry bool) :=
  List.filter (fun r => Plex.result r) res.

(** plex-demo.js, lines 112-114:
    [data.map(d => SparseEngine.score(qt, d)).filter(s => s > 0)]. *)
Definition scored (e : Demo.engine) (qt : list string) (data : list doc) : list jsnum :=
  List.filter (fun s => gtb s (Fin 0)) (map (Demo.score e qt) data).

(** The browser-safe demo (src/unnamed/part_000, lines 166-168):
    [data.filter(d => engine.score(tokens, d) > 0)]. *)
Definition sparseHits (e : Demo.engine) (tokens : list string) (data : list doc) : list doc :=
  List.filter (fun d => gtb (Demo.score e tokens d) (Fin 0)) data.

End Cli.

(** ** Vocabulary of the properties of VectorEngine *)

Module VectorSpec.
Import JS Sparse SparseSpec Vector.
Local Open Scope string_scope.

(** The value is a number. *)
Definition is_count (v : value) : bool :=
  match v with
  | Count _ => true
  | FunctionText _ => false
  end.

(** The number a value stands for in a sum of products: a string counts
    for nothing. *)
Definition count_val (v : value) : nat :=
  match v with
  | Count n => n
  | FunctionText _ => 0
  end.

(** [o[k]] when it is a number, 0 otherwise. *)
Definition count_of (o : gmap string value) (k : string) : nat :=
  match o !! k with
  | Some v => count_val v
  | None => 0
  end.

(** A vector of counters: every value is a number, no key is a property
    name of [Object.prototype]. *)
Definition counts_only (o : gmap string value) : Prop :=
  map_Forall (fun k v => inherited k = false /\ is_count v = true) o.

(** The keys that are not inherited names hold numbers. *)
Definition ordinary_counts (o : gmap string value) : Prop :=
  map_Forall (fun k v => inherited k = false -> is_count v = true) o.

(** The sum over the entries of [o] of the entry times [g] of its key. *)
Definition wsum (g : string -> nat) (o : gmap string value) : nat :=
  map_fold (fun k v acc => (acc + count_val v * g k)%nat) 0%nat o.

(** The dot product of two vectors and the squared norm of a vector. *)
Definition dot (a b : gmap string value) : nat := wsum (count_of b) a.

Definition norm2 (a : gmap string value) : nat :=
  map_fold (fun k v acc => (acc + count_val v * count_val v)%nat) 0%nat a.

(** The denominator of [cosine] for two vectors of squared norms [x] and
    [y]: 1 replaces a product that is 0. *)
Definition denominator (x y : nat) : R :=
  if decide (x = 0%nat \/ y = 0%nat) then 1%R
  else (R_sqrt.sqrt (INR x) * R_sqrt.sqrt (INR y))%R.

(** The two vectors share a token. *)
Definition share_a_key (a b : gmap string value) : Prop :=
  exists k, (1 <= count_of a k)%nat /\ (1 <= count_of b k)%nat.

(** A token: not empty, made of lower-case letters, digits and
    underscores. *)
Definition word (w : string) : Prop :=
  w <> EmptyString /\
  Forall (fun c => is_word c = true /\ lower c = c) (String.list_ascii_of_string w).

(** What [vectorize] stores under [t] after [n >= 1] occurrences of [t]. *)
Definition stored (t : string) (n : nat) : option value :=
  if inherited t then
    if String.eqb t "__proto__" then None else Some (FunctionText n)
  else Some (Count n).

(** What [map[t]] holds after [map[t] = (map[t] || 0) + 1], from what it
    held. *)
Definition next (t : string) (cur : option value) : option value :=
  match cur with
  | Some (Count n) => Some (Count (S n))
  | Some (FunctionText k) => Some (FunctionText (S k))
  | None => stored t 1
  end.

End VectorSpec.

(** ** Vocabulary of the further properties *)

Module TokenSpec.
Import JS Sparse SparseSpec.
Local Open Scope string_scope.

(** The tokens of one field of a record. *)
Definition field_tokens (item : doc) (f : string) : list string :=
  List.filter nonempty (split_ws (field_text item f)).

(** A token of the sparse engine: not empty, without white space, and
    unchanged by [toLowerCase]. *)
Definition clean_token (t : string) : Prop :=
  t <> EmptyString /\ toLowerCase t = t /\
  Forall (fun c => is_space c = false) (String.list_ascii_of_string t).

End TokenSpec.

(** ** Vocabulary of the further properties of the scheduler *)

Module PulseSpec.
Import Plex PlexSpec.
Local Open Scope Z_scope.

Section StartOrder.
Context {T V : Type}.

(** The units in flight are the last started ones: every unit started
    after a unit in flight is in flight, too. *)
Definition pending_suffix (infl : list (task T * promise)) : Prop :=
  forall j k t t' p, (j < k)%nat ->
    infl !! j = Some (t, Pending) -> infl !! k = Some (t', p) -> p = Pending.

(** The event settles no unit while an earlier one is in flight. *)
Definition settles_oldest (st : state T V) (e : event) : Prop :=
  match e with
  | Settle k => forall j t, (j < k)%nat -> inflight st !! j <> Some (t, Pending)
  | Resume => True
  end.

(** The schedule completes the units in the order they start. *)
Fixpoint in_start_order (fn : T -> option V) (st : state T V) (sched : list event) : Prop :=
  match sched with
  | [] => True
  | e :: rest => settles_oldest st e /\ in_start_order fn (step fn st e) rest
  end.

(** While the units complete in the order they start, [results] holds the
    entries of the completed tasks in the order of the dataset. *)
Definition start_order_inv (f : T -> V) (st : state T V) : Prop :=
  match ctl st with
  | Returned => results st = map (entry_of f) (tasks st)
  | Thrown => True
  | c =>
      upto (tasks st) (i st) ++ map fst (inflight st) ++ waiting c
        = upto (tasks st) (i st + pulseSize (self st)) /\
      results st = map (entry_of f) (upto (tasks st) (i st) ++ fulfilled_tasks (inflight st)) /\
      pending_suffix (inflight st)
  end.

(** The promise of [fn] for the task is fulfilled. *)
Definition succeeds (fn : T -> option V) (t : task T) : Prop := is_Some (fn (data t)).

(** [run] passes a pulse only when all its units have completed: the tasks
    before [i] and the completed ones of the pulse are tasks on which [fn]
    succeeds. *)
Definition passed_inv (fn : T -> option V) (st : state T V) : Prop :=
  0 <= i st /\
  Forall (succeeds fn) (upto (tasks st) (i st)) /\
  match ctl st with
  | Returned => Forall (succeeds fn) (tasks st)
  | Thrown => True
  | c =>
      upto (tasks st) (i st) ++ map fst (inflight st) ++ waiting c
        = upto (tasks st) (i st + pulseSize (self st)) /\
      Forall (succeeds fn) (fulfilled_tasks (inflight st))
  end.

(** The started units of the current pulse are its first tasks, and there
    are at most [pulseSize] of them. *)
Definition window_inv (st : state T V) : Prop :=
  0 <= i st /\
  Z.of_nat (length (inflight st)) <= pulseSize (self st) /\
  match ctl st with
  | Returned | Thrown => True
  | c => map fst (inflight st) ++ waiting c
         = slice (tasks st) (i st) (i st + pulseSize (self st))
  end.

End StartOrder.

(** The indices of the items of [dataset], from [k] on, on which [p]
    holds. *)
Fixpoint indices_where {T : Type} (p : T -> bool) (k : nat) (dataset : list T) : list nat :=
  match dataset with
  | [] => []
  | d :: ds => if p d then k :: indices_where p (S k) ds else indices_where p (S k) ds
  end.

End PulseSpec.
(** ** Properties of the number model *)

Module JSFacts.
Import JS.
Local Open Scope R_scope.

Lemma sgn_pos r : 0 < r -> sgn r = Gt.
Proof. intros H. unfold sgn. destruct (total_order_T r 0) as [[Hlt|Heq]|Hgt]; [lra|lra|done]. Qed.

Lemma sgn_neg r : r < 0 -> sgn r = Lt.
Proof. intros H. unfold sgn. destruct (total_order_T r 0) as [[Hlt|Heq]|Hgt]; [done|lra|lra]. Qed.

Lemma sgn_zero r : r = 0 -> sgn r = Eq.
Proof. intros H. unfold sgn. destruct (total_order_T r 0) as [[Hlt|Heq]|Hgt]; [lra|done|lra]. Qed.

Lemma div_fin a c : c <> 0 -> div (Fin a) (Fin c) = Fin (a / c).
Proof.
  intros Hc. unfold div, sgn.
  destruct (total_order_T c 0) as [[Hlt|Heq]|Hgt]; [done|lra|done].
Qed.

Lemma div_zero_zero a c : a = 0 -> c = 0 -> div (Fin a) (Fin c) = NaN.
Proof. intros Ha Hc. unfold div. rewrite (sgn_zero c), (sgn_zero a) by done. done. Qed.

Lemma log_fin r : 0 < r -> log (Fin r) = Fin (ln r).
Proof. intros H. unfold log. by rewrite sgn_pos. Qed.

Lemma or_else_pos r y : 0 < r -> or_else (Fin r) y = Fin r.
Proof. intros H. unfold or_else, truthy. by rewrite sgn_pos. Qed.

Lemma or_else_zero r y : r = 0 -> or_else (Fin r) y = y.
Proof. intros H. unfold or_else, truthy. by rewrite sgn_zero. Qed.

Lemma gtb_fin_0 r : gtb (Fin r) (Fin 0) = true <-> 0 < r.
Proof. unfold gtb, ltb. destruct (Rlt_dec 0 r); split; intros; done || lra. Qed.

End JSFacts.

(** ** Properties of the sparse engine *)

Module SparseFacts.
Import JS Sparse SparseSpec JSFacts.
Local Open Scope R_scope.

Lemma idf_arg_eq n count : idf_arg n count = (INR n + 1) / (INR count + 0.5).
Proof.
  unfold idf_arg. pose proof (pos_INR count).
  assert (H5 : 0.5 = 1 / 2) by lra. rewrite H5. field. lra.
Qed.

Lemma idf_arg_pos n count : 0 < idf_arg n count.
Proof.
  rewrite idf_arg_eq. pose proof (pos_INR count). pose proof (pos_INR n).
  apply Rdiv_lt_0_compat; lra.
Qed.

Lemma idf_value_fin n count : idf_value n count = Fin (ln (idf_arg n count)).
Proof.
  unfold idf_value, of_nat. cbn [add sub neg].
  pose proof (pos_INR count).
  rewrite div_fin by lra. cbn [add].
  replace (INR n + - INR count + 0.5) with (INR n - INR count + 0.5) by lra.
  apply log_fin, idf_arg_pos.
Qed.

Lemma idf_arg_gt_1 n count : (count <= n)%nat -> 1 < idf_arg n count.
Proof.
  intros Hle%le_INR. unfold idf_arg. pose proof (pos_INR count).
  assert (0 < (INR n - INR count + 0.5) / (INR count + 0.5)); [|lra].
  apply Rdiv_lt_0_compat; lra.
Qed.

Lemma idf_arg_decreasing n c1 c2 : (c1 < c2)%nat -> idf_arg n c2 < idf_arg n c1.
Proof.
  intros Hlt%lt_INR. rewrite !idf_arg_eq.
  pose proof (pos_INR c1). pose proof (pos_INR n).
  unfold Rdiv. apply Rmult_lt_compat_l; [lra|].
  apply Rinv_lt_contravar; [|lra]. apply Rmult_lt_0_compat; lra.
Qed.

Lemma idf_value_pos n count :
  (count <= n)%nat -> exists v, idf_value n count = Fin v /\ 0 < v.
Proof.
  intros Hle. exists (ln (idf_arg n count)). split; [apply idf_value_fin|].
  rewrite <- ln_1. apply ln_increasing; [lra|]. by apply idf_arg_gt_1.
Qed.

(** C8.  For a corpus of [n >= 1] documents and document frequencies
    [1 <= df1 < df2 <= n], the idf that [init] stores,
    [ln((n - df + 0.5) / (df + 0.5) + 1)], is strictly higher for [df1]
    than for [df2]; and it is never negative for [df <= n]. *)
Theorem idf_strictly_decreasing_and_nonnegative (n df1 df2 : nat) :
  (1 <= n)%nat -> (1 <= df1)%nat -> (df1 < df2)%nat -> (df2 <= n)%nat ->
  lt (idf_value n df2) (idf_value n df1) /\
  (forall df, (df <= n)%nat -> le (Fin 0) (idf_value n df)).
Proof.
  intros Hn H1 Hlt H2. split.
  - rewrite !idf_value_fin. simpl.
    apply ln_increasing; [apply idf_arg_pos|]. by apply idf_arg_decreasing.
  - intros df Hdf. destruct (idf_value_pos n df Hdf) as (v & -> & Hv). simpl. lra.
Qed.

Lemma idf_strictly_decreasing_and_nonnegative_witness :
  lt (idf_value 3 2) (idf_value 3 1) /\
  (forall df, (df <= 3)%nat -> le (Fin 0) (idf_value 3 df)).
Proof. apply (idf_strictly_decreasing_and_nonnegative 3 1 2); lia. Defined.

(** *** Counting tokens *)

Lemma occ_nil t : occ t [] = 0%nat.
Proof. done. Qed.

Lemma occ_cons t x l :
  occ t (x :: l) = ((if decide (x = t) then 1 else 0) + occ t l)%nat.
Proof.
  unfold occ. destruct (decide (x = t)) as [->|Hne].
  - by rewrite filter_cons_True.
  - by rewrite filter_cons_False.
Qed.

Lemma occ_app t l1 l2 : occ t (l1 ++ l2) = (occ t l1 + occ t l2)%nat.
Proof. unfold occ. by rewrite filter_app, length_app. Qed.

Lemma occ_zero t l : occ t l = 0%nat <-> t ∉ l.
Proof.
  induction l as [|x l IH]; [split; [intros _; apply not_elem_of_nil|done]|].
  rewrite occ_cons, not_elem_of_cons. destruct (decide (x = t)) as [->|Hne].
  - split; [lia|]. by intros [? _].
  - simpl. rewrite IH. split; [intros H; split; [congruence|done]|by intros [_ H]].
Qed.

Lemma occ_pos t l : (1 <= occ t l)%nat <-> t ∈ l.
Proof.
  destruct (decide (t ∈ l)) as [Hin|Hnin].
  - split; [done|]. intros _. destruct (occ t l) eqn:Ho; [|lia].
    apply occ_zero in Ho. done.
  - split; [|done]. intros H. apply occ_zero in Hnin. lia.
Qed.

Lemma occ_le_length t l : (occ t l <= length l)%nat.
Proof. unfold occ. apply length_filter. Qed.

Lemma occ_NoDup t l : NoDup l -> occ t l = if decide (t ∈ l) then 1%nat else 0%nat.
Proof.
  induction 1 as [|x l Hx Hnd IH]; [done|].
  rewrite occ_cons, IH. destruct (decide (x = t)) as [->|Hne].
  - rewrite decide_False by done. rewrite decide_True by left. done.
  - destruct (decide (t ∈ l)) as [Hin|Hnin].
    + rewrite decide_True by (by right). done.
    + rewrite decide_False; [done|]. rewrite not_elem_of_cons. split; congruence.
Qed.

Lemma count_at_bump m t u :
  count_at (bump m t) u = (count_at m u + if decide (t = u) then 1 else 0)%nat.
Proof.
  unfold count_at, bump. destruct (decide (t = u)) as [->|Hne].
  - rewrite lookup_insert_eq. simpl. lia.
  - rewrite lookup_insert_ne by done. lia.
Qed.

Lemma count_at_fold_bump l : forall m u,
  count_at (fold_left bump l m) u = (count_at m u + occ u l)%nat.
Proof.
  induction l as [|x l IH]; intros m u; simpl; [rewrite occ_nil; lia|].
  rewrite IH, count_at_bump, occ_cons. lia.
Qed.

Lemma positive_counts_empty : positive_counts ∅.
Proof. intros t c. by rewrite lookup_empty. Qed.

Lemma positive_counts_bump m t : positive_counts m -> positive_counts (bump m t).
Proof.
  intros Hm u c. unfold bump. destruct (decide (t = u)) as [->|Hne].
  - rewrite lookup_insert_eq. intros [= <-]. lia.
  - rewrite lookup_insert_ne by done. apply Hm.
Qed.

Lemma positive_counts_fold l : forall m,
  positive_counts m -> positive_counts (fold_left bump l m).
Proof.
  induction l as [|x l IH]; intros m Hm; simpl; [done|].
  by apply IH, positive_counts_bump.
Qed.

Lemma positive_counts_lookup m t :
  positive_counts m -> m !! t = if decide (count_at m t = 0%nat) then None else Some (count_at m t).
Proof.
  intros Hm. unfold count_at. destruct (m !! t) as [c|] eqn:Ht; simpl.
  - apply Hm in Ht. rewrite decide_False by lia. done.
  - done.
Qed.

Lemma count_at_count_tokens l t : count_at (count_tokens l) t = occ t l.
Proof. unfold count_tokens. rewrite count_at_fold_bump. unfold count_at. by rewrite lookup_empty. Qed.

(** [new Set(tokens)] has the elements of [tokens], once each. *)
Lemma set_add_all_spec tokens : forall seen,
  NoDup seen ->
  NoDup (set_add_all seen tokens) /\
  forall x, x ∈ set_add_all seen tokens <-> x ∈ seen \/ x ∈ tokens.
Proof.
  induction tokens as [|t ts IH]; intros seen Hnd; simpl.
  - split; [done|]. intros x. rewrite elem_of_nil. tauto.
  - case_bool_decide as Hin.
    + destruct (IH seen Hnd) as [Hnd' Hel]. split; [done|].
      intros x. rewrite Hel, elem_of_cons. split; [tauto|].
      intros [H|[->|H]]; tauto.
    + destruct (IH (seen ++ [t])) as [Hnd' Hel].
      { apply NoDup_app. split; [done|]. split; [|apply NoDup_singleton].
        intros x Hx ->%list_elem_of_singleton. done. }
      split; [done|]. intros x. rewrite Hel, elem_of_app, list_elem_of_singleton, elem_of_cons.
      tauto.
Qed.

Lemma new_Set_NoDup tokens : NoDup (new_Set tokens).
Proof. apply set_add_all_spec, NoDup_nil_2. Qed.

Lemma elem_of_new_Set tokens x : x ∈ new_Set tokens <-> x ∈ tokens.
Proof.
  unfold new_Set. destruct (set_add_all_spec tokens [] (NoDup_nil_2)) as [_ H].
  rewrite H, elem_of_nil. tauto.
Qed.

Lemma occ_new_Set tokens t :
  occ t (new_Set tokens) = if decide (t ∈ tokens) then 1%nat else 0%nat.
Proof.
  rewrite occ_NoDup by apply new_Set_NoDup.
  destruct (decide (t ∈ tokens)) as [Hin|Hnin].
  - rewrite decide_True; [done|]. by apply elem_of_new_Set.
  - rewrite decide_False; [done|]. by rewrite elem_of_new_Set.
Qed.

(** *** Document frequencies and the total length *)

Lemma doc_freq_cons t d ds :
  doc_freq t (d :: ds) = ((if decide (t ∈ tokenize d) then 1 else 0) + doc_freq t ds)%nat.
Proof.
  unfold doc_freq. destruct (decide (t ∈ tokenize d)).
  - by rewrite filter_cons_True.
  - by rewrite filter_cons_False.
Qed.

Lemma doc_freq_le t ds : (doc_freq t ds <= length ds)%nat.
Proof. unfold doc_freq. apply length_filter. Qed.

Lemma doc_freq_pos t d ds : d ∈ ds -> t ∈ tokenize d -> (1 <= doc_freq t ds)%nat.
Proof.
  intros Hd Ht. unfold doc_freq.
  assert (Hin : d ∈ filter (fun d => t ∈ tokenize d) ds) by (by apply list_elem_of_filter).
  destruct (filter _ ds); [by apply elem_of_nil in Hin|simpl; lia].
Qed.

Lemma total_len_ge d ds : d ∈ ds -> (length (tokenize d) <= total_len ds)%nat.
Proof.
  unfold total_len. induction 1 as [d ds|d d' ds _ IH]; simpl; lia.
Qed.

Lemma total_len_zero ds : total_len ds = 0%nat <-> Forall (fun d => tokenize d = []) ds.
Proof.
  unfold total_len. induction ds as [|d ds IH]; simpl; [split; [constructor|done]|].
  rewrite Forall_cons, <- IH. split.
  - intros H. split; [|lia]. apply length_zero_iff_nil. lia.
  - intros [-> H]. simpl. lia.
Qed.

Lemma scan_fold ds : forall acc,
  positive_counts (fst acc) ->
  let r := fold_left scan ds acc in
  positive_counts (fst r) /\
  (forall t, count_at (fst r) t = (count_at (fst acc) t + doc_freq t ds)%nat) /\
  snd r = (snd acc + total_len ds)%nat.
Proof.
  induction ds as [|d ds IH]; intros acc Hacc; simpl.
  - split; [done|]. split; [|unfold total_len; simpl; lia].
    intros t. unfold doc_freq. simpl. lia.
  - destruct (IH (scan acc d)) as (Hpos & Hcnt & Htot).
    { simpl. by apply positive_counts_fold. }
    split; [done|]. split.
    + intros t. rewrite Hcnt. simpl. rewrite count_at_fold_bump, occ_new_Set, doc_freq_cons. lia.
    + rewrite Htot. unfold total_len. simpl. lia.
Qed.

Lemma scan_all ds :
  let r := fold_left scan ds (∅, 0%nat) in
  positive_counts (fst r) /\
  (forall t, count_at (fst r) t = doc_freq t ds) /\
  snd r = total_len ds.
Proof.
  destruct (scan_fold ds (∅, 0%nat)) as (Hpos & Hcnt & Htot).
  { apply positive_counts_empty. }
  split; [done|]. split; [|done].
  intros t. rewrite Hcnt. unfold count_at. simpl. by rewrite lookup_empty.
Qed.

(** The loop that fills [this.idf]. *)
Lemma fill_idf_lookup n (base : gmap string jsnum) (df : gmap string nat) t :
  map_fold (set_idf n) base df !! t =
  match df !! t with
  | Some c => Some (idf_value n c)
  | None => base !! t
  end.
Proof.
  revert t. apply (map_fold_weak_ind (fun r m => forall t,
    r !! t = match m !! t with Some c => Some (idf_value n c) | None => base !! t end)).
  - intros t. by rewrite lookup_empty.
  - intros k c m r Hk IH t. unfold set_idf. destruct (decide (k = t)) as [->|Hne].
    + by rewrite !lookup_insert_eq.
    + rewrite !lookup_insert_ne by done. apply IH.
Qed.


(** *** What [init] computes (plex-demo.js) *)

Lemma demo_init_fields e ds :
  Demo.docs (Demo.init e ds) = ds /\
  Demo.avgLen (Demo.init e ds) = (of_nat (total_len ds) / of_nat (length ds))%js /\
  Demo.k1 (Demo.init e ds) = Demo.k1 e /\
  Demo.b (Demo.init e ds) = Demo.b e /\
  forall t, Demo.idf (Demo.init e ds) !! t =
            if decide (doc_freq t ds = 0%nat) then Demo.idf e !! t
            else Some (idf_value (length ds) (doc_freq t ds)).
Proof.
  unfold Demo.init. pose proof (scan_all ds) as (Hpos & Hcnt & Htot).
  destruct (fold_left scan ds (∅, 0%nat)) as [df total]. simpl in *. subst total.
  repeat split. intros t. rewrite fill_idf_lookup.
  rewrite (positive_counts_lookup df t Hpos), Hcnt.
  by destruct (decide (doc_freq t ds = 0%nat)).
Qed.

Lemma avg_fin total n :
  (1 <= n)%nat -> (of_nat total / of_nat n)%js = Fin (INR total / INR n).
Proof.
  intros Hn. unfold of_nat. apply div_fin.
  apply not_0_INR. lia.
Qed.

Lemma avg_nonneg total n : (1 <= n)%nat -> 0 <= INR total / INR n.
Proof.
  intros Hn. apply Rle_mult_inv_pos; [apply pos_INR|]. apply lt_0_INR. lia.
Qed.

Lemma avg_pos total n : (1 <= n)%nat -> (1 <= total)%nat -> 0 < INR total / INR n.
Proof.
  intros Hn Ht. apply Rdiv_lt_0_compat; apply lt_0_INR; lia.
Qed.

(** *** The BM25 term *)

Lemma bm25_denominator_pos tf len avg :
  1 <= tf -> 0 <= len -> 0 < avg -> 0 < tf + 1.2 * (1 - 0.75 + 0.75 * len / avg).
Proof.
  intros Htf Hlen Havg.
  assert (0 <= 0.75 * len / avg).
  { apply Rle_mult_inv_pos; [|done]. apply Rmult_le_pos; lra. }
  lra.
Qed.

Lemma bm25_pos v tf len avg :
  0 < v -> 1 <= tf -> 0 <= len -> 0 < avg -> 0 < bm25 v tf len avg.
Proof.
  intros Hv Htf Hlen Havg. unfold bm25.
  apply Rmult_lt_0_compat; [done|].
  apply Rdiv_lt_0_compat; [lra|]. by apply bm25_denominator_pos.
Qed.

(** The term as [score] of plex-demo.js and [scoreDoc] compute it. *)
Lemma bm25_js a v tf len avg :
  1 <= tf -> 0 <= len -> 0 < avg ->
  (Fin a + Fin v *
     ((Fin tf * (Fin 1.2 + Fin 1)) /
      (Fin tf + Fin 1.2 * (Fin 1 - Fin 0.75 + Fin 0.75 * Fin len / Fin avg))))%js
  = Fin (a + bm25 v tf len avg).
Proof.
  intros Htf Hlen Havg. cbn [add sub mul neg].
  rewrite (div_fin _ avg) by lra. cbn [add mul].
  rewrite div_fin.
  - cbn [add mul]. reflexivity.
  - pose proof (bm25_denominator_pos tf len avg Htf Hlen Havg). unfold Rminus in *. lra.
Qed.

(** The term as [score] of plex-vs-dense-demo.mjs computes it. *)
Lemma bm25_js_cached a v tf len avg :
  1 <= tf -> 0 <= len -> 0 < avg ->
  (Fin a + Fin v *
     ((Fin tf * (Fin 1.2 + Fin 1)) /
      (Fin tf + Fin 1.2 * (Fin 1 - Fin 0.75 + Fin 0.75 * (Fin len / or_else (Fin avg) (Fin 1))))))%js
  = Fin (a + bm25 v tf len avg).
Proof.
  intros Htf Hlen Havg. rewrite or_else_pos by done.
  rewrite <- (bm25_js a v tf len avg) by done.
  cbn [add sub mul neg]. rewrite !(div_fin _ avg) by lra. cbn [add mul].
  replace (0.75 * (len / avg)) with (0.75 * len / avg); [done|].
  unfold Rdiv. ring.
Qed.

Lemma contribution_absent ds d q : q ∉ tokenize d -> contribution ds d q = 0.
Proof. intros H%occ_zero. unfold contribution. by rewrite decide_True. Qed.

Lemma contribution_present ds d q :
  d ∈ ds -> q ∈ tokenize d -> 0 < contribution ds d q.
Proof.
  intros Hd Hq. unfold contribution.
  pose proof (proj2 (occ_pos q (tokenize d)) Hq) as Hocc.
  rewrite decide_False by lia.
  assert (Hlen : (1 <= length (tokenize d))%nat)
    by (pose proof (occ_le_length q (tokenize d)); lia).
  assert (Hn : (1 <= length ds)%nat).
  { destruct ds; [by apply elem_of_nil in Hd|simpl; lia]. }
  apply bm25_pos.
  - rewrite <- ln_1. apply ln_increasing; [lra|]. apply idf_arg_gt_1, doc_freq_le.
  - replace 1 with (INR 1) by done. by apply le_INR.
  - apply pos_INR.
  - apply avg_pos; [done|]. pose proof (total_len_ge d ds Hd). lia.
Qed.

Lemma contribution_nonneg ds d q : d ∈ ds -> 0 <= contribution ds d q.
Proof.
  intros Hd. destruct (decide (q ∈ tokenize d)) as [Hq|Hq].
  - left. by apply contribution_present.
  - right. symmetry. by apply contribution_absent.
Qed.

Lemma score_real_fold_ge ds d query : forall a,
  d ∈ ds -> a <= fold_left (fun a q => a + contribution ds d q) query a.
Proof.
  induction query as [|q query IH]; intros a Hd; simpl; [lra|].
  pose proof (contribution_nonneg ds d q Hd). pose proof (IH (a + contribution ds d q) Hd). lra.
Qed.

Lemma score_real_nonneg ds d query : d ∈ ds -> 0 <= score_real ds d query.
Proof. intros Hd. by apply score_real_fold_ge. Qed.

Lemma score_real_fold_absent ds d query : forall a,
  Forall (fun q => q ∉ tokenize d) query ->
  fold_left (fun a q => a + contribution ds d q) query a = a.
Proof.
  induction query as [|q query IH]; intros a Hq; simpl; [done|].
  apply Forall_cons in Hq as [Hq Hqs].
  rewrite contribution_absent by done. rewrite Rplus_0_r. by apply IH.
Qed.

Lemma score_real_fold_present ds d query : forall a,
  d ∈ ds -> Exists (fun q => q ∈ tokenize d) query ->
  a < fold_left (fun a q => a + contribution ds d q) query a.
Proof.
  induction query as [|q query IH]; intros a Hd Hq; simpl; [by apply Exists_nil in Hq|].
  destruct (decide (q ∈ tokenize d)) as [Hin|Hnin].
  - pose proof (contribution_present ds d q Hd Hin).
    pose proof (score_real_fold_ge ds d query (a + contribution ds d q) Hd). lra.
  - apply Exists_cons in Hq as [Hq|Hq]; [done|].
    rewrite contribution_absent by done. rewrite Rplus_0_r. by apply IH.
Qed.

Lemma score_real_pos_iff ds d query :
  d ∈ ds -> 0 < score_real ds d query <-> Exists (fun q => q ∈ tokenize d) query.
Proof.
  intros Hd. split.
  - intros Hpos. destruct (decide (Exists (fun q => q ∈ tokenize d) query)) as [|Hno]; [done|].
    apply not_Exists_Forall in Hno; [|intros q; apply _].
    unfold score_real in Hpos. rewrite score_real_fold_absent in Hpos; [lra|].
    eapply Forall_impl; [exact Hno|]. simpl. done.
  - intros Hex. by apply score_real_fold_present.
Qed.


(** *** [score] of plex-demo.js on a built engine *)

(** The idf that a built engine holds for a token of one of its documents. *)
Lemma demo_get_idf ds d q :
  d ∈ ds -> q ∈ tokenize d ->
  get_or_0 (Demo.idf (Demo.init Demo.SparseEngine ds)) q
  = Fin (ln (idf_arg (length ds) (doc_freq q ds))).
Proof.
  intros Hd Hq. destruct (demo_init_fields Demo.SparseEngine ds) as (_ & _ & _ & _ & Hidf).
  unfold get_or_0. rewrite Hidf.
  pose proof (doc_freq_pos q d ds Hd Hq). rewrite decide_False by lia.
  rewrite idf_value_fin. apply or_else_pos.
  rewrite <- ln_1. apply ln_increasing; [lra|]. apply idf_arg_gt_1, doc_freq_le.
Qed.

Lemma demo_score_real ds d query :
  d ∈ ds ->
  Demo.score (Demo.init Demo.SparseEngine ds) query d = Fin (score_real ds d query).
Proof.
  intros Hd. unfold Demo.score, score_real.
  destruct (demo_init_fields Demo.SparseEngine ds) as (_ & Havg & Hk1 & Hb & _).
  rewrite Havg, Hk1, Hb. simpl Demo.k1. simpl Demo.b.
  assert (Hn : (1 <= length ds)%nat).
  { destruct ds; [by apply elem_of_nil in Hd|simpl; lia]. }
  rewrite avg_fin by done.
  generalize 0. induction query as [|q query IH]; intros a; cbn [fold_left]; [done|].
  fold (count_at (count_tokens (tokenize d)) q). rewrite count_at_count_tokens.
  unfold contribution.
  destruct (decide (occ q (tokenize d) = 0%nat)) as [Hz|Hnz].
  - rewrite Hz. cbn [Nat.eqb]. rewrite Rplus_0_r. apply IH.
  - assert (Hocc : (1 <= occ q (tokenize d))%nat) by lia.
    rewrite (proj2 (Nat.eqb_neq _ _) Hnz).
    rewrite (demo_get_idf ds d q Hd) by (by apply occ_pos).
    unfold of_nat. rewrite bm25_js; [apply IH| | |].
    + replace 1 with (INR 1) by done. by apply le_INR.
    + apply pos_INR.
    + apply avg_pos; [done|].
      pose proof (total_len_ge d ds Hd). pose proof (occ_le_length q (tokenize d)). lia.
Qed.

(** *** [init] and [score] of plex-vs-dense-demo.mjs *)

Lemma array_set_end {A : Type} (a : list A) (x : A) :
  Cached.array_set a (length a) x = a ++ [x].
Proof. unfold Cached.array_set. rewrite decide_False by lia. done. Qed.

Lemma cached_scan_fold ds : forall df total freqs,
  fold_left Cached.scan_doc ds (df, total, freqs, length freqs) =
  (fst (fold_left scan ds (df, total)), snd (fold_left scan ds (df, total)),
   freqs ++ map (fun d => count_tokens (tokenize d)) ds,
   (length freqs + length ds)%nat).
Proof.
  induction ds as [|d ds IH]; intros df total freqs; simpl.
  - by rewrite app_nil_r, Nat.add_0_r.
  - rewrite array_set_end.
    replace (S (length freqs)) with (length (freqs ++ [count_tokens (tokenize d)])).
    2:{ rewrite length_app. simpl. apply Nat.add_1_r. }
    rewrite IH. rewrite <- app_assoc. simpl.
    rewrite length_app. simpl. f_equal. rewrite <- Nat.add_assoc. done.
Qed.

Lemma cached_init_fields ds :
  let e := Cached.init Cached.new_SparseEngine ds in
  let e' := Demo.init Demo.SparseEngine ds in
  Cached.docs e = ds /\
  Cached.idf e = Demo.idf e' /\
  Cached.avgLen e = Demo.avgLen e' /\
  Cached.k1 e = Fin 1.2 /\
  Cached.b e = Fin 0.75 /\
  Cached.docFreqs e = map (fun d => count_tokens (tokenize d)) ds.
Proof.
  unfold Cached.init, Demo.init. simpl Cached.docFreqs.
  rewrite (cached_scan_fold ds ∅ 0%nat []).
  destruct (fold_left scan ds (∅, 0%nat)) as [df total]. simpl. done.
Qed.

(** The sum of the values of a frequency map is the number of tokens. *)
Lemma sum_values_bump m t : Cached.sum_values (bump m t) = S (Cached.sum_values m).
Proof.
  unfold Cached.sum_values, bump.
  set (f := fun (_ : string) (v acc : nat) => (acc + v)%nat).
  assert (Hins : forall (m' : gmap string nat) (c : nat), m' !! t = None ->
            map_fold f 0%nat (<[t := c]> m') = (map_fold f 0%nat m' + c)%nat).
  { intros m' c Hm'. rewrite map_fold_insert_L; [done| |done].
    intros j1 j2 z1 z2 y _ _ _. unfold f. lia. }
  destruct (m !! t) as [c|] eqn:Ht; simpl.
  - rewrite <- (insert_delete_eq m t (S c)).
    replace (map_fold f 0%nat m) with (map_fold f 0%nat (<[t := c]> (delete t m)))
      by (by rewrite insert_delete_eq, insert_id).
    rewrite !Hins by apply lookup_delete_eq. lia.
  - rewrite Hins by done. lia.
Qed.

Lemma sum_values_fold l : forall m,
  Cached.sum_values (fold_left bump l m) = (Cached.sum_values m + length l)%nat.
Proof.
  induction l as [|x l IH]; intros m; simpl; [lia|].
  rewrite IH, sum_values_bump. lia.
Qed.

Lemma sum_values_count_tokens l : Cached.sum_values (count_tokens l) = length l.
Proof.
  unfold count_tokens. rewrite sum_values_fold.
  unfold Cached.sum_values. by rewrite map_fold_empty.
Qed.

Lemma cached_score_real ds i d query :
  ds !! i = Some d ->
  Cached.score (Cached.init Cached.new_SparseEngine ds) query i
  = Normal (Fin (score_real ds d query)).
Proof.
  intros Hi. assert (Hd : d ∈ ds) by (eapply list_elem_of_lookup_2; done).
  unfold Cached.score, score_real.
  destruct (cached_init_fields ds) as (_ & Hidf & Havg & Hk1 & Hb & Hfreqs).
  rewrite Hidf, Havg, Hk1, Hb, Hfreqs. clear Hidf Havg Hk1 Hb Hfreqs.
  destruct (demo_init_fields Demo.SparseEngine ds) as (_ & Havg & _ & _ & _).
  rewrite Havg. clear Havg.
  assert (Hn : (1 <= length ds)%nat).
  { destruct ds; [by apply elem_of_nil in Hd|simpl; lia]. }
  rewrite avg_fin by done.
  rewrite list_lookup_fmap, Hi.
  change ((fun d => count_tokens (tokenize d)) <$> Some d)
    with (Some (count_tokens (tokenize d))).
  cbv beta iota. rewrite sum_values_count_tokens.
  generalize 0. induction query as [|q query IH]; intros a;
    cbn [fold_left mbind completion_bind]; [done|].
  fold (count_at (count_tokens (tokenize d)) q). rewrite count_at_count_tokens.
  unfold contribution.
  destruct (decide (occ q (tokenize d) = 0%nat)) as [Hz|Hnz].
  - rewrite Hz. cbn [Nat.eqb]. rewrite Rplus_0_r. apply IH.
  - assert (Hocc : (1 <= occ q (tokenize d))%nat) by lia.
    rewrite (proj2 (Nat.eqb_neq _ _) Hnz).
    rewrite (demo_get_idf ds d q Hd) by (by apply occ_pos).
    unfold of_nat. rewrite bm25_js_cached; [apply IH| | |].
    + replace 1 with (INR 1) by done. by apply le_INR.
    + apply pos_INR.
    + apply avg_pos; [done|].
      pose proof (total_len_ge d ds Hd). pose proof (occ_le_length q (tokenize d)). lia.
Qed.


(** *** [search] of plex-vs-dense-demo.mjs on a built engine *)

Lemma search_loop_spec ds tokens : forall rest i acc,
  (forall j d, rest !! j = Some d -> ds !! (i + j)%nat = Some d) ->
  Cached.search_loop (Cached.init Cached.new_SparseEngine ds) tokens i rest acc
  = Normal (acc ++ omap (hit_of ds tokens) rest).
Proof.
  induction rest as [|d rest IH]; intros i acc Hrest; cbn [Cached.search_loop omap list_omap].
  - by rewrite app_nil_r.
  - rewrite (cached_score_real ds i d).
    2:{ specialize (Hrest 0%nat d). rewrite Nat.add_0_r in Hrest. by apply Hrest. }
    cbn [mbind completion_bind]. rewrite IH.
    2:{ intros j d' Hj. replace (S i + j)%nat with (i + S j)%nat by lia. by apply Hrest. }
    unfold hit_of at 2. unfold gtb, ltb.
    destruct (Rlt_dec 0 (score_real ds d tokens)); [|done].
    by rewrite <- app_assoc.
Qed.

Lemma search_spec ds query :
  Cached.search (Cached.init Cached.new_SparseEngine ds) query
  = Normal (omap (hit_of ds (map toLowerCase query)) ds).
Proof.
  unfold Cached.search. destruct (cached_init_fields ds) as (-> & _).
  rewrite search_loop_spec; [done|]. intros j d. done.
Qed.

Lemma hits_docs ds tokens l :
  (forall d, d ∈ l -> d ∈ ds) ->
  map Cached.hit_doc (omap (hit_of ds tokens) l) = filter (matches tokens) l.
Proof.
  induction l as [|d l IH]; intros Hl; [done|].
  cbn [omap list_omap]. unfold hit_of at 1.
  assert (Hd : d ∈ ds) by (apply Hl; left).
  destruct (Rlt_dec 0 (score_real ds d tokens)) as [Hpos|Hnpos].
  - rewrite filter_cons_True by (by apply (score_real_pos_iff ds d tokens Hd)).
    simpl. f_equal. apply IH. intros d' Hd'. apply Hl. by right.
  - rewrite filter_cons_False by (by rewrite <- (score_real_pos_iff ds d tokens Hd)).
    apply IH. intros d' Hd'. apply Hl. by right.
Qed.

Lemma hits_scores ds tokens h :
  h ∈ omap (hit_of ds tokens) ds ->
  lt (Fin 0) (Cached.hit_score h) /\
  exists i, ds !! i = Some (Cached.hit_doc h) /\
    Cached.score (Cached.init Cached.new_SparseEngine ds) tokens i = Normal (Cached.hit_score h).
Proof.
  intros Hh. apply list_elem_of_omap in Hh as (d & Hd & Hhit).
  unfold hit_of in Hhit. destruct (Rlt_dec 0 (score_real ds d tokens)) as [Hpos|]; [|done].
  injection Hhit as <-. simpl. split; [done|].
  apply list_elem_of_lookup in Hd as [i Hi]. exists i.
  split; [done|]. by apply cached_score_real.
Qed.


(** *** [init] and [scoreDoc] of the benchmark variant *)

Lemma itemToTokens_tokenize d : itemToTokens d = tokenize d.
Proof.
  unfold itemToTokens, tokenize.
  induction (split_ws _) as [|t l IH]; [done|]. simpl. rewrite IH.
  by destruct t.
Qed.

Lemma not_elem_of_add (x t : string) (seen : gset string) :
  t ∉ {[x]} ∪ seen <-> t <> x /\ t ∉ seen.
Proof. rewrite elem_of_union, elem_of_singleton. tauto. Qed.

Lemma bench_visit_fold tokens : forall (seen : gset string) tdc voc,
  positive_counts tdc ->
  let r := fold_left Bench.visit tokens (seen, tdc, voc) in
  positive_counts (snd (fst r)) /\
  forall t, count_at (snd (fst r)) t
            = (count_at tdc t + if decide (t ∈ tokens /\ t ∉ seen) then 1 else 0)%nat.
Proof.
  induction tokens as [|x tokens IH]; intros seen tdc voc Hpos; cbv zeta; simpl.
  - split; [done|]. intros t.
    destruct (decide (t ∈ [] /\ t ∉ seen)) as [[H _]|_]; [by apply elem_of_nil in H|lia].
  - case_bool_decide as Hx.
    + destruct (IH seen tdc ({[x]} ∪ voc) Hpos) as [Hpos' Hcnt]. split; [done|].
      intros t. rewrite Hcnt. f_equal.
      destruct (decide (t ∈ tokens /\ t ∉ seen)) as [[H1 H2]|Hn].
      * rewrite decide_True; [done|]. split; [by right|done].
      * rewrite decide_False; [done|]. intros [H1 H2]. apply Hn.
        apply elem_of_cons in H1 as [->|H1]; [done|]. done.
    + destruct (IH ({[x]} ∪ seen) (bump tdc x) ({[x]} ∪ voc)) as [Hpos' Hcnt].
      { by apply positive_counts_bump. }
      split; [done|]. intros t. rewrite Hcnt, count_at_bump.
      destruct (decide (x = t)) as [->|Hne].
      * rewrite decide_False by (rewrite not_elem_of_add; tauto).
        rewrite decide_True; [lia|]. split; [left|done].
      * destruct (decide (t ∈ tokens /\ t ∉ seen)) as [[H1 H2]|Hn].
        -- rewrite decide_True by (rewrite not_elem_of_add; split; [done|split; congruence]).
           rewrite decide_True; [lia|]. split; [by right|done].
        -- rewrite decide_False by (rewrite not_elem_of_add; tauto).
           rewrite decide_False; [lia|].
           intros [H1 H2]. apply Hn. apply elem_of_cons in H1 as [->|H1]; done.
Qed.

Lemma bench_scan_fold ds : forall tdc total voc,
  positive_counts tdc ->
  let r := fold_left Bench.scan_doc ds (tdc, total, voc) in
  positive_counts (fst (fst r)) /\
  (forall t, count_at (fst (fst r)) t = (count_at tdc t + doc_freq t ds)%nat) /\
  snd (fst r) = (total + total_len ds)%nat.
Proof.
  induction ds as [|d ds IH]; intros tdc total voc Hpos; cbv zeta; simpl.
  - split; [done|]. split; [|unfold total_len; simpl; lia].
    intros t. unfold doc_freq. simpl. lia.
  - pose proof (bench_visit_fold (itemToTokens d) ∅ tdc voc Hpos) as [Hpos' Hcnt].
    destruct (fold_left Bench.visit (itemToTokens d) (∅, tdc, voc)) as [[seen tdc'] voc'].
    simpl in Hpos', Hcnt.
    destruct (IH tdc' (total + length (itemToTokens d))%nat voc' Hpos') as (Hp & Hc & Ht).
    split; [done|]. split.
    + intros t. rewrite Hc, Hcnt, doc_freq_cons, itemToTokens_tokenize.
      destruct (decide (t ∈ tokenize d)) as [Hin|Hnin].
      * rewrite decide_True; [lia|]. split; [done|]. apply not_elem_of_empty.
      * rewrite decide_False by tauto. lia.
    + rewrite Ht, itemToTokens_tokenize. unfold total_len. simpl. lia.
Qed.

Lemma bench_init_fields ds :
  let e := Bench.init Bench.SparseEngine ds in
  Bench.docs e = ds /\
  Bench.avgDocLen e = (of_nat (total_len ds) / of_nat (length ds))%js /\
  Bench.k1 e = Fin 1.2 /\
  Bench.b e = Fin 0.75 /\
  forall t, Bench.idf e !! t =
            if decide (doc_freq t ds = 0%nat) then None
            else Some (idf_value (length ds) (doc_freq t ds)).
Proof.
  unfold Bench.init. simpl Bench.vocab. simpl Bench.idf. simpl Bench.k1. simpl Bench.b.
  pose proof (bench_scan_fold ds ∅ 0%nat ∅ positive_counts_empty) as (Hpos & Hcnt & Htot).
  destruct (fold_left Bench.scan_doc ds (∅, 0%nat, ∅)) as [[tdc total] voc].
  simpl in *. subst total. repeat split. intros t.
  rewrite fill_idf_lookup, (positive_counts_lookup tdc t Hpos), Hcnt.
  unfold count_at. rewrite lookup_empty. simpl.
  by destruct (decide (doc_freq t ds = 0%nat)).
Qed.

(** The term as [scoreDoc] computes it when the average length is not 0:
    a token that is absent from the document contributes [idf * 0]. *)
Lemma bm25_js_absent a v len avg :
  0 <= len -> 0 < avg ->
  (Fin a + Fin v *
     ((Fin 0 * (Fin 1.2 + Fin 1)) /
      (Fin 0 + Fin 1.2 * (Fin 1 - Fin 0.75 + Fin 0.75 * Fin len / Fin avg))))%js
  = Fin (a + 0).
Proof.
  intros Hlen Havg. cbn [add sub mul neg].
  rewrite (div_fin _ avg) by lra. cbn [add mul].
  assert (0 <= 0.75 * len / avg).
  { apply Rle_mult_inv_pos; [|done]. apply Rmult_le_pos; lra. }
  rewrite div_fin by lra. cbn [add mul]. f_equal. f_equal.
  unfold Rdiv. ring.
Qed.

Lemma bench_get_idf ds q :
  exists v, get_or_0 (Bench.idf (Bench.init Bench.SparseEngine ds)) q = Fin v /\
    (forall d, d ∈ ds -> q ∈ tokenize d -> v = ln (idf_arg (length ds) (doc_freq q ds))).
Proof.
  destruct (bench_init_fields ds) as (_ & _ & _ & _ & Hidf).
  unfold get_or_0. rewrite Hidf.
  destruct (decide (doc_freq q ds = 0%nat)) as [Hz|Hnz].
  - exists 0. split; [done|]. intros d Hd Hq.
    pose proof (doc_freq_pos q d ds Hd Hq). lia.
  - exists (ln (idf_arg (length ds) (doc_freq q ds))). split; [|done].
    rewrite idf_value_fin. apply or_else_pos.
    rewrite <- ln_1. apply ln_increasing; [lra|]. apply idf_arg_gt_1, doc_freq_le.
Qed.

(** On a corpus with at least one token, [scoreDoc] returns the score. *)
Lemma bench_scoreDoc_real ds i d query :
  (1 <= total_len ds)%nat -> ds !! i = Some d ->
  Bench.scoreDoc (Bench.init Bench.SparseEngine ds) query i
  = Normal (Fin (score_real ds d query)).
Proof.
  intros Htot Hi. assert (Hd : d ∈ ds) by (eapply list_elem_of_lookup_2; done).
  unfold Bench.scoreDoc, score_real.
  destruct (bench_init_fields ds) as (-> & -> & -> & -> & _).
  rewrite Hi, itemToTokens_tokenize.
  assert (Hn : (1 <= length ds)%nat).
  { destruct ds; [by apply elem_of_nil in Hd|simpl; lia]. }
  rewrite avg_fin by done. pose proof (avg_pos (total_len ds) (length ds) Hn Htot) as Havg.
  f_equal. generalize 0. induction query as [|q query IH]; intros a; cbn [fold_left]; [done|].
  fold (count_at (count_tokens (tokenize d)) q). rewrite count_at_count_tokens.
  destruct (bench_get_idf ds q) as (v & -> & Hv). unfold contribution.
  destruct (decide (occ q (tokenize d) = 0%nat)) as [Hz|Hnz].
  - rewrite Hz. unfold of_nat. change (INR 0) with 0.
    rewrite bm25_js_absent; [apply IH|apply pos_INR|done].
  - assert (Hocc : (1 <= occ q (tokenize d))%nat) by lia.
    rewrite (Hv d Hd) by (by apply occ_pos).
    unfold of_nat. rewrite bm25_js; [apply IH| | |done].
    + replace 1 with (INR 1) by done. by apply le_INR.
    + apply pos_INR.
Qed.

(** On a corpus without any token, the score of a query that is not empty
    is [NaN], for every document. *)
Lemma bench_scoreDoc_NaN ds i d q query :
  total_len ds = 0%nat -> ds !! i = Some d ->
  Bench.scoreDoc (Bench.init Bench.SparseEngine ds) (q :: query) i = Normal NaN.
Proof.
  intros Htot Hi. assert (Hd : d ∈ ds) by (eapply list_elem_of_lookup_2; done).
  unfold Bench.scoreDoc.
  destruct (bench_init_fields ds) as (-> & -> & -> & -> & Hidf).
  rewrite Hi, itemToTokens_tokenize.
  assert (Hempty : tokenize d = []).
  { apply total_len_zero in Htot. rewrite Forall_forall in Htot. by apply Htot. }
  rewrite Hempty, Htot.
  assert (Hn : (1 <= length ds)%nat).
  { destruct ds; [by apply elem_of_nil in Hd|simpl; lia]. }
  rewrite avg_fin by done. f_equal.
  assert (Hstep : forall (x : jsnum) (t : string),
    (x + get_or_0 (Bench.idf (Bench.init Bench.SparseEngine ds)) t *
       ((of_nat (default 0%nat (count_tokens [] !! t)) * (Fin 1.2 + Fin 1)) /
        (of_nat (default 0%nat (count_tokens [] !! t)) +
         Fin 1.2 * (Fin 1 - Fin 0.75 +
                    Fin 0.75 * of_nat (length ([] : list string)) / Fin (INR 0 / INR (length ds))))))%js
    = NaN).
  { intros x t. unfold count_tokens. cbn [fold_left]. rewrite lookup_empty. cbn [default length].
    unfold of_nat. cbn [mul].
    rewrite (div_zero_zero (0.75 * INR 0) (INR 0 / INR (length ds)))
      by (simpl; unfold Rdiv; ring).
    cbn [add sub mul neg div]. destruct (get_or_0 _ t); destruct x; done. }
  cbn [fold_left]. rewrite Hstep.
  induction query as [|t query IH]; cbn [fold_left]; [done|].
  by rewrite Hstep.
Qed.

(** *** The ranking of the benchmark *)

Lemma score_all_spec ds tokens : forall rest i,
  (1 <= total_len ds)%nat ->
  (forall j d, rest !! j = Some d -> ds !! (i + j)%nat = Some d) ->
  Bench.score_all (Bench.init Bench.SparseEngine ds) tokens i rest
  = Normal (scored ds tokens i rest).
Proof.
  induction rest as [|d rest IH]; intros i Htot Hrest; cbn [Bench.score_all scored]; [done|].
  rewrite (bench_scoreDoc_real ds i d) by
    (try done; specialize (Hrest 0%nat d); rewrite Nat.add_0_r in Hrest; by apply Hrest).
  cbn [mbind completion_bind]. rewrite IH; [done|done|].
  intros j d' Hj. replace (S i + j)%nat with (i + S j)%nat by lia. by apply Hrest.
Qed.

Lemma sort_insert_perm {A : Type} (cmp : A -> A -> jsnum) (x : A) (l : list A) :
  sort_insert cmp x l ≡ₚ x :: l.
Proof.
  induction l as [|y l IH]; cbn [sort_insert]; [done|].
  destruct (gtb (cmp x y) (Fin 0)); [|reflexivity]. rewrite IH. apply perm_swap.
Qed.

Lemma sort_perm {A : Type} (cmp : A -> A -> jsnum) (l : list A) : sort cmp l ≡ₚ l.
Proof.
  induction l as [|x l IH]; cbn [sort]; [reflexivity|]. by rewrite sort_insert_perm, IH.
Qed.

Lemma ranks_before_trans a b c :
  ranks_before a b -> ranks_before b c -> ranks_before a c.
Proof.
  unfold ranks_before. destruct (Bench.ranked_score a), (Bench.ranked_score b),
    (Bench.ranked_score c); try done.
  intros [H1|[H1 H1']] [H2|[H2 H2']]; try (left; lra). right. split; [lra|lia].
Qed.

Lemma by_score_gtb a b x y :
  Bench.ranked_score a = Fin x -> Bench.ranked_score b = Fin y ->
  gtb (Bench.by_score a b) (Fin 0) = true <-> x < y.
Proof.
  intros Ha Hb. unfold Bench.by_score. rewrite Ha, Hb. cbn [sub add neg].
  rewrite gtb_fin_0. lra.
Qed.

Lemma sort_insert_sorted x l :
  finite_score x -> Forall finite_score l ->
  Forall (fun y => (Bench.ranked_id x < Bench.ranked_id y)%nat) l ->
  StronglySorted ranks_before l ->
  StronglySorted ranks_before (sort_insert Bench.by_score x l).
Proof.
  intros Hx Hfin Hid Hsorted. unfold finite_score in Hx.
  destruct (Bench.ranked_score x) as [sx| | |] eqn:Hsx; try done. clear Hx.
  induction Hsorted as [|y l Hl IH Hy]; cbn [sort_insert]; [repeat constructor|].
  apply Forall_cons in Hfin as [Hfy Hfin]. apply Forall_cons in Hid as [Hidy Hid].
  unfold finite_score in Hfy.
  destruct (Bench.ranked_score y) as [sy| | |] eqn:Hsy; try done.
  destruct (gtb (Bench.by_score x y) (Fin 0)) eqn:Hgt.
  - apply (by_score_gtb x y sx sy Hsx Hsy) in Hgt.
    constructor; [by apply IH|].
    rewrite sort_insert_perm. constructor; [|done].
    unfold ranks_before. rewrite Hsy, Hsx. by left.
  - assert (Hle : sy <= sx).
    { destruct (Rle_dec sy sx) as [|Hn]; [done|]. exfalso.
      assert (Ht : gtb (Bench.by_score x y) (Fin 0) = true)
        by (apply (by_score_gtb x y sx sy Hsx Hsy); lra).
      congruence. }
    assert (Hxy : ranks_before x y).
    { unfold ranks_before. rewrite Hsx, Hsy.
      destruct (Rle_lt_or_eq_dec _ _ Hle) as [Hlt|Heq]; [by left|right; split; [done|done]]. }
    constructor; [by constructor|]. constructor; [done|].
    eapply Forall_impl; [exact Hy|]. intros z Hz. simpl in Hz.
    by apply (ranks_before_trans x y z).
Qed.

Lemma scored_ids ds tokens : forall rest i,
  Forall (fun y => (i <= Bench.ranked_id y)%nat) (scored ds tokens i rest) /\
  Forall finite_score (scored ds tokens i rest).
Proof.
  induction rest as [|d rest IH]; intros i; simpl; [done|].
  destruct (IH (S i)) as [Hid Hfin]. split.
  - constructor; [simpl; lia|]. eapply Forall_impl; [exact Hid|]. intros y Hy. simpl in Hy. lia.
  - constructor; [done|done].
Qed.

Lemma sort_scored_sorted ds tokens : forall rest i,
  StronglySorted ranks_before (sort Bench.by_score (scored ds tokens i rest)).
Proof.
  induction rest as [|d rest IH]; intros i; cbn [scored sort]; [constructor|].
  destruct (scored_ids ds tokens rest (S i)) as [Hid Hfin].
  apply sort_insert_sorted; [done| | |apply IH].
  - by rewrite sort_perm.
  - rewrite sort_perm. eapply Forall_impl; [exact Hid|]. intros y Hy. simpl in *. lia.
Qed.

Lemma length_scored ds tokens : forall rest i, length (scored ds tokens i rest) = length rest.
Proof. induction rest as [|d rest IH]; intros i; simpl; [done|]. by rewrite IH. Qed.

(** On a corpus with at least one token, the ranking is made of the first
    ten entries of the full set sorted by non-increasing score, entries with
    equal scores in document order. *)
Lemma ranking_spec ds tokens :
  (1 <= total_len ds)%nat ->
  exists sorted,
    Bench.ranking (Bench.init Bench.SparseEngine ds) tokens ds = Normal (take 10 sorted) /\
    sorted ≡ₚ scored ds tokens 0 ds /\
    StronglySorted ranks_before sorted.
Proof.
  intros Htot. exists (sort Bench.by_score (scored ds tokens 0 ds)).
  unfold Bench.ranking. rewrite score_all_spec by done.
  split; [done|]. split; [apply sort_perm|apply sort_scored_sorted].
Qed.

(** *** The claims about the sparse engine *)

Local Open Scope string_scope.

(** C2, as the claim states it, fails: [init] of the empty collection
    raises nothing and leaves [NaN] as the average length, in plex-demo.js
    and in the benchmark variant alike. *)
Lemma empty_corpus_yields_NaN :
  Demo.avgLen (Demo.init Demo.SparseEngine []) = NaN /\
  Bench.avgDocLen (Bench.init Bench.SparseEngine []) = NaN.
Proof.
  unfold Demo.init, Bench.init. cbn [fold_left length Demo.avgLen Bench.avgDocLen].
  unfold of_nat. split; by apply div_zero_zero.
Qed.

(** C2, amended.  [init] has no failure path.  On the empty collection it
    returns normally: [docs] is empty, the idf table (and the vocabulary) is
    left as it was, and the average length is [0 / 0], that is [NaN]. *)
Theorem init_of_empty_corpus (e : Demo.engine) (e' : Bench.engine) :
  Demo.init e [] = Demo.Engine [] (Demo.idf e) NaN (Demo.k1 e) (Demo.b e) /\
  Bench.init e' []
    = Bench.Engine [] (Bench.vocab e') (Bench.idf e') NaN (Bench.k1 e') (Bench.b e').
Proof.
  unfold Demo.init, Bench.init. cbn [fold_left length].
  rewrite !map_fold_empty. unfold of_nat.
  rewrite (div_zero_zero (INR 0) (INR 0)) by done. done.
Qed.

Lemma tokenize_no_fields : tokenize ∅ = [].
Proof. reflexivity. Qed.

Lemma itemToTokens_no_fields : itemToTokens ∅ = [].
Proof. reflexivity. Qed.

(** C6, as the claim states it, fails: a corpus of one record that has none
    of the four fields has [N = 1] document and an average length of 0. *)
Lemma average_length_can_be_zero :
  Demo.avgLen (Demo.init Demo.SparseEngine [∅]) = Fin 0 /\
  ~ lt (Fin 0) (Demo.avgLen (Demo.init Demo.SparseEngine [∅])).
Proof.
  destruct (demo_init_fields Demo.SparseEngine [∅]) as (_ & -> & _).
  assert (Ht : total_len [∅] = 0%nat) by reflexivity.
  rewrite Ht, avg_fin by (simpl; lia).
  replace (INR 0 / INR (length [∅ : doc])) with 0 by (simpl; lra).
  split; [done|]. simpl. lra.
Qed.

(** C6, amended.  For every corpus of [N >= 1] documents, in plex-demo.js
    and in plex-vs-dense-demo.mjs alike, the average length is a finite
    number [r >= 0], with [r > 0] exactly when some document has a token;
    and the idf of every term of the corpus is a finite number [v > 0]. *)
Theorem corpus_statistics_are_finite (ds : list doc) :
  ds <> [] ->
  exists r,
    Demo.avgLen (Demo.init Demo.SparseEngine ds) = Fin r /\
    Cached.avgLen (Cached.init Cached.new_SparseEngine ds) = Fin r /\
    0 <= r /\
    (0 < r <-> Exists (fun d => tokenize d <> []) ds) /\
    forall d t, d ∈ ds -> t ∈ tokenize d ->
      exists v,
        Demo.idf (Demo.init Demo.SparseEngine ds) !! t = Some (Fin v) /\
        Cached.idf (Cached.init Cached.new_SparseEngine ds) !! t = Some (Fin v) /\
        0 < v.
Proof.
  intros Hne. assert (Hn : (1 <= length ds)%nat) by (destruct ds; [done|simpl; lia]).
  destruct (cached_init_fields ds) as (_ & -> & -> & _).
  destruct (demo_init_fields Demo.SparseEngine ds) as (_ & -> & _ & _ & Hidf).
  exists (INR (total_len ds) / INR (length ds)).
  rewrite avg_fin by done. split; [done|]. split; [done|].
  split; [by apply avg_nonneg|]. split.
  - split.
    + intros Hpos. destruct (decide (Exists (fun d => tokenize d <> []) ds)) as [|Hno]; [done|].
      apply not_Exists_Forall in Hno; [|intros d; apply _].
      assert (Hz : total_len ds = 0%nat).
      { apply total_len_zero. eapply Forall_impl; [exact Hno|].
        intros d Hd. simpl in Hd. by destruct (tokenize d); [|exfalso; apply Hd]. }
      rewrite Hz in Hpos. simpl in Hpos. lra.
    + intros Hex. apply avg_pos; [done|].
      destruct (total_len ds) eqn:Hz; [|lia].
      apply total_len_zero in Hz. apply Exists_exists in Hex as (d & Hd & Hnil).
      rewrite Forall_forall in Hz. by apply Hz in Hd.
  - intros d t Hd Ht. pose proof (doc_freq_pos t d ds Hd Ht) as Hdf.
    destruct (idf_value_pos (length ds) (doc_freq t ds) (doc_freq_le t ds)) as (v & Hv & Hpos).
    exists v. rewrite Hidf, decide_False by lia. rewrite Hv. done.
Qed.

Lemma corpus_statistics_are_finite_witness :
  exists r,
    Demo.avgLen (Demo.init Demo.SparseEngine [city "Boston"]) = Fin r /\
    Cached.avgLen (Cached.init Cached.new_SparseEngine [city "Boston"]) = Fin r /\
    0 <= r /\
    (0 < r <-> Exists (fun d => tokenize d <> []) [city "Boston"]) /\
    forall d t, d ∈ [city "Boston"] -> t ∈ tokenize d ->
      exists v,
        Demo.idf (Demo.init Demo.SparseEngine [city "Boston"]) !! t = Some (Fin v) /\
        Cached.idf (Cached.init Cached.new_SparseEngine [city "Boston"]) !! t = Some (Fin v) /\
        0 < v.
Proof. apply (corpus_statistics_are_finite [city "Boston"]). discriminate. Defined.

(** C7 (code bug).  [scoreDoc] of the benchmark variant has no guard for a
    token that is absent from the document, and none for a zero average
    length: on a corpus of one record with none of the four fields, the
    score of the query [["boston"]] is [NaN], neither 0 nor [>= 0]. *)
Theorem scoreDoc_yields_NaN :
  Bench.scoreDoc (Bench.init Bench.SparseEngine [∅]) ["boston"] 0 = Normal NaN /\
  ~ le (Fin 0) NaN.
Proof.
  split; [|simpl; tauto].
  unfold Bench.scoreDoc, Bench.init, Bench.scan_doc.
  cbn [fold_left Bench.vocab Bench.SparseEngine]. rewrite itemToTokens_no_fields.
  cbn [fold_left length Bench.docs Bench.idf Bench.k1 Bench.b Bench.avgDocLen
       Bench.SparseEngine Nat.add].
  rewrite map_fold_empty.
  change ([∅ : doc] !! 0%nat) with (Some (∅ : doc)). cbv beta iota.
  rewrite itemToTokens_no_fields. cbn [length count_tokens fold_left].
  rewrite lookup_empty. cbn [default]. unfold get_or_0. rewrite lookup_empty.
  unfold of_nat. cbn [add sub mul neg].
  rewrite (div_fin (INR 0) (INR 1)) by (simpl; lra).
  rewrite (div_zero_zero (0.75 * INR 0) (INR 0 / INR 1)) by (simpl; lra).
  reflexivity.
Qed.

(** C7 on the sibling path: [score] of plex-demo.js skips a token that is
    absent from the document, and there the claim holds. *)
Lemma demo_score_nonnegative (ds : list doc) (d : doc) (query : list string) :
  d ∈ ds ->
  exists r,
    Demo.score (Demo.init Demo.SparseEngine ds) query d = Fin r /\
    0 <= r /\
    (Forall (fun q => q ∉ tokenize d) query -> r = 0).
Proof.
  intros Hd. exists (score_real ds d query). split; [by apply demo_score_real|].
  split; [by apply score_real_nonneg|].
  intros Hq. unfold score_real. by apply score_real_fold_absent.
Qed.

(** C9 (amended).  On the same corpus, for every query and every index [i]
    of a document [d], the scorer that keeps a term-frequency index
    (plex-vs-dense-demo.mjs) and the scorer that tokenizes [d] again
    (plex-demo.js) denote the same number, the BM25 sum [score_real]: in
    exact arithmetic the two scores are equal. *)
Theorem cached_score_equals_retokenizing_score (ds : list doc) (query : list string)
    (i : nat) (d : doc) :
  ds !! i = Some d ->
  Cached.score (Cached.init Cached.new_SparseEngine ds) query i
    = Normal (Demo.score (Demo.init Demo.SparseEngine ds) query d) /\
  Demo.score (Demo.init Demo.SparseEngine ds) query d = Fin (score_real ds d query).
Proof.
  intros Hi. rewrite (cached_score_real ds i d) by done.
  rewrite demo_score_real; [done|]. eapply list_elem_of_lookup_2. exact Hi.
Qed.

Lemma cached_score_equals_retokenizing_score_witness :
  Cached.score (Cached.init Cached.new_SparseEngine [city "Boston"; city "Cambridge"])
    ["boston"] 1
    = Normal (Demo.score (Demo.init Demo.SparseEngine [city "Boston"; city "Cambridge"])
                ["boston"] (city "Cambridge")) /\
  Demo.score (Demo.init Demo.SparseEngine [city "Boston"; city "Cambridge"])
    ["boston"] (city "Cambridge")
    = Fin (score_real [city "Boston"; city "Cambridge"] (city "Cambridge") ["boston"]).
Proof.
  apply (cached_score_equals_retokenizing_score
           [city "Boston"; city "Cambridge"] ["boston"] 1 (city "Cambridge")).
  reflexivity.
Defined.


(** C5, as the claim states it, fails.  On the corpus Boston, Boston,
    Cambridge and the query [["boston"]], [search] returns two entries and
    not three: the document with score 0 is left out.  On the corpus
    (Boston MA), (Boston) and the same query it returns the two documents
    in document order although the second one has the higher score.  And
    the ranking of the benchmark returns 10 entries for a corpus of 11
    documents. *)
Lemma search_omits_misses_and_keeps_document_order :
  (exists hits,
     Cached.search
       (Cached.init Cached.new_SparseEngine [city "Boston"; city "Boston"; city "Cambridge"])
       ["boston"] = Normal hits /\
     length hits = 2%nat) /\
  (exists s0 s1,
     Cached.search (Cached.init Cached.new_SparseEngine [boston_ma; city "Boston"]) ["boston"]
       = Normal [Cached.Hit boston_ma (Fin s0); Cached.Hit (city "Boston") (Fin s1)] /\
     s0 < s1) /\
  (exists top,
     Bench.ranking (Bench.init Bench.SparseEngine (replicate 11 (city "Boston")))
       ["boston"] (replicate 11 (city "Boston")) = Normal top /\
     length top = 10%nat).
Proof.
  split; [|split].
  - rewrite search_spec. eexists. split; [reflexivity|].
    rewrite <- (length_map Cached.hit_doc). rewrite hits_docs by done.
    reflexivity.
  - rewrite search_spec.
    set (ds := [boston_ma; city "Boston"]).
    set (v := ln (idf_arg 2 2)).
    assert (Hv : 0 < v).
    { unfold v. rewrite <- ln_1. apply ln_increasing; [lra|]. apply idf_arg_gt_1. lia. }
    assert (H0 : score_real ds boston_ma ["boston"] = 0 + bm25 v 1 2 (3 / 2)).
    { unfold score_real, contribution. cbn [fold_left map toLowerCase].
      change (occ "boston" (tokenize boston_ma)) with 1%nat.
      change (doc_freq "boston" ds) with 2%nat.
      change (length (tokenize boston_ma)) with 2%nat.
      change (total_len ds) with 3%nat. change (length ds) with 2%nat.
      rewrite decide_False by lia. fold v. simpl INR. f_equal. f_equal; lra. }
    assert (H1 : score_real ds (city "Boston") ["boston"] = 0 + bm25 v 1 1 (3 / 2)).
    { unfold score_real, contribution. cbn [fold_left map toLowerCase].
      change (occ "boston" (tokenize (city "Boston"))) with 1%nat.
      change (doc_freq "boston" ds) with 2%nat.
      change (length (tokenize (city "Boston"))) with 1%nat.
      change (total_len ds) with 3%nat. change (length ds) with 2%nat.
      rewrite decide_False by lia. fold v. simpl INR. f_equal. f_equal; lra. }
    assert (Hp0 : 0 < bm25 v 1 2 (3 / 2)) by (apply bm25_pos; lra).
    assert (Hp1 : 0 < bm25 v 1 1 (3 / 2)) by (apply bm25_pos; lra).
    exists (0 + bm25 v 1 2 (3 / 2)), (0 + bm25 v 1 1 (3 / 2)). split.
    + change (map toLowerCase ["boston"]) with ["boston"].
      unfold ds at 2. cbn [omap list_omap]. unfold hit_of. rewrite H0, H1.
      destruct (Rlt_dec 0 (0 + bm25 v 1 2 (3 / 2))); [|lra].
      destruct (Rlt_dec 0 (0 + bm25 v 1 1 (3 / 2))); [|lra].
      reflexivity.
    + apply Rplus_lt_compat_l. unfold bm25. apply Rmult_lt_compat_l; [done|].
      apply Rmult_lt_compat_l; [lra|]. apply Rinv_lt_contravar; [|lra].
      apply Rmult_lt_0_compat; lra.
  - destruct (ranking_spec (replicate 11 (city "Boston")) ["boston"])
      as (sorted & -> & Hperm & _); [vm_compute; lia|].
    eexists. split; [reflexivity|].
    rewrite length_take, Hperm, length_scored. reflexivity.
Qed.

(** C5, amended.  For every corpus and query, [search] on the built engine
    returns normally; its entries are the documents that contain at least
    one of the lower-cased query tokens, in document order and unsorted,
    each with its score, which is greater than 0: documents with score 0
    are left out.  The ranking of the benchmark does sort: on a corpus with
    at least one token it is made of the first ten entries of the full set
    of (index, score) entries, zero scores included, sorted by
    non-increasing score with equal scores in document order. *)
Theorem search_returns_hits_and_ranking_sorts (ds : list doc) (query : list string) :
  (exists hits,
     Cached.search (Cached.init Cached.new_SparseEngine ds) query = Normal hits /\
     map Cached.hit_doc hits = filter (matches (map toLowerCase query)) ds /\
     forall h, h ∈ hits ->
       lt (Fin 0) (Cached.hit_score h) /\
       exists i, ds !! i = Some (Cached.hit_doc h) /\
         Cached.score (Cached.init Cached.new_SparseEngine ds) (map toLowerCase query) i
         = Normal (Cached.hit_score h)) /\
  ((1 <= total_len ds)%nat ->
   exists sorted,
     Bench.ranking (Bench.init Bench.SparseEngine ds) query ds = Normal (take 10 sorted) /\
     sorted ≡ₚ scored ds query 0 ds /\
     StronglySorted ranks_before sorted).
Proof.
  split.
  - exists (omap (hit_of ds (map toLowerCase query)) ds).
    split; [apply search_spec|]. split; [by apply hits_docs|].
    intros h. apply hits_scores.
  - apply ranking_spec.
Qed.

End SparseFacts.

(** ** The engine on doubles: rounding *)

Module Binary64Facts.
Import Sparse Binary64 Binary64Spec.
Local Open Scope string_scope.

(** On doubles, too, the average length of an empty corpus is [0 / 0 =
    NaN], whatever [Math.log] is. *)
Lemma binary64_empty_corpus_NaN (Math_log : float -> float) :
  Demo.init Math_log Demo.SparseEngine []
    = Demo.Engine [] ∅ PrimFloat.nan lit_1_2 lit_0_75 /\
  Cached.avgLen (Cached.init Math_log Cached.new_SparseEngine []) = PrimFloat.nan /\
  Bench.avgDocLen (Bench.init Math_log Bench.SparseEngine []) = PrimFloat.nan.
Proof. repeat split; vm_compute; reflexivity. Qed.

(** On doubles the average length of a corpus of one record without
    fields is zero. *)
Lemma binary64_average_zero (Math_log : float -> float) :
  Demo.avgLen (Demo.init Math_log Demo.SparseEngine [∅]) = 0%float /\
  Cached.avgLen (Cached.init Math_log Cached.new_SparseEngine [∅]) = 0%float /\
  Bench.avgDocLen (Bench.init Math_log Bench.SparseEngine [∅]) = 0%float.
Proof. repeat split; vm_compute; reflexivity. Qed.

(** On doubles [scoreDoc] of the benchmark variant returns [NaN] on that
    corpus, while the two other scorers return 0. *)
Lemma binary64_scoreDoc_NaN (Math_log : float -> float) :
  Bench.scoreDoc (Bench.init Math_log Bench.SparseEngine [∅]) ["boston"] 0
    = JS.Normal PrimFloat.nan /\
  Demo.score (Demo.init Math_log Demo.SparseEngine [∅]) ["boston"] ∅ = 0%float /\
  Cached.score (Cached.init Math_log Cached.new_SparseEngine [∅]) ["boston"] 0
    = JS.Normal 0%float.
Proof. repeat split; vm_compute; reflexivity. Qed.

(** C9, counterexample on doubles.  Corpus [[boston_thrice; salem]], query
    [["boston"]], document 0: the average length is 3.5 and the idf of
    [boston] is [Math.log(2)].  The scorer that tokenizes again rounds
    [0.75 * 6 / 3.5], the scorer with the index rounds [0.75 * (6 / 3.5)];
    these are two different doubles, and the scores are 0.9446430602321377
    and 0.944643060232138.  The scores also differ when [Math.log(2)] is
    one of the two doubles next to [ln2]. *)
Lemma scorers_differ_in_the_last_bits :
  retokenizing_score ln2 = 0x1.e3a841542e479p-1%float /\
  cached_score ln2 = JS.Normal 0x1.e3a841542e47bp-1%float /\
  strict_equal (retokenizing_score ln2) (cached_score ln2) = false /\
  strict_equal (retokenizing_score (PrimFloat.next_down ln2))
    (cached_score (PrimFloat.next_down ln2)) = false /\
  strict_equal (retokenizing_score (PrimFloat.next_up ln2))
    (cached_score (PrimFloat.next_up ln2)) = false /\
  (lit_0_75 * of_nat 6 / (of_nat 7 / of_nat 2) = 0x1.4924924924925p+0 /\
   lit_0_75 * (of_nat 6 / (of_nat 7 / of_nat 2)) = 0x1.4924924924924p+0)%float.
Proof. repeat split; vm_compute; reflexivity. Qed.

End Binary64Facts.
(** ** Properties of the scheduler *)

Module PlexFacts.
Import Plex PlexSpec.
Local Open Scope Z_scope.

Section Invariants.
Context {T V : Type}.
Implicit Types (st : state T V) (infl : list (task T * promise)) (fn : T -> option V).

Lemma exec_invariant fn (P : state T V -> Prop) st :
  P st -> (forall s e, P s -> P (step fn s e)) -> forall sched, P (exec fn st sched).
Proof.
  intros H0 Hstep sched. revert st H0.
  induction sched as [|e sched IH]; intros st H0; simpl; [done|].
  apply IH, Hstep, H0.
Qed.

Lemma exec_app fn st s1 s2 : exec fn st (s1 ++ s2) = exec fn (exec fn st s1) s2.
Proof. unfold exec. apply fold_left_app. Qed.

Lemma pending_units_snoc infl t :
  pending_units (infl ++ [(t, Pending)]) = S (pending_units infl).
Proof.
  unfold pending_units. rewrite filter_app, length_app. simpl. lia.
Qed.

Lemma pending_units_settle infl k t p :
  infl !! k = Some (t, Pending) -> p <> Pending ->
  S (pending_units (<[k := (t, p)]> infl)) = pending_units infl.
Proof.
  intros Hk Hp. unfold pending_units.
  rewrite <- (take_drop_middle infl k (t, Pending)) at 2 by done.
  rewrite insert_take_drop by (eapply lookup_lt_Some; done).
  rewrite !filter_app, !length_app.
  rewrite filter_cons_False by (simpl; done).
  rewrite filter_cons_True by done. simpl. lia.
Qed.

Lemma pending_units_all_settled infl :
  Forall settled_ok infl -> pending_units infl = 0%nat.
Proof.
  unfold pending_units. induction 1 as [|[t p] infl Hu _ IH]; [done|].
  unfold settled_ok in Hu. simpl in Hu. subst p.
  rewrite filter_cons_False by (simpl; done). done.
Qed.

Lemma all_of_fulfilled infl : all_of infl = Fulfilled -> Forall settled_ok infl.
Proof.
  unfold all_of. destruct (existsb _ infl); [done|].
  destruct (forallb _ infl) eqn:Hall; [|done]. intros _.
  apply Forall_forall. intros u Hu.
  rewrite forallb_forall in Hall. specialize (Hall u).
  rewrite <- list_elem_of_In in Hall. specialize (Hall Hu).
  by apply bool_decide_eq_true in Hall.
Qed.

Lemma executePulse_counter maxc rest : forall act infl act' infl' c,
  executePulse maxc rest act infl = (act', infl', c) ->
  act = Z.of_nat (pending_units infl) ->
  act' = Z.of_nat (pending_units infl') /\
  (c = AwaitAll Fulfilled \/ c = Returned -> Forall settled_ok infl').
Proof.
  induction rest as [|t rest IH]; intros act infl act' infl' c; simpl.
  - intros [= <- <- <-] ->. split; [done|]. intros [[= H]|[=]].
    by apply all_of_fulfilled.
  - destruct (maxc <=? act).
    + intros [= <- <- <-] ->. split; [done|]. intros [[=]|[=]].
    + intros Hpulse_run ->. eapply IH; [exact Hpulse_run|].
      rewrite pending_units_snoc. lia.
Qed.

Lemma executePulse_bound maxc rest : forall act infl act' infl' c,
  executePulse maxc rest act infl = (act', infl', c) -> act <= maxc -> act' <= maxc.
Proof.
  induction rest as [|t rest IH]; intros act infl act' infl' c; simpl.
  - by intros [= <- <- <-].
  - destruct (maxc <=? act) eqn:Hle.
    + by intros [= <- <- <-].
    + intros Hpulse_run _. eapply IH; [exact Hpulse_run|]. lia.
Qed.

Lemma enter_loop_counter st :
  active (self st) = 0 -> Forall settled_ok (inflight st) -> counter_inv (enter_loop st).
Proof.
  intros Hact Hall. unfold enter_loop.
  destruct (i st <? _).
  - destruct (executePulse _ _ _ _) as [[act infl] c] eqn:Hpulse_run.
    apply executePulse_counter in Hpulse_run; [|by rewrite Hact].
    destruct Hpulse_run as [-> Hc]. by split.
  - split; simpl; [|done].
    rewrite Hact, pending_units_all_settled by done. done.
Qed.

Lemma resume_counter st : counter_inv st -> counter_inv (resume st).
Proof.
  intros Hinv. pose proof Hinv as [Hact Hall]. unfold resume.
  destruct (ctl st) as [rest [| |]|[| |]| |] eqn:Hctl; try exact Hinv.
  - destruct (executePulse _ _ _ _) as [[act infl] c] eqn:Hpulse_run.
    apply executePulse_counter in Hpulse_run; [|done].
    destruct Hpulse_run as [-> Hc]. by split.
  - split; simpl; [done|]. by intros [[=]|[=]].
  - apply enter_loop_counter; simpl.
    + rewrite Hact, pending_units_all_settled; [done|]. apply Hall. by left.
    + apply Hall. by left.
  - split; simpl; [done|]. by intros [[=]|[=]].
Qed.

Lemma not_pending_of_settled infl k t :
  Forall settled_ok infl -> infl !! k = Some (t, Pending) -> False.
Proof.
  intros Hf Hk. rewrite Forall_forall in Hf.
  specialize (Hf (t, Pending)). unfold settled_ok in Hf. simpl in Hf.
  assert (Pending = Fulfilled) as [=].
  apply Hf. eapply list_elem_of_lookup_2. exact Hk.
Qed.

Lemma settle_counter fn k st : counter_inv st -> counter_inv (settle fn k st).
Proof.
  intros Hinv. pose proof Hinv as [Hact Hall]. unfold settle.
  destruct (inflight st !! k) as [[t [| |]]|] eqn:Hk; try exact Hinv.
  assert (Hp : match fn (data t) with Some _ => Fulfilled | None => Rejected end <> Pending)
    by (by destruct (fn (data t))).
  split; simpl.
  - rewrite Hact. erewrite <- (pending_units_settle _ k t) by done. lia.
  - intros Hc. destruct (ctl st) as [rest [| |]|[| |]| |] eqn:Hctl;
      destruct Hc as [Hc|Hc]; try discriminate Hc.
    + injection Hc as Hc. by apply all_of_fulfilled.
    + exfalso. eapply not_pending_of_settled; [|exact Hk]. apply Hall. by left.
    + exfalso. eapply not_pending_of_settled; [|exact Hk]. apply Hall. by right.
Qed.

Lemma step_counter fn st e : counter_inv st -> counter_inv (step fn st e).
Proof. destruct e; simpl; [apply resume_counter | apply settle_counter]. Qed.

Lemma run_start_counter rt (dataset : list T) :
  active rt = 0 -> counter_inv (run_start (V := V) rt dataset).
Proof. intros H. unfold run_start. by apply enter_loop_counter. Qed.

Lemma run_counter rt (dataset : list T) fn sched :
  active rt = 0 -> counter_inv (run rt dataset fn sched).
Proof.
  intros H. unfold run. apply exec_invariant.
  - by apply run_start_counter.
  - intros s e. apply step_counter.
Qed.

Lemma enter_loop_bound st : bound_inv st -> bound_inv (enter_loop st).
Proof.
  unfold bound_inv, enter_loop. intros H.
  destruct (i st <? _); [|done].
  destruct (executePulse _ _ _ _) as [[act infl] c] eqn:Hpulse_run. simpl.
  eapply executePulse_bound; [exact Hpulse_run | exact H].
Qed.

Lemma step_bound fn st e : bound_inv st -> bound_inv (step fn st e).
Proof.
  intros H. destruct e as [|k]; simpl.
  - unfold resume. destruct (ctl st) as [rest [| |]|[| |]| |]; try exact H.
    + destruct (executePulse _ _ _ _) as [[act infl] c] eqn:Hpulse_run. unfold bound_inv. simpl.
      eapply executePulse_bound; [exact Hpulse_run | exact H].
    + by apply enter_loop_bound.
  - unfold settle. destruct (inflight st !! k) as [[t [| |]]|]; try exact H.
    unfold bound_inv in *. simpl. lia.
Qed.

Lemma run_bound rt (dataset : list T) fn sched :
  active rt <= maxConcurrency rt -> bound_inv (run rt dataset fn sched).
Proof.
  intros H. unfold run. apply exec_invariant.
  - unfold run_start. by apply enter_loop_bound.
  - intros s e. apply step_bound.
Qed.

Lemma race_of_not_rejected infl : Forall not_rejected infl -> race_of infl <> Rejected.
Proof.
  induction 1 as [|[t p] infl Hu _ IH]; simpl; [done|].
  unfold not_rejected in Hu. simpl in Hu. by destruct p.
Qed.

Lemma all_of_not_rejected infl : Forall not_rejected infl -> all_of infl <> Rejected.
Proof.
  intros Hf. unfold all_of.
  destruct (existsb _ infl) eqn:Hex; [|by destruct (forallb _ infl)].
  apply existsb_exists in Hex as ([t p] & Hin & Hp).
  apply bool_decide_eq_true in Hp. rewrite Forall_forall in Hf.
  apply list_elem_of_In in Hin. by apply Hf in Hin.
Qed.

Lemma healthy_race (rest : list (task T)) infl :
  Forall not_rejected infl -> healthy (AwaitRace rest (race_of infl)).
Proof.
  intros H%race_of_not_rejected. simpl. by destruct (race_of infl).
Qed.

Lemma healthy_all infl : Forall not_rejected infl -> healthy (T := T) (AwaitAll (all_of infl)).
Proof.
  intros H%all_of_not_rejected. simpl. by destruct (all_of infl).
Qed.

Lemma executePulse_healthy maxc rest : forall act infl act' infl' c,
  executePulse maxc rest act infl = (act', infl', c) ->
  Forall not_rejected infl -> Forall not_rejected infl' /\ healthy c.
Proof.
  induction rest as [|t rest IH]; intros act infl act' infl' c; simpl.
  - intros [= <- <- <-] Hf. split; [done|]. by apply healthy_all.
  - destruct (maxc <=? act).
    + intros [= <- <- <-] Hf. split; [done|]. by apply healthy_race.
    + intros Hpulse_run Hf. eapply IH; [exact Hpulse_run|].
      apply Forall_app. split; [done|]. by constructor.
Qed.

Lemma enter_loop_healthy st :
  Forall not_rejected (inflight st) -> healthy_inv (enter_loop st).
Proof.
  intros Hf. unfold enter_loop. destruct (i st <? _).
  - destruct (executePulse _ _ _ _) as [[act infl] c] eqn:Hpulse_run.
    apply executePulse_healthy in Hpulse_run; [|by constructor]. exact Hpulse_run.
  - by split.
Qed.

Lemma step_healthy fn st e :
  (forall d, is_Some (fn d)) -> healthy_inv st -> healthy_inv (step fn st e).
Proof.
  intros Hfn Hinv. pose proof Hinv as [Hf Hc]. destruct e as [|k]; simpl.
  - unfold resume. destruct (ctl st) as [rest [| |]|[| |]| |] eqn:Hctl; try done.
    + destruct (executePulse _ _ _ _) as [[act infl] c] eqn:Hpulse_run.
      apply executePulse_healthy in Hpulse_run; [|done]. exact Hpulse_run.
    + by apply enter_loop_healthy.
  - unfold settle. destruct (inflight st !! k) as [[t [| |]]|] eqn:Hk; try exact Hinv.
    destruct (Hfn (data t)) as [r ->].
    assert (Hf' : Forall not_rejected (<[k := (t, Fulfilled)]> (inflight st))).
    { apply Forall_insert; done. }
    split; simpl; [done|].
    destruct (ctl st) as [rest [| |]|[| |]| |]; try done.
    by apply healthy_all.
Qed.

Lemma run_healthy rt (dataset : list T) fn sched :
  (forall d, is_Some (fn d)) -> healthy_inv (run rt dataset fn sched).
Proof.
  intros Hfn. unfold run. apply exec_invariant.
  - unfold run_start. apply enter_loop_healthy. constructor.
  - intros s e. by apply step_healthy.
Qed.

Lemma settle_settled_below fn L j st :
  (j < L)%nat -> settled_below L j st -> settled_below L (S j) (settle fn j st).
Proof.
  intros Hj [Hlen Hlow]. unfold settle.
  destruct (inflight st !! j) as [[t p]|] eqn:Hk.
  - destruct p.
    + split; simpl; [by rewrite length_insert|].
      intros k Hk' t'. destruct (decide (k = j)) as [->|Hne].
      * rewrite list_lookup_insert_eq by lia. by destruct (fn (data t)).
      * rewrite list_lookup_insert_ne by done. apply Hlow. lia.
    + split; [done|]. intros k Hk' t'. destruct (decide (k = j)) as [->|Hne].
      * by rewrite Hk.
      * apply Hlow. lia.
    + split; [done|]. intros k Hk' t'. destruct (decide (k = j)) as [->|Hne].
      * by rewrite Hk.
      * apply Hlow. lia.
  - apply lookup_ge_None in Hk. lia.
Qed.

Lemma exec_settle_below fn L j : forall st,
  (j <= L)%nat -> settled_below L 0 st ->
  settled_below L j (exec fn st (map Settle (seq 0 j))).
Proof.
  induction j as [|j IH]; intros st Hj H0; [done|].
  rewrite seq_S, map_app, exec_app. simpl.
  apply settle_settled_below; [lia|]. apply IH; [lia|done].
Qed.

Lemma pending_units_none infl :
  (forall k t, infl !! k <> Some (t, Pending)) -> pending_units infl = 0%nat.
Proof.
  intros H. unfold pending_units.
  destruct (filter _ infl) as [|[t p] l] eqn:Hfil; [done|].
  assert (Hin : (t, p) ∈ filter (fun u : task T * promise => snd u = Pending) infl)
    by (rewrite Hfil; left).
  apply list_elem_of_filter in Hin as [Hp Hin]. simpl in Hp. subst p.
  apply list_elem_of_lookup in Hin as [k Hk]. by apply H in Hk.
Qed.

Lemma drain_counter fn st :
  counter_inv st -> active (self (exec fn st (drain st))) = 0.
Proof.
  intros Hinv. unfold drain.
  assert (Hc : counter_inv (exec fn st (map Settle (seq 0 (length (inflight st)))))).
  { apply exec_invariant; [done|]. intros s e. apply step_counter. }
  destruct Hc as [-> _].
  pose proof (exec_settle_below fn (length (inflight st)) (length (inflight st)) st) as [Hlen Hlow].
  { done. } { split; [done|]. intros k Hk. lia. }
  rewrite pending_units_none; [done|].
  intros k t Hk. apply (Hlow k) in Hk; [done|].
  apply lookup_lt_Some in Hk. lia.
Qed.

End Invariants.

Section Order.
Context {T V : Type}.
Implicit Types (st : state T V) (infl : list (task T * promise)) (fn : T -> option V).

(** What a step never changes. *)
Lemma step_static fn st e :
  tasks (step fn st e) = tasks st /\
  pulseSize (self (step fn st e)) = pulseSize (self st) /\
  maxConcurrency (self (step fn st e)) = maxConcurrency (self st).
Proof.
  destruct e as [|k]; simpl.
  - unfold resume, enter_loop. destruct (ctl st) as [rest [| |]|[| |]| |]; try done.
    + by destruct (executePulse _ _ _ _) as [[act infl] c].
    + simpl. destruct (_ <? _); [|done].
      by destruct (executePulse _ _ _ _) as [[act infl] c].
  - unfold settle. by destruct (inflight st !! k) as [[t [| |]]|].
Qed.

Lemma executePulse_shape maxc (rest : list (task T)) : forall act infl act' infl' c,
  executePulse maxc rest act infl = (act', infl', c) ->
  map fst infl' ++ waiting c = map fst infl ++ rest /\
  fulfilled_tasks infl' = fulfilled_tasks infl /\
  c <> Returned /\ c <> Thrown.
Proof.
  induction rest as [|t rest IH]; intros act infl act' infl' c; simpl.
  - intros [= <- <- <-]. by repeat split.
  - destruct (maxc <=? act).
    + intros [= <- <- <-]. by repeat split.
    + intros Hl. apply IH in Hl as (Hs & Hf & Hc). split; [|split; [|done]].
      * rewrite Hs, map_app, <- app_assoc. done.
      * rewrite Hf. unfold fulfilled_tasks. rewrite filter_app, map_app. simpl.
        by rewrite app_nil_r.
Qed.

(** [slice] between two indices in order. *)
Lemma slice_between {A : Type} (l : list A) (s e : Z) :
  0 <= s <= e -> slice l s e = drop (Z.to_nat s) (take (Z.to_nat e) l).
Proof.
  intros Hse. unfold slice, rel_index. cbv zeta.
  destruct (s <? 0) eqn:Hs; [lia|]. destruct (e <? 0) eqn:He; [lia|].
  destruct (decide (s <= Z.of_nat (length l))) as [Hle|Hgt].
  - rewrite (Z.min_l s) by done. rewrite take_drop_commute.
    f_equal. destruct (decide (e <= Z.of_nat (length l))).
    + rewrite (Z.min_l e) by done. f_equal. lia.
    + rewrite (Z.min_r e) by lia. rewrite !take_ge by lia. done.
  - rewrite (Z.min_r s), (Z.min_r e) by lia. rewrite Z.sub_diag.
    change (Z.to_nat 0) with 0%nat. rewrite take_0.
    symmetry. apply drop_ge. rewrite length_take. lia.
Qed.

Lemma upto_slice (l : list (task T)) (z p : Z) :
  0 <= z -> 0 <= p -> upto l z ++ slice l z (z + p) = upto l (z + p).
Proof.
  intros Hz Hp. rewrite slice_between by lia. unfold upto.
  rewrite <- (take_drop (Z.to_nat z) (take (Z.to_nat (z + p)) l)) at 2.
  f_equal. rewrite take_take. f_equal. lia.
Qed.

Lemma fulfilled_tasks_all infl :
  Forall settled_ok infl -> fulfilled_tasks infl = map fst infl.
Proof.
  intros H. unfold fulfilled_tasks. f_equal.
  induction H as [|u infl Hu _ IH]; [done|].
  rewrite filter_cons_True by done. by rewrite IH.
Qed.

Lemma fulfilled_tasks_settle infl k t :
  infl !! k = Some (t, Pending) ->
  fulfilled_tasks (<[k := (t, Fulfilled)]> infl) ≡ₚ t :: fulfilled_tasks infl.
Proof.
  intros Hk. unfold fulfilled_tasks.
  rewrite <- (take_drop_middle infl k (t, Pending)) at 2 by done.
  rewrite insert_take_drop by (eapply lookup_lt_Some; done).
  rewrite !filter_app, !map_app.
  rewrite filter_cons_True by done. rewrite filter_cons_False by (simpl; done).
  simpl. symmetry. apply Permutation_middle.
Qed.

Lemma enter_loop_order (f : T -> V) st :
  0 <= pulseSize (self st) -> 0 <= i st ->
  results st ≡ₚ map (entry_of f) (upto (tasks st) (i st)) ->
  order_inv f (enter_loop st).
Proof.
  intros Hp Hi Hres. unfold enter_loop. destruct (i st <? _) eqn:Hlt.
  - destruct (executePulse _ _ _ _) as [[act infl] c] eqn:Hl.
    apply executePulse_shape in Hl as (Hs & Hf & Hc1 & Hc2).
    split; [done|]. simpl in *.
    assert (Hgoal :
      upto (tasks st) (i st) ++ map fst infl ++ waiting c
        = upto (tasks st) (i st + pulseSize (self st)) /\
      results st ≡ₚ map (entry_of f) (upto (tasks st) (i st) ++ fulfilled_tasks infl)).
    { split.
      - rewrite Hs. by apply upto_slice.
      - rewrite Hf. unfold fulfilled_tasks. simpl. by rewrite app_nil_r. }
    by destruct c.
  - split; [done|]. simpl. apply Z.ltb_ge in Hlt.
    unfold upto in Hres. rewrite take_ge in Hres by lia. done.
Qed.

Lemma step_order (f : T -> V) st e :
  0 <= pulseSize (self st) ->
  counter_inv st -> order_inv f st -> order_inv f (step (fun d => Some (f d)) st e).
Proof.
  intros Hp [Hact Hall] [Hi Hord]. destruct e as [|k]; simpl.
  - unfold resume. destruct (ctl st) as [rest [| |]|[| |]| |] eqn:Hctl;
      try (split; [done|]; by rewrite ?Hctl).
    + destruct Hord as [Hs Hres].
      destruct (executePulse _ _ _ _) as [[act infl] c] eqn:Hl.
      apply executePulse_shape in Hl as (Hs' & Hf & Hc1 & Hc2).
      split; [done|]. simpl in *.
      assert (Hgoal :
        upto (tasks st) (i st) ++ map fst infl ++ waiting c
          = upto (tasks st) (i st + pulseSize (self st)) /\
        results st ≡ₚ map (entry_of f) (upto (tasks st) (i st) ++ fulfilled_tasks infl)).
      { split; [by rewrite Hs'|by rewrite Hf]. }
      by destruct c.
    + destruct Hord as [Hs Hres]. simpl in Hs. rewrite app_nil_r in Hs.
      apply enter_loop_order; simpl; [done|lia|].
      rewrite <- Hs. rewrite <- (fulfilled_tasks_all (inflight st)); [done|].
      apply Hall. by left.
  - unfold settle. destruct (inflight st !! k) as [[t [| |]]|] eqn:Hk;
      try (split; [done|]; by rewrite ?Hctl).
    split; [done|]. simpl.
    assert (Hfst : map fst (<[k := (t, Fulfilled)]> (inflight st)) = map fst (inflight st)).
    { rewrite list_fmap_insert. simpl. apply list_insert_id.
      by rewrite list_lookup_fmap, Hk. }
    assert (Hres :
      results st ≡ₚ map (entry_of f) (upto (tasks st) (i st) ++ fulfilled_tasks (inflight st)) ->
      results st ++ [Entry (id t) (f (data t))]
        ≡ₚ map (entry_of f) (upto (tasks st) (i st)
              ++ fulfilled_tasks (<[k := (t, Fulfilled)]> (inflight st)))).
    { intros Hr. rewrite fulfilled_tasks_settle by done.
      rewrite Hr, <- Permutation_middle, app_nil_r, <- Permutation_middle. done. }
    destruct (ctl st) as [rest p|p| |] eqn:Hctl.
    + destruct Hord as [Hs Hr]. apply Hres in Hr. rewrite <- Hfst in Hs.
      by destruct p.
    + destruct Hord as [Hs Hr]. apply Hres in Hr. rewrite <- Hfst in Hs.
      by destruct p.
    + exfalso. eapply not_pending_of_settled; [|exact Hk]. apply Hall. by right.
    + done.
Qed.

Lemma run_order (f : T -> V) rt (dataset : list T) sched :
  0 <= pulseSize rt -> active rt = 0 ->
  order_inv f (run rt dataset (fun d => Some (f d)) sched).
Proof.
  intros Hp Hact. unfold run.
  pose (P := fun st : state T V =>
    pulseSize (self st) = pulseSize rt /\ counter_inv st /\ order_inv f st).
  enough (HP : P (exec (fun d => Some (f d)) (run_start rt dataset) sched)) by apply HP.
  apply exec_invariant.
  - split; [|split].
    + unfold run_start, enter_loop. simpl. destruct (0 <? _); [|done].
      by destruct (executePulse _ _ _ _) as [[act infl] c].
    + by apply run_start_counter.
    + unfold run_start. by apply enter_loop_order.
  - intros s e (Hps & Hc & Ho). split; [|split].
    + destruct (step_static (fun d => Some (f d)) s e) as (_ & -> & _). done.
    + by apply step_counter.
    + apply step_order; [lia|done|done].
Qed.


Lemma length_make_tasks (dataset : list T) : forall k,
  length (make_tasks k dataset) = length dataset.
Proof. induction dataset as [|d ds IH]; intros k; simpl; [done|]. by rewrite IH. Qed.

Lemma run_tasks rt (dataset : list T) fn sched :
  tasks (run rt dataset fn sched) = make_tasks 0 dataset /\
  pulseSize (self (run rt dataset fn sched)) = pulseSize rt /\
  maxConcurrency (self (run rt dataset fn sched)) = maxConcurrency rt.
Proof.
  unfold run. apply (exec_invariant fn (fun st : state T V =>
    tasks st = make_tasks 0 dataset /\ pulseSize (self st) = pulseSize rt /\
    maxConcurrency (self st) = maxConcurrency rt)).
  - unfold run_start, enter_loop. simpl. destruct (0 <? _); [|done].
    by destruct (executePulse _ _ _ _) as [[act infl] c].
  - intros s e (<- & <- & <-). apply step_static.
Qed.

(** When [run] returns, [results] holds exactly one entry per item of the
    dataset, each with the index and the result of its item, in some
    order. *)
Lemma run_returns_every_entry_once (f : T -> V) rt (dataset : list T) sched :
  1 <= pulseSize rt -> active rt = 0 ->
  ctl (run rt dataset (fun d => Some (f d)) sched) = Returned ->
  results (run rt dataset (fun d => Some (f d)) sched)
    ≡ₚ map (entry_of f) (make_tasks 0 dataset) /\
  length (results (run rt dataset (fun d => Some (f d)) sched)) = length dataset.
Proof.
  intros Hp Hact Hret.
  destruct (run_order f rt dataset sched) as [_ Hord]; [lia|done|].
  rewrite Hret in Hord.
  destruct (run_tasks rt dataset (fun d => Some (f d)) sched) as (Ht & _).
  rewrite Ht in Hord. split; [done|].
  by rewrite Hord, length_map, length_make_tasks.
Qed.

(** *** [run] can always return *)

Lemma executePulse_latch maxc (rest : list (task T)) : forall act infl act' infl' c,
  executePulse maxc rest act infl = (act', infl', c) ->
  match c with
  | AwaitRace rest' l => rest' <> [] /\ (l = Pending -> maxc <= act')
  | AwaitAll l => l = all_of infl'
  | _ => True
  end.
Proof.
  induction rest as [|t rest IH]; intros act infl act' infl' c; simpl.
  - by intros [= <- <- <-].
  - destruct (maxc <=? act) eqn:Hle.
    + intros [= <- <- <-]. split; [done|]. intros _. lia.
    + apply IH.
Qed.

Lemma step_latch fn st e :
  counter_inv st -> healthy_inv st -> (forall d, is_Some (fn d)) ->
  latch_inv st -> latch_inv (step fn st e).
Proof.
  intros [Hact Hall] [Hnr Hh] Hfn Hl. unfold latch_inv in *. destruct e as [|k]; simpl.
  - unfold resume, enter_loop.
    destruct (ctl st) as [rest [| |]|[| |]| |] eqn:Hctl; try (by rewrite ?Hctl).
    + destruct (executePulse _ _ _ _) as [[act infl] c] eqn:Hpulse_run.
      apply executePulse_latch in Hpulse_run. by destruct c.
    + simpl. destruct (_ <? _); [|done].
      destruct (executePulse _ _ _ _) as [[act infl] c] eqn:Hpulse_run.
      apply executePulse_latch in Hpulse_run. by destruct c.
  - unfold settle. destruct (inflight st !! k) as [[t [| |]]|] eqn:Hk; try done.
    destruct (Hfn (data t)) as [r ->]. simpl.
    destruct (ctl st) as [rest [| |]|[| |]| |] eqn:Hctl; simpl in *; try done.
    + split; [tauto|done].
    + destruct Hl as [Hrest Hp]. split; [done|]. intros [=].
    + exfalso. eapply not_pending_of_settled; [|exact Hk]. apply Hall. by left.
Qed.

Lemma executePulse_length maxc (rest : list (task T)) : forall act infl act' infl' c,
  executePulse maxc rest act infl = (act', infl', c) ->
  (length infl <= length infl')%nat /\
  (rest <> [] -> act < maxc -> (length infl < length infl')%nat).
Proof.
  induction rest as [|t rest IH]; intros act infl act' infl' c; simpl.
  - intros [= <- <- <-]. split; [lia|done].
  - destruct (maxc <=? act) eqn:Hle.
    + intros [= <- <- <-]. split; [lia|]. intros _ ?. lia.
    + intros Hpulse_run. apply IH in Hpulse_run as [Hlen _].
      rewrite length_app in Hlen. simpl in Hlen. split; [lia|]. intros _ _. lia.
Qed.

Lemma pending_unit_exists infl :
  pending_units infl <> 0%nat -> exists k t, infl !! k = Some (t, Pending).
Proof.
  unfold pending_units. intros Hne.
  destruct (filter _ infl) as [|[t p] l] eqn:Hfil; [done|].
  assert (Hin : (t, p) ∈ filter (fun u : task T * promise => snd u = Pending) infl)
    by (rewrite Hfil; left).
  apply list_elem_of_filter in Hin as [Hp Hin]. simpl in Hp. subst p.
  apply list_elem_of_lookup in Hin as [k Hk]. by exists k, t.
Qed.

Lemma no_pending_all_fulfilled infl :
  pending_units infl = 0%nat -> Forall not_rejected infl -> Forall settled_ok infl.
Proof.
  intros Hz Hnr. apply Forall_forall. intros [t p] Hin.
  rewrite Forall_forall in Hnr. specialize (Hnr _ Hin).
  unfold not_rejected, settled_ok in *. simpl in *.
  destruct p; [|done|done]. exfalso.
  apply list_elem_of_lookup in Hin as [k Hk].
  unfold pending_units in Hz. apply length_zero_iff_nil in Hz.
  assert (Hin : (t, Pending) ∈ filter (fun u : task T * promise => snd u = Pending) infl).
  { apply list_elem_of_filter. split; [done|]. eapply list_elem_of_lookup_2. exact Hk. }
  rewrite Hz in Hin. by apply elem_of_nil in Hin.
Qed.

Lemma all_of_all_fulfilled infl : Forall settled_ok infl -> all_of infl = Fulfilled.
Proof.
  intros Hf. unfold all_of.
  destruct (existsb _ infl) eqn:Hex.
  - apply existsb_exists in Hex as ([t p] & Hin & Hp).
    apply bool_decide_eq_true in Hp. rewrite Forall_forall in Hf.
    apply list_elem_of_In in Hin. apply Hf in Hin. unfold settled_ok in Hin.
    simpl in *. congruence.
  - destruct (forallb _ infl) eqn:Hall; [done|].
    apply not_true_iff_false in Hall. exfalso. apply Hall.
    apply forallb_forall. intros u Hu%list_elem_of_In.
    rewrite Forall_forall in Hf. apply bool_decide_eq_true. by apply Hf.
Qed.


Lemma step_good (f : T -> V) st e :
  good f st -> good f (step (fun d => Some (f d)) st e).
Proof.
  intros (Hp & Hc & Hcnt & Hh & Hl & Ho).
  destruct (step_static (fun d => Some (f d)) st e) as (_ & Hp' & Hc').
  assert (Hfn : forall d, is_Some ((fun d => Some (f d)) d)) by (intros d; by eexists).
  unfold good. rewrite Hp', Hc'. split; [done|]. split; [done|].
  split; [by apply step_counter|]. split; [by apply step_healthy|].
  split; [by apply step_latch|]. apply step_order; [lia|done|done].
Qed.

Lemma run_start_good (f : T -> V) rt (dataset : list T) :
  1 <= pulseSize rt -> 1 <= maxConcurrency rt -> active rt = 0 ->
  good f (run_start rt dataset).
Proof.
  intros Hp Hc Hact.
  destruct (run_tasks rt dataset (fun d => Some (f d)) []) as (_ & Hp' & Hc').
  unfold run in Hp', Hc'. simpl in Hp', Hc'.
  unfold good. rewrite Hp', Hc'. split; [done|]. split; [done|].
  split; [by apply run_start_counter|].
  split; [unfold run_start; apply enter_loop_healthy; constructor|].
  split.
  - unfold latch_inv, run_start, enter_loop. simpl. destruct (0 <? _); [|done].
    destruct (executePulse _ _ _ _) as [[act infl] c] eqn:Hpulse_run.
    apply executePulse_latch in Hpulse_run. by destruct c.
  - unfold run_start. apply enter_loop_order; simpl; [lia|done|done].
Qed.

Lemma settled_le_length infl :
  (length (fulfilled_tasks infl) + pending_units infl <= length infl)%nat.
Proof.
  unfold fulfilled_tasks, pending_units. rewrite length_map.
  induction infl as [|[t p] infl IH]; [done|].
  destruct p.
  - rewrite filter_cons_False by (simpl; done). rewrite (filter_cons_True (fun u => snd u = Pending)) by done.
    simpl. lia.
  - rewrite filter_cons_True by done. rewrite (filter_cons_False (fun u => snd u = Pending)) by (simpl; done).
    simpl. lia.
  - rewrite filter_cons_False by (simpl; done). rewrite (filter_cons_False (fun u => snd u = Pending)) by (simpl; done).
    simpl. lia.
Qed.

Lemma slice_next_pulse (l : list (task T)) (z p : Z) :
  0 <= z < Z.of_nat (length l) -> 1 <= p -> slice l z (z + p) <> [].
Proof.
  intros Hz Hp. rewrite slice_between by lia. intros Hnil.
  apply (f_equal length) in Hnil. rewrite length_drop, length_take in Hnil.
  simpl in Hnil. lia.
Qed.

(** In a state that has not returned some event makes progress. *)
Lemma progress (f : T -> V) st :
  good f st -> ctl st <> Returned ->
  exists e, (work_left (step (fun d => Some (f d)) st e) < work_left st)%nat.
Proof.
  intros (Hp & Hc & [Hact Hall] & [Hnr Hh] & Hl & [Hi Hord]) Hnot.
  assert (Hshape : ctl st <> Thrown ->
    upto (tasks st) (i st) ++ map fst (inflight st) ++ waiting (ctl st)
      = upto (tasks st) (i st + pulseSize (self st)) /\
    results st ≡ₚ map (entry_of f) (upto (tasks st) (i st) ++ fulfilled_tasks (inflight st))).
  { intros Hnt. by destruct (ctl st). }
  assert (Hthrown : ctl st <> Thrown) by (intros Heq; by rewrite Heq in Hh).
  destruct (Hshape Hthrown) as [Hs Hr].
  assert (Hlen_s : (length (upto (tasks st) (i st)) + length (inflight st)
                    + length (waiting (ctl st)) <= length (tasks st))%nat).
  { apply (f_equal length) in Hs. rewrite !length_app, length_map in Hs.
    unfold upto in Hs at 2. rewrite length_take in Hs. lia. }
  assert (Hlen_r : length (results st)
                   = (length (upto (tasks st) (i st)) + length (fulfilled_tasks (inflight st)))%nat).
  { by rewrite Hr, length_map, length_app. }
  pose proof (settled_le_length (inflight st)) as Hsl.
  destruct (decide (pending_units (inflight st) = 0%nat)) as [Hz|Hnz].
  - (* no unit in flight: the controlling flow can go on *)
    exists Resume. simpl. unfold resume.
    assert (Hact0 : active (self st) = 0) by lia.
    destruct (ctl st) as [rest l|l| |] eqn:Hctl; [| |done|done].
    + unfold latch_inv in Hl. rewrite Hctl in Hl. destruct Hl as [Hrest Hlatch].
      destruct l; [specialize (Hlatch eq_refl); lia| |done].
      destruct (executePulse _ _ _ _) as [[act infl] c] eqn:Hpulse_run.
      pose proof (executePulse_shape _ _ _ _ _ _ _ Hpulse_run) as (_ & _ & Hc1 & _).
      apply executePulse_length in Hpulse_run as [_ Hgrow].
      specialize (Hgrow Hrest ltac:(lia)).
      unfold work_left. simpl. rewrite Hctl.
      assert (length rest <> 0%nat) by (by destruct rest).
      simpl in Hlen_s. destruct c; try done; lia.
    + unfold latch_inv in Hl. rewrite Hctl in Hl.
      assert (Hfull : Forall settled_ok (inflight st)) by (by apply no_pending_all_fulfilled).
      rewrite (all_of_all_fulfilled _ Hfull) in Hl. subst l.
      unfold enter_loop. simpl.
      destruct (_ <? _) eqn:Hlt.
      * apply Z.ltb_lt in Hlt.
        destruct (executePulse _ _ _ _) as [[act infl] c] eqn:Hpulse_run.
        pose proof (executePulse_shape _ _ _ _ _ _ _ Hpulse_run) as (_ & _ & Hc1 & _).
        apply executePulse_length in Hpulse_run as [_ Hgrow].
        assert (Hpulse : slice (tasks st) (i st + pulseSize (self st))
                           (i st + pulseSize (self st) + pulseSize (self st)) <> [])
          by (apply slice_next_pulse; lia).
        specialize (Hgrow Hpulse ltac:(lia)).
        simpl in Hgrow. unfold work_left. simpl. rewrite Hctl.
        simpl in Hs. rewrite app_nil_r in Hs.
        apply (f_equal length) in Hs. rewrite length_app, length_map in Hs.
        assert (Hup : length (upto (tasks st) (i st + pulseSize (self st)))
                      = Z.to_nat (i st + pulseSize (self st))).
        { unfold upto. rewrite length_take. lia. }
        destruct c; try done; lia.
      * unfold work_left. simpl. rewrite Hctl. lia.
  - (* a unit in flight completes *)
    destruct (pending_unit_exists _ Hnz) as (k & t & Hk).
    exists (Settle k). simpl. unfold settle. rewrite Hk.
    unfold work_left. simpl. rewrite length_app, length_insert. simpl.
    destruct (ctl st) as [rest l|l| |] eqn:Hctl; [| |done|done].
    + destruct l; lia.
    + destruct l; lia.
Qed.

Lemma exec_can_return (f : T -> V) (m : nat) : forall st,
  good f st -> (work_left st <= m)%nat ->
  exists sched, ctl (exec (fun d => Some (f d)) st sched) = Returned.
Proof.
  induction m as [|m IH]; intros st Hgood Hm.
  - exists []. simpl. unfold work_left in Hm. destruct (ctl st); [lia|lia|done|lia].
  - assert (Hdec : ctl st = Returned \/ ctl st <> Returned)
      by (destruct (ctl st); by (left + right)).
    destruct Hdec as [Hret|Hnot]; [by exists []|].
    destruct (progress f st Hgood Hnot) as [e He].
    destruct (IH (step (fun d => Some (f d)) st e)) as [sched Hsched].
    { by apply step_good. } { lia. }
    exists (e :: sched). exact Hsched.
Qed.

(** With a valid configuration and a per-item function that never fails,
    some schedule lets [run] return. *)
Lemma run_can_return (f : T -> V) rt (dataset : list T) :
  1 <= pulseSize rt -> 1 <= maxConcurrency rt -> active rt = 0 ->
  exists sched, ctl (run rt dataset (fun d => Some (f d)) sched) = Returned.
Proof.
  intros Hp Hc Hact. unfold run.
  apply (exec_can_return f (work_left (run_start (V := V) rt dataset))); [|lia].
  by apply run_start_good.
Qed.


(** *** Configurations that are not positive *)

Lemma executePulse_not_over maxc (rest : list (task T)) act infl :
  snd (executePulse maxc rest act infl) <> Returned /\ snd (executePulse maxc rest act infl) <> Thrown.
Proof.
  destruct (executePulse maxc rest act infl) as [[act' infl'] c] eqn:Hpulse_run.
  apply executePulse_shape in Hpulse_run as (_ & _ & Hc). exact Hc.
Qed.

(** With [pulseSize <= 0] and a dataset that is not empty the loop index
    never passes the end: [run] does not return. *)
Lemma nonpositive_pulseSize_never_returns rt (dataset : list T) fn sched :
  pulseSize rt <= 0 -> dataset <> [] ->
  ctl (run rt dataset fn sched) <> Returned.
Proof.
  intros Hp Hne. unfold run.
  enough (H : (fun st : state T V =>
            pulseSize (self st) <= 0 /\ tasks st <> [] /\ i st <= 0 /\ ctl st <> Returned)
          (exec fn (run_start rt dataset) sched)) by apply H.
  assert (Henter : forall st : state T V,
            pulseSize (self st) <= 0 -> tasks st <> [] -> i st <= 0 ->
            pulseSize (self (enter_loop st)) <= 0 /\ tasks (enter_loop st) <> [] /\
            i (enter_loop st) <= 0 /\ ctl (enter_loop st) <> Returned).
  { intros st H1 H2 H3. unfold enter_loop.
    assert (Hlt : (i st <? Z.of_nat (length (tasks st))) = true).
    { apply Z.ltb_lt. destruct (tasks st); [done|simpl; lia]. }
    rewrite Hlt.
    pose proof (executePulse_not_over (maxConcurrency (self st))
                  (slice (tasks st) (i st) (i st + pulseSize (self st)))
                  (active (self st)) []) as [Hc _].
    destruct (executePulse _ _ _ _) as [[act infl] c]. done. }
  apply exec_invariant.
  - unfold run_start. apply Henter; simpl; [done| |done]. by destruct dataset.
  - intros st e (H1 & H2 & H3 & H4). destruct e as [|k]; simpl.
    + unfold resume. destruct (ctl st) as [rest [| |]|[| |]| |] eqn:Hctl;
        try (by rewrite ?Hctl).
      * pose proof (executePulse_not_over (maxConcurrency (self st)) rest
                      (active (self st)) (inflight st)) as [Hc _].
        destruct (executePulse _ _ _ _) as [[act infl] c]. done.
      * apply Henter; simpl; [done|done|lia].
    + unfold settle. destruct (inflight st !! k) as [[t [| |]]|]; try done.
      simpl. repeat split; try done. by destruct (ctl st) as [rest [| |]|[| |]| |].
Qed.

(** With [maxConcurrency <= 0] and a dataset that is not empty no unit
    ever starts and nothing ever changes: [run] awaits for ever a race
    among no promises. *)
Lemma nonpositive_maxConcurrency_starts_nothing rt (dataset : list T) fn sched :
  maxConcurrency rt <= 0 -> 1 <= pulseSize rt -> active rt = 0 -> dataset <> [] ->
  run rt dataset fn sched = run_start rt dataset /\
  results (run_start (V := V) rt dataset) = [] /\
  inflight (run_start (V := V) rt dataset) = [] /\
  (exists rest, ctl (run_start (V := V) rt dataset) = AwaitRace rest Pending).
Proof.
  intros Hc Hp Hact Hne.
  assert (Hstart : results (run_start (V := V) rt dataset) = [] /\
                   inflight (run_start (V := V) rt dataset) = [] /\
                   (exists rest, ctl (run_start (V := V) rt dataset) = AwaitRace rest Pending)).
  { unfold run_start, enter_loop. simpl.
    assert (Hlt : (0 <? Z.of_nat (length (make_tasks 0 dataset))) = true).
    { apply Z.ltb_lt. rewrite length_make_tasks. destruct dataset; [done|simpl; lia]. }
    rewrite Hlt.
    pose proof (slice_next_pulse (make_tasks 0 dataset) 0 (pulseSize rt)) as Hpulse.
    destruct (slice _ 0 (0 + pulseSize rt)) as [|t pulse].
    - exfalso. apply Hpulse; [|done|done]. apply Z.ltb_lt in Hlt. lia.
    - simpl. assert (Hle : (maxConcurrency rt <=? active rt) = true) by (apply Z.leb_le; lia).
      rewrite Hle. simpl. eauto. }
  split; [|done]. destruct Hstart as (_ & Hinfl & rest & Hctl).
  unfold run. induction sched as [|e sched IH] using rev_ind; [done|].
  rewrite exec_app, IH. destruct e as [|k]; simpl.
  - unfold resume. by rewrite Hctl.
  - unfold settle. by rewrite Hinfl.
Qed.

End Order.

Section Sequential.
Context {T V : Type}.
Implicit Types (st : state T V) (infl : list (task T * promise)) (fn : T -> option V).

Lemma pending_last_snoc infl t :
  pending_units infl = 0%nat -> pending_last (infl ++ [(t, Pending)]).
Proof.
  intros Hz k t' Hk. rewrite length_app. simpl.
  destruct (decide (k < length infl)%nat) as [Hlt|Hge].
  - rewrite lookup_app_l in Hk by done. exfalso.
    pose proof (pending_units_none infl) as Hnone.
    assert (Hin : (t', Pending) ∈ filter (fun u : task T * promise => snd u = Pending) infl).
    { apply list_elem_of_filter. split; [done|]. eapply list_elem_of_lookup_2. exact Hk. }
    unfold pending_units in Hz. apply length_zero_iff_nil in Hz. rewrite Hz in Hin.
    by apply elem_of_nil in Hin.
  - apply lookup_lt_Some in Hk. rewrite length_app in Hk. simpl in Hk. lia.
Qed.

Lemma executePulse_sequential (rest : list (task T)) : forall act infl act' infl' c,
  executePulse 1 rest act infl = (act', infl', c) ->
  act = Z.of_nat (pending_units infl) -> pending_last infl -> pending_last infl'.
Proof.
  induction rest as [|t rest IH]; intros act infl act' infl' c; simpl.
  - by intros [= <- <- <-].
  - destruct (1 <=? act) eqn:Hle.
    + by intros [= <- <- <-].
    + intros Hpulse_run Hact Hlast. apply Z.leb_gt in Hle.
      eapply IH; [exact Hpulse_run| |].
      * rewrite pending_units_snoc. lia.
      * apply pending_last_snoc. lia.
Qed.

Lemma fulfilled_tasks_settle_last infl k t :
  infl !! k = Some (t, Pending) -> S k = length infl ->
  fulfilled_tasks (<[k := (t, Fulfilled)]> infl) = fulfilled_tasks infl ++ [t].
Proof.
  intros Hk Hlast. unfold fulfilled_tasks.
  rewrite <- (take_drop_middle infl k (t, Pending)) at 2 by done.
  rewrite insert_take_drop by (eapply lookup_lt_Some; done).
  rewrite (drop_ge infl (S k)) by lia.
  rewrite !filter_app, !map_app.
  rewrite filter_cons_True by done. rewrite filter_cons_False by (simpl; done).
  simpl. by rewrite app_nil_r.
Qed.

Lemma pending_last_settle infl k t p :
  infl !! k = Some (t, Pending) -> p <> Pending -> pending_last infl ->
  pending_last (<[k := (t, p)]> infl).
Proof.
  intros Hk Hp Hlast k' t' Hk'. rewrite length_insert.
  destruct (decide (k' = k)) as [->|Hne].
  - rewrite list_lookup_insert_eq in Hk' by (eapply lookup_lt_Some; done). congruence.
  - rewrite list_lookup_insert_ne in Hk' by done. by apply (Hlast k' t').
Qed.

Lemma pending_last_nil : pending_last (T := T) [].
Proof. intros k t Hk. by rewrite lookup_nil in Hk. Qed.

Lemma enter_loop_sequential (f : T -> V) st :
  maxConcurrency (self st) = 1 -> active (self st) = 0 ->
  0 <= pulseSize (self st) -> 0 <= i st ->
  results st = map (entry_of f) (upto (tasks st) (i st)) ->
  sequential_inv f (enter_loop st).
Proof.
  intros Hc Hact Hp Hi Hres. unfold enter_loop, sequential_inv. destruct (i st <? _) eqn:Hlt.
  - rewrite Hc. destruct (executePulse _ _ _ _) as [[act infl] c] eqn:Hpulse_run.
    pose proof (executePulse_shape _ _ _ _ _ _ _ Hpulse_run) as (Hs & Hf & Hc1 & Hc2).
    apply executePulse_sequential in Hpulse_run; [|by rewrite Hact|apply pending_last_nil].
    simpl in *.
    assert (Hgoal :
      upto (tasks st) (i st) ++ map fst infl ++ waiting c
        = upto (tasks st) (i st + pulseSize (self st)) /\
      results st = map (entry_of f) (upto (tasks st) (i st) ++ fulfilled_tasks infl) /\
      pending_last infl).
    { split; [|split; [|done]].
      - rewrite Hs. by apply upto_slice.
      - rewrite Hf. unfold fulfilled_tasks. simpl. by rewrite app_nil_r. }
    by destruct c.
  - simpl. apply Z.ltb_ge in Hlt.
    unfold upto in Hres. rewrite take_ge in Hres by lia. done.
Qed.

Lemma step_sequential (f : T -> V) st e :
  maxConcurrency (self st) = 1 -> 0 <= pulseSize (self st) -> 0 <= i st ->
  counter_inv st -> sequential_inv f st ->
  sequential_inv f (step (fun d => Some (f d)) st e).
Proof.
  intros Hc Hp Hi [Hact Hall] Hseq. unfold sequential_inv in Hseq.
  destruct e as [|k]; simpl.
  - unfold resume. destruct (ctl st) as [rest [| |]|[| |]| |] eqn:Hctl;
      try (unfold sequential_inv; by rewrite ?Hctl).
    + destruct Hseq as (Hs & Hres & Hlast). rewrite Hc.
      destruct (executePulse _ _ _ _) as [[act infl] c] eqn:Hpulse_run.
      pose proof (executePulse_shape _ _ _ _ _ _ _ Hpulse_run) as (Hs' & Hf & Hc1 & Hc2).
      apply executePulse_sequential in Hpulse_run; [|done|done].
      unfold sequential_inv. simpl in *.
      assert (Hgoal :
        upto (tasks st) (i st) ++ map fst infl ++ waiting c
          = upto (tasks st) (i st + pulseSize (self st)) /\
        results st = map (entry_of f) (upto (tasks st) (i st) ++ fulfilled_tasks infl) /\
        pending_last infl).
      { split; [by rewrite Hs'|]. split; [by rewrite Hf|done]. }
      by destruct c.
    + destruct Hseq as (Hs & Hres & Hlast). simpl in Hs. rewrite app_nil_r in Hs.
      assert (Hfull : Forall settled_ok (inflight st)) by (apply Hall; by left).
      apply enter_loop_sequential; simpl; [done| |done|lia|].
      * rewrite Hact, pending_units_all_settled; done.
      * rewrite <- Hs. by rewrite <- (fulfilled_tasks_all (inflight st)).
  - unfold settle. destruct (inflight st !! k) as [[t [| |]]|] eqn:Hk;
      try (unfold sequential_inv; by rewrite ?Hctl).
    assert (Hfst : map fst (<[k := (t, Fulfilled)]> (inflight st)) = map fst (inflight st)).
    { rewrite list_fmap_insert. simpl. apply list_insert_id.
      by rewrite list_lookup_fmap, Hk. }
    unfold sequential_inv. simpl.
    destruct (ctl st) as [rest p|p| |] eqn:Hctl.
    + destruct Hseq as (Hs & Hres & Hlast).
      assert (Hgoal :
        upto (tasks st) (i st) ++ map fst (<[k := (t, Fulfilled)]> (inflight st)) ++ rest
          = upto (tasks st) (i st + pulseSize (self st)) /\
        results st ++ [Entry (id t) (f (data t))]
          = map (entry_of f) (upto (tasks st) (i st)
               ++ fulfilled_tasks (<[k := (t, Fulfilled)]> (inflight st))) /\
        pending_last (<[k := (t, Fulfilled)]> (inflight st))).
      { split; [by rewrite Hfst|]. split; [|by apply pending_last_settle].
        rewrite (fulfilled_tasks_settle_last _ k t Hk (Hlast k t Hk)).
        rewrite Hres, app_assoc, (map_app _ _ [t]). done. }
      by destruct p.
    + destruct Hseq as (Hs & Hres & Hlast).
      assert (Hgoal :
        upto (tasks st) (i st) ++ map fst (<[k := (t, Fulfilled)]> (inflight st)) ++ []
          = upto (tasks st) (i st + pulseSize (self st)) /\
        results st ++ [Entry (id t) (f (data t))]
          = map (entry_of f) (upto (tasks st) (i st)
               ++ fulfilled_tasks (<[k := (t, Fulfilled)]> (inflight st))) /\
        pending_last (<[k := (t, Fulfilled)]> (inflight st))).
      { split; [by rewrite Hfst|]. split; [|by apply pending_last_settle].
        rewrite (fulfilled_tasks_settle_last _ k t Hk (Hlast k t Hk)).
        rewrite Hres, app_assoc, (map_app _ _ [t]). done. }
      by destruct p.
    + exfalso. eapply not_pending_of_settled; [|exact Hk]. apply Hall. by right.
    + done.
Qed.

(** With [maxConcurrency = 1] units complete in the order they start: when
    [run] returns, [results] is in index order, under every schedule. *)
Lemma run_one_at_a_time_returns_index_order (f : T -> V) rt (dataset : list T) sched :
  maxConcurrency rt = 1 -> 1 <= pulseSize rt -> active rt = 0 ->
  ctl (run rt dataset (fun d => Some (f d)) sched) = Returned ->
  results (run rt dataset (fun d => Some (f d)) sched)
    = map (entry_of f) (make_tasks 0 dataset).
Proof.
  intros Hc Hp Hact Hret.
  pose (P := fun st : state T V =>
    maxConcurrency (self st) = 1 /\ pulseSize (self st) = pulseSize rt /\
    tasks st = make_tasks 0 dataset /\ 0 <= i st /\
    counter_inv st /\ sequential_inv f st).
  assert (HP : P (run rt dataset (fun d => Some (f d)) sched)).
  { unfold run. apply exec_invariant.
    - destruct (run_tasks rt dataset (fun d => Some (f d)) []) as (Ht & Hp' & Hc').
      unfold run in Ht, Hp', Hc'. simpl in Ht, Hp', Hc'.
      split; [congruence|]. split; [done|]. split; [done|].
      split; [|split; [by apply run_start_counter|]].
      + destruct (run_order f rt dataset []) as [Hi _]; [lia|done|]. exact Hi.
      + unfold run_start. apply enter_loop_sequential; simpl; try done. lia.
    - intros s e (Hc' & Hp' & Ht & Hi & Hcnt & Hseq).
      destruct (step_static (fun d => Some (f d)) s e) as (Ht' & Hp'' & Hc'').
      split; [congruence|]. split; [congruence|]. split; [congruence|].
      split; [|split; [by apply step_counter|apply step_sequential; try done; lia]].
      destruct e as [|k]; simpl.
      + unfold resume, enter_loop. destruct (ctl s) as [rest [| |]|[| |]| |]; try done.
        * by destruct (executePulse _ _ _ _) as [[act infl] c].
        * simpl. destruct (_ <? _); [|simpl; lia].
          destruct (executePulse _ _ _ _) as [[act infl] c]. simpl. lia.
      + unfold settle. by destruct (inflight s !! k) as [[t [| |]]|]. }
  destruct HP as (_ & _ & Ht & _ & _ & Hseq).
  unfold sequential_inv in Hseq. rewrite Hret, Ht in Hseq. exact Hseq.
Qed.

End Sequential.

(** The scenario of the specification: [pulseSize = 2], [maxConcurrency = 1],
    dataset [[1, 2, 3, 4, 5]] and [x => x * 2].  Some schedule lets [run]
    return, and whenever it returns the results are [[2, 4, 6, 8, 10]]. *)
Lemma scenario_two_by_one :
  (exists sched,
     ctl (run (new_PlexRuntime (Config (Some 2) (Some 1))) [1; 2; 3; 4; 5]
              (fun x => Some (x * 2)) sched) = Returned) /\
  (forall sched,
     ctl (run (new_PlexRuntime (Config (Some 2) (Some 1))) [1; 2; 3; 4; 5]
              (fun x => Some (x * 2)) sched) = Returned ->
     map result (results (run (new_PlexRuntime (Config (Some 2) (Some 1))) [1; 2; 3; 4; 5]
              (fun x => Some (x * 2)) sched)) = [2; 4; 6; 8; 10]).
Proof.
  split.
  - apply (run_can_return (fun x => x * 2)); simpl; lia.
  - intros sched Hret.
    rewrite (run_one_at_a_time_returns_index_order (fun x => x * 2)); simpl; done || lia.
Qed.

(** *** The claims about [PlexRuntime] *)

(** C1 (code bug).  [run] pushes each entry when its unit completes, so the
    returned array is in completion order: with the default configuration,
    dataset [[1, 2]] and [x => x * 2], when the second unit completes before
    the first, [run] returns [[{id: 1, result: 4}, {id: 0, result: 2}]],
    which is not [[fn(dataset[0]), fn(dataset[1])]] in index order. *)
Theorem run_returns_completion_order :
  let st := run (new_PlexRuntime (Config None None)) [1; 2] twice
                [Settle 1; Settle 0; Resume] in
  ctl st = Returned /\
  results st = [Entry 1%nat 4; Entry 0%nat 2] /\
  map result (results st) <> [2; 4].
Proof. vm_compute. split; [done|]. split; [done|]. discriminate. Qed.

(** C3, as the claim states it, fails: a scheduler built with
    [pulseSize = 0] or with [maxConcurrency = 0] raises nothing.  On the
    dataset [[5]] the first one awaits the barrier of an empty pulse, the
    second one awaits a race among no promises. *)
Lemma nonpositive_config_not_rejected :
  new_PlexRuntime (Config (Some 0) (Some 0)) = Runtime 0 0 0 /\
  ctl (run_start (V := Z) (new_PlexRuntime (Config (Some 0) None)) [5])
    = AwaitAll Fulfilled /\
  ctl (run_start (V := Z) (new_PlexRuntime (Config None (Some 0))) [5])
    = AwaitRace [Task 0%nat 5] Pending.
Proof. by vm_compute. Qed.

(** C3, amended.  The constructor validates nothing: it stores the two
    options as given (32 and 8 when absent) and sets the counter to 0; and
    for every configuration, non-positive values included, a run whose
    per-item function never fails never raises an error. *)
Theorem no_configuration_is_rejected {T V : Type} (c : config) (dataset : list T)
    (f : T -> V) (sched : list event) :
  new_PlexRuntime c
    = Runtime (default 32 (cfg_pulseSize c)) (default 8 (cfg_maxConcurrency c)) 0 /\
  ctl (run (new_PlexRuntime c) dataset (fun d => Some (f d)) sched) <> Thrown.
Proof.
  split; [done|].
  destruct (run_healthy (new_PlexRuntime c) dataset (fun d => Some (f d)) sched) as [_ H].
  { intros d. by eexists. }
  intros Heq. by rewrite Heq in H.
Qed.

(** C4.  With [maxConcurrency = c >= 1], in every state a run can reach,
    under every schedule and for every per-item function, the counter
    [active] is the number of units in flight and does not exceed [c]. *)
Theorem active_never_exceeds_maxConcurrency {T V : Type} (cfg : config)
    (dataset : list T) (fn : T -> option V) (sched : list event) :
  1 <= maxConcurrency (new_PlexRuntime cfg) ->
  let st := run (new_PlexRuntime cfg) dataset fn sched in
  active (self st) = Z.of_nat (pending_units (inflight st)) /\
  active (self st) <= maxConcurrency (new_PlexRuntime cfg).
Proof.
  intros Hc st. split.
  - apply (run_counter (new_PlexRuntime cfg)). done.
  - assert (Hm : forall s : state T V, maxConcurrency (self s) = maxConcurrency (new_PlexRuntime cfg) ->
                 bound_inv s -> active (self s) <= maxConcurrency (new_PlexRuntime cfg)).
    { intros s Hs Hb. unfold bound_inv in Hb. lia. }
    apply Hm; [|apply run_bound; simpl in *; lia].
    unfold st, run. apply exec_invariant.
    + unfold run_start, enter_loop. simpl. destruct (0 <? _); [|done].
      by destruct (executePulse _ _ _ _) as [[act infl] c'].
    + intros s e <-. destruct e as [|k]; simpl.
      * unfold resume, enter_loop. destruct (ctl s) as [rest [| |]|[| |]| |]; try done.
        -- by destruct (executePulse _ _ _ _) as [[act infl] c'].
        -- simpl. destruct (_ <? _); [|done].
           by destruct (executePulse _ _ _ _) as [[act infl] c'].
      * unfold settle. by destruct (inflight s !! k) as [[t [| |]]|].
Qed.

Lemma active_never_exceeds_maxConcurrency_witness :
  let st := run (new_PlexRuntime (Config (Some 2) (Some 1))) [1; 2; 3; 4; 5] twice
                [Settle 0; Resume; Settle 1] in
  active (self st) = Z.of_nat (pending_units (inflight st)) /\ active (self st) <= 1.
Proof.
  apply (active_never_exceeds_maxConcurrency (Config (Some 2) (Some 1))).
  simpl. lia.
Defined.

(** C10, as the claim states it, fails on the failure path: with the
    default configuration, dataset [[1, 2]] and a per-item function that
    fails for 1, the rejection of the first unit escapes from [run] through
    [Promise.all] while the second unit is still in flight: [run] has
    terminated and the counter is 1. *)
Lemma counter_not_zero_after_failure :
  ctl (run (new_PlexRuntime (Config None None)) [1; 2]
           (fun x => if x =? 1 then None else Some x) [Settle 0; Resume]) = Thrown /\
  active (self (run (new_PlexRuntime (Config None None)) [1; 2]
           (fun x => if x =? 1 then None else Some x) [Settle 0; Resume])) = 1.
Proof. by vm_compute. Qed.

(** C10, amended.  The counter is decremented once per started unit, on
    fulfilment and on rejection alike: in every reachable state it equals
    the number of units in flight.  So it is 0 at every pulse barrier and
    when [run] has returned; when [run] has terminated by a propagated
    failure it counts the sibling units still in flight, and it is 0 once
    they have all settled. *)
Theorem counter_counts_units_in_flight {T V : Type} (cfg : config)
    (dataset : list T) (fn : T -> option V) (sched : list event) :
  let st := run (new_PlexRuntime cfg) dataset fn sched in
  active (self st) = Z.of_nat (pending_units (inflight st)) /\
  (ctl st = AwaitAll Fulfilled -> active (self st) = 0) /\
  (ctl st = Returned -> active (self st) = 0) /\
  active (self (exec fn st (drain st))) = 0.
Proof.
  intros st.
  assert (Hinv : counter_inv st) by (by apply (run_counter (new_PlexRuntime cfg))).
  pose proof Hinv as [Hact Hall].
  split; [done|]. split; [|split].
  - intros Hc. rewrite Hact, pending_units_all_settled; [done|]. apply Hall. by left.
  - intros Hc. rewrite Hact, pending_units_all_settled; [done|]. apply Hall. by right.
  - by apply drain_counter.
Qed.

End PlexFacts.

(** ** Splitting and lower case *)

Module TextFacts.
Import JS Sparse.
Local Open Scope string_scope.

Lemma split_from_split_on s : forall prev, split_from prev s = Vector.split_on is_space prev s.
Proof.
  induction s as [|c s IH]; intros prev; simpl; [done|].
  rewrite !IH. done.
Qed.

Section Split.
Variable sep : ascii -> bool.

Lemma split_on_prev s :
  Vector.split_on sep false s = Vector.split_on sep true s \/
  Vector.split_on sep false s = EmptyString :: Vector.split_on sep true s.
Proof. destruct s as [|c s]; simpl; [by left|]. destruct (sep c); [by right|by left]. Qed.

Lemma words_prev s :
  List.filter nonempty (Vector.split_on sep true s)
  = List.filter nonempty (Vector.split_on sep false s).
Proof. by destruct (split_on_prev s) as [->| ->]. Qed.

Lemma split_on_app c s2 : sep c = true -> forall s1 prev,
  exists L,
    Vector.split_on sep prev (s1 ++ String c s2) = (L ++ Vector.split_on sep true s2)%list /\
    (L = Vector.split_on sep prev s1 \/ (L ++ [EmptyString])%list = Vector.split_on sep prev s1) /\
    (prev = false -> L <> []).
Proof.
  intros Hc. induction s1 as [|a s1 IH]; intros prev.
  - simpl. rewrite Hc. destruct prev.
    + exists []. split; [done|]. split; [by right|done].
    + exists [EmptyString]. split; [done|]. split; [by left|done].
  - change (String a s1 ++ String c s2) with (String a (s1 ++ String c s2)).
    cbn [Vector.split_on]. destruct (sep a) eqn:Ha.
    + destruct (IH true) as (L & -> & HL & _). destruct prev.
      * exists L. split; [done|]. split; [done|done].
      * exists (EmptyString :: L). split; [done|]. split; [|done].
        destruct HL as [->|<-]; [by left|by right].
    + destruct (IH false) as (L & -> & HL & Hne).
      destruct L as [|p ps]; [by destruct Hne|].
      exists (String a p :: ps). split; [done|]. split; [|done].
      destruct HL as [<-|<-]; [by left|by right].
Qed.

Lemma filter_nonempty_snoc (L : list string) :
  List.filter nonempty (L ++ [EmptyString])%list = List.filter nonempty L.
Proof. rewrite List.filter_app. simpl. apply app_nil_r. Qed.

(** The words on both sides of a separator. *)
Lemma words_app c s1 s2 : sep c = true ->
  List.filter nonempty (Vector.split_on sep false (s1 ++ String c s2))
  = (List.filter nonempty (Vector.split_on sep false s1)
     ++ List.filter nonempty (Vector.split_on sep false s2))%list.
Proof.
  intros Hc. destruct (split_on_app c s2 Hc s1 false) as (L & -> & HL & _).
  rewrite List.filter_app, words_prev. f_equal.
  destruct HL as [->|<-]; [done|]. by rewrite filter_nonempty_snoc.
Qed.

Lemma split_on_chars (P : ascii -> Prop) s : forall prev,
  Forall P (String.list_ascii_of_string s) ->
  Forall (fun piece => Forall (fun c => P c /\ sep c = false) (String.list_ascii_of_string piece))
         (Vector.split_on sep prev s).
Proof.
  induction s as [|a s IH]; intros prev Hs; simpl.
  - repeat constructor.
  - simpl in Hs. apply Forall_cons in Hs as [Ha Hs]. destruct (sep a) eqn:Hsep.
    + destruct prev; [by apply IH|]. constructor; [constructor|by apply IH].
    + specialize (IH false Hs). destruct (Vector.split_on sep false s) as [|p ps].
      * repeat constructor; done.
      * apply Forall_cons in IH as [Hp Hps]. constructor; [|done].
        simpl. constructor; [done|done].
Qed.

Lemma split_on_word w : forall prev,
  w <> EmptyString -> Forall (fun c => sep c = false) (String.list_ascii_of_string w) ->
  Vector.split_on sep prev w = [w].
Proof.
  induction w as [|a w IH]; intros prev Hne Hw; [done|].
  simpl in Hw. apply Forall_cons in Hw as [Ha Hw]. simpl. rewrite Ha.
  destruct w as [|a' w']; [done|]. by rewrite IH.
Qed.

End Split.

Lemma lower_idem c : lower (lower c) = lower c.
Proof. destruct c as [[] [] [] [] [] [] [] []]; reflexivity. Qed.

Lemma toLowerCase_chars s : Forall (fun c => lower c = c) (String.list_ascii_of_string (toLowerCase s)).
Proof. induction s as [|c s IH]; simpl; constructor; [apply lower_idem|done]. Qed.

Lemma toLowerCase_fixed s :
  Forall (fun c => lower c = c) (String.list_ascii_of_string s) -> toLowerCase s = s.
Proof.
  induction s as [|c s IH]; simpl; [done|]. intros H. apply Forall_cons in H as [Hc Hs].
  by rewrite Hc, IH.
Qed.

Lemma toLowerCase_app s1 s2 : toLowerCase (s1 ++ s2) = toLowerCase s1 ++ toLowerCase s2.
Proof. induction s1 as [|c s1 IH]; simpl; [done|]. by rewrite IH. Qed.

Lemma toLowerCase_idem s : toLowerCase (toLowerCase s) = toLowerCase s.
Proof. apply toLowerCase_fixed, toLowerCase_chars. Qed.

Lemma chars_app (P : ascii -> Prop) s1 s2 :
  Forall P (String.list_ascii_of_string s1) -> Forall P (String.list_ascii_of_string s2) ->
  Forall P (String.list_ascii_of_string (s1 ++ s2)).
Proof.
  induction s1 as [|c s1 IH]; simpl; [done|]. intros H1 H2.
  apply Forall_cons in H1 as [Hc H1]. constructor; [done|by apply IH].
Qed.

Lemma filter_bool_decide {A : Type} (P : A -> Prop) `{!forall x, Decision (P x)}
    (f : A -> bool) (l : list A) :
  (forall x, x ∈ l -> f x = true <-> P x) -> List.filter f l = filter P l.
Proof.
  induction l as [|x l IH]; intros Hall; [done|]. simpl.
  assert (Hx : f x = true <-> P x) by (apply Hall; left).
  assert (Hl : List.filter f l = filter P l).
  { apply IH. intros y Hy. apply Hall. by right. }
  destruct (f x) eqn:Hf.
  - rewrite filter_cons_True by (by apply Hx). by rewrite Hl.
  - rewrite filter_cons_False; [done|]. intros HP. apply Hx in HP. congruence.
Qed.

End TextFacts.

(** ** The sparse engine: tokens, index and demo loops *)

Module SparseProps.
Import JS Sparse SparseSpec JSFacts SparseFacts TextFacts TokenSpec.
Local Open Scope string_scope.

(** *** The tokens of a record *)

Lemma joined_fields item :
  String.concat " " (map (field_text item) fields)
  = field_text item "city" ++ String " " (field_text item "state" ++
      String " " (field_text item "zip" ++ String " " (field_text item "_id"))).
Proof. reflexivity. Qed.

Lemma joined_fields_lower item :
  Forall (fun c => lower c = c)
    (String.list_ascii_of_string (String.concat " " (map (field_text item) fields))).
Proof.
  rewrite joined_fields. unfold field_text.
  repeat (apply chars_app; [apply toLowerCase_chars|]; constructor; [done|]).
  apply toLowerCase_chars.
Qed.


(** *** [init] once more *)

Lemma cached_scan_fold_from ds : forall df total freqs i,
  (i <= length freqs)%nat ->
  fold_left Cached.scan_doc ds (df, total, freqs, i) =
  (fst (fold_left scan ds (df, total)), snd (fold_left scan ds (df, total)),
   (take i freqs ++ map (fun d => count_tokens (tokenize d)) ds
      ++ drop (i + length ds) freqs)%list,
   (i + length ds)%nat).
Proof.
  induction ds as [|d ds IH]; intros df total freqs i Hi; simpl.
  - rewrite !Nat.add_0_r. by rewrite take_drop.
  - unfold Cached.array_set. destruct (decide (i < length freqs)%nat) as [Hlt|Hge].
    + rewrite IH by (rewrite length_insert; lia).
      f_equal; [|lia]. f_equal.
      rewrite (take_S_r _ i (count_tokens (tokenize d)))
        by (apply list_lookup_insert_eq; done).
      rewrite take_insert_ge by lia. rewrite drop_insert_lt by lia.
      rewrite <- app_assoc. simpl. do 4 f_equal. lia.
    + assert (i = length freqs) by lia. subst i.
      rewrite IH by (rewrite length_app; simpl; lia).
      f_equal; [|lia]. f_equal.
      rewrite take_ge by (rewrite length_app; simpl; lia).
      rewrite (take_ge freqs) by lia.
      rewrite drop_ge by (rewrite length_app; simpl; lia).
      rewrite (drop_ge freqs) by lia.
      rewrite <- app_assoc. done.
Qed.

Lemma cached_init_docFreqs e ds :
  Cached.docFreqs (Cached.init e ds)
  = (map (fun d => count_tokens (tokenize d)) ds ++ drop (length ds) (Cached.docFreqs e))%list.
Proof.
  unfold Cached.init. rewrite cached_scan_fold_from by lia.
  destruct (fold_left scan ds (∅, 0%nat)) as [df total]. simpl. done.
Qed.

(** *** Scores by index out of range *)

Lemma cached_score_none e query i :
  Cached.docFreqs e !! i = None ->
  Cached.score e query i
  = match query with
    | [] => Normal (Fin 0)
    | _ :: _ => Throw TypeError
    end.
Proof.
  intros Hi. unfold Cached.score. rewrite Hi. destruct query as [|q query]; [done|].
  cbn [fold_left mbind completion_bind].
  induction query as [|a query IH]; [done|]. cbn [fold_left mbind completion_bind]. apply IH.
Qed.

Lemma cached_score_some e query i freq :
  Cached.docFreqs e !! i = Some freq -> exists s, Cached.score e query i = Normal s.
Proof.
  intros Hi. unfold Cached.score. rewrite Hi. generalize (Fin 0).
  induction query as [|q query IH]; intros a; cbn [fold_left]; [by eexists|].
  cbn [mbind completion_bind]. destruct (_ =? _)%nat; apply IH.
Qed.

(** *** The demo loops *)

Lemma demo_score_positive ds tokens d :
  d ∈ ds ->
  gtb (Demo.score (Demo.init Demo.SparseEngine ds) tokens d) (Fin 0) = true
  <-> matches tokens d.
Proof.
  intros Hd. rewrite demo_score_real by done. rewrite gtb_fin_0.
  by apply score_real_pos_iff.
Qed.


(** *** Further properties of the sparse engine *)

(** X1.  Every token that [tokenize] returns is not empty, contains no
    white space and is in lower case. *)
Theorem tokenize_returns_clean_tokens (item : doc) : Forall clean_token (tokenize item).
Proof.
  unfold tokenize, split_ws. rewrite split_from_split_on.
  pose proof (split_on_chars is_space (fun c => lower c = c) _ false
                (joined_fields_lower item)) as H.
  induction H as [|p ps Hp Hps IH]; simpl; [constructor|].
  destruct p as [|c q]; simpl; [done|]. constructor; [|done].
  split; [done|]. split.
  - apply toLowerCase_fixed. eapply Forall_impl; [exact Hp|]. by intros x [? _].
  - eapply Forall_impl; [exact Hp|]. by intros x [_ ?].
Qed.

(** X2.  The tokens of a record are the tokens of its fields [city],
    [state], [zip] and [_id], in this order: joining the fields with a space
    never merges or splits a token, and a missing field gives no token. *)
Theorem tokenize_concatenates_the_fields (item : doc) :
  tokenize item = (field_tokens item "city" ++ field_tokens item "state"
                   ++ field_tokens item "zip" ++ field_tokens item "_id")%list /\
  (forall f, item !! f = None -> field_tokens item f = []).
Proof.
  split.
  - unfold tokenize, field_tokens, split_ws. rewrite joined_fields, !split_from_split_on.
    by rewrite !words_app.
  - intros f H. unfold field_tokens, field_text. by rewrite H.
Qed.

(** X3.  The tokenizer of the benchmark, which filters with
    [t => t.length > 0], returns the tokens of the tokenizer of the demos,
    which filters with [Boolean]. *)
Theorem itemToTokens_returns_the_tokens_of_tokenize (item : doc) :
  itemToTokens item = tokenize item.
Proof.
  unfold itemToTokens, tokenize.
  induction (split_ws _) as [|t l IH]; [done|]. simpl. rewrite IH. by destruct t.
Qed.

(** X4.  After [init] on a new engine, in the three variants, a term has
    an idf exactly when it occurs in the corpus, and the idf is computed
    from the number of documents that contain the term, however often it
    occurs in each of them. *)
Theorem init_computes_idf_from_document_frequency (ds : list doc) (t : string) :
  Demo.idf (Demo.init Demo.SparseEngine ds) !! t
    = (if decide (doc_freq t ds = 0%nat) then None
       else Some (idf_value (length ds) (doc_freq t ds))) /\
  Cached.idf (Cached.init Cached.new_SparseEngine ds) !! t
    = (if decide (doc_freq t ds = 0%nat) then None
       else Some (idf_value (length ds) (doc_freq t ds))) /\
  Bench.idf (Bench.init Bench.SparseEngine ds) !! t
    = (if decide (doc_freq t ds = 0%nat) then None
       else Some (idf_value (length ds) (doc_freq t ds))).
Proof.
  destruct (demo_init_fields Demo.SparseEngine ds) as (_ & _ & _ & _ & Hd).
  destruct (cached_init_fields ds) as (_ & Hc & _).
  destruct (bench_init_fields ds) as (_ & _ & _ & _ & Hb).
  rewrite Hc, Hb, Hd. simpl. rewrite lookup_empty. done.
Qed.

(** X5.  [init] never clears [idf]: on an engine that was built before,
    the terms of the new corpus get their new idf and every other term
    keeps the idf it had. *)
Theorem init_keeps_the_idf_of_absent_terms (e : Demo.engine) (ds : list doc) (t : string) :
  Demo.idf (Demo.init e ds) !! t
  = if decide (doc_freq t ds = 0%nat) then Demo.idf e !! t
    else Some (idf_value (length ds) (doc_freq t ds)).
Proof. by destruct (demo_init_fields e ds) as (_ & _ & _ & _ & H). Qed.

(** X6.  [init] of the engine with an index writes [docFreqs[i]] for every
    document: the map gives for each token the number of its occurrences,
    and its values add up to the length of the document.  It never shortens
    [docFreqs]: the entries from index [docs.length] on are left as they
    were. *)
Theorem init_fills_docFreqs (e : Cached.engine) (ds : list doc) :
  (forall i d, ds !! i = Some d ->
     exists freq, Cached.docFreqs (Cached.init e ds) !! i = Some freq /\
       (forall t, count_at freq t = occ t (tokenize d)) /\
       Cached.sum_values freq = length (tokenize d)) /\
  (forall i, (length ds <= i)%nat ->
     Cached.docFreqs (Cached.init e ds) !! i = Cached.docFreqs e !! i).
Proof.
  rewrite cached_init_docFreqs. split.
  - intros i d Hi. exists (count_tokens (tokenize d)). split; [|split].
    + rewrite lookup_app_l by (rewrite length_map; eapply lookup_lt_Some; done).
      by rewrite list_lookup_fmap, Hi.
    + intros t. apply count_at_count_tokens.
    + apply sum_values_count_tokens.
  - intros i Hi. rewrite lookup_app_r by (rewrite length_map; done).
    rewrite length_map, lookup_drop. f_equal. lia.
Qed.

(** X7.  The loops of the two demos that score every record of the corpus
    and keep the scores above 0: they keep exactly the records that contain
    a query token, in the order of the data. *)
Theorem demo_loops_keep_the_matching_records (ds : list doc) (tokens : list string) :
  Cli.sparseHits (Demo.init Demo.SparseEngine ds) tokens ds = filter (matches tokens) ds /\
  length (Cli.scored (Demo.init Demo.SparseEngine ds) tokens ds)
    = length (filter (matches tokens) ds).
Proof.
  split.
  - unfold Cli.sparseHits. apply filter_bool_decide.
    intros d Hd. by apply demo_score_positive.
  - unfold Cli.scored.
    assert (H : forall l, (forall d, d ∈ l -> d ∈ ds) ->
      length (List.filter (fun s => gtb s (Fin 0))
                (map (Demo.score (Demo.init Demo.SparseEngine ds) tokens) l))
      = length (filter (matches tokens) l)).
    { induction l as [|d l IH]; intros Hl; [done|]. cbn [map List.filter].
      assert (Hd : d ∈ ds) by (apply Hl; left).
      assert (IHl : length (List.filter (fun s => gtb s (Fin 0))
                (map (Demo.score (Demo.init Demo.SparseEngine ds) tokens) l))
              = length (filter (matches tokens) l)).
      { apply IH. intros d' Hd'. apply Hl. by right. }
      destruct (gtb (Demo.score (Demo.init Demo.SparseEngine ds) tokens d) (Fin 0)) eqn:Hg.
      - rewrite filter_cons_True by (by apply (demo_score_positive ds tokens d Hd)).
        cbn [length]. by rewrite IHl.
      - rewrite filter_cons_False; [done|]. intros Hm.
        apply (demo_score_positive ds tokens d Hd) in Hm. congruence. }
    by apply H.
Qed.

(** X8.  Scoring by index out of range.  [score(query, i)] of the engine
    with an index throws a [TypeError] exactly when [docFreqs] has no entry
    [i] and the query is not empty (for an empty query it returns 0);
    [scoreDoc(tokens, i)] of the benchmark throws exactly when [docs] has no
    entry [i]. *)
Theorem scoring_out_of_range_throws (e : Cached.engine) (b : Bench.engine)
    (query : list string) (i : nat) :
  (Cached.score e query i = Throw TypeError
     <-> Cached.docFreqs e !! i = None /\ query <> []) /\
  (Cached.docFreqs e !! i = None -> Cached.score e [] i = Normal (Fin 0)) /\
  (Bench.scoreDoc b query i = Throw TypeError <-> Bench.docs b !! i = None).
Proof.
  split; [|split].
  - destruct (Cached.docFreqs e !! i) as [freq|] eqn:Hi.
    + destruct (cached_score_some e query i freq Hi) as [s ->]. split; [done|]. by intros [? _].
    + rewrite (cached_score_none e query i Hi). destruct query; split; try done.
      by intros [_ ?].
  - intros Hi. by rewrite (cached_score_none e [] i Hi).
  - unfold Bench.scoreDoc. by destruct (Bench.docs b !! i).
Qed.

(** X9.  On a corpus with at least one token, [scoreDoc] of the benchmark
    returns for the document of index [i] the score that [score] of the
    demos returns for that document: the two evaluate the same sum, and a
    token that is absent from the document adds [idf * 0]. *)
Theorem scoreDoc_returns_the_score_of_the_demo (ds : list doc) (query : list string)
    (i : nat) (d : doc) :
  (1 <= total_len ds)%nat -> ds !! i = Some d ->
  Bench.scoreDoc (Bench.init Bench.SparseEngine ds) query i
  = Normal (Demo.score (Demo.init Demo.SparseEngine ds) query d).
Proof.
  intros Htot Hi. rewrite (bench_scoreDoc_real ds i d) by done.
  rewrite demo_score_real; [done|]. eapply list_elem_of_lookup_2. exact Hi.
Qed.

(** On doubles the two scorers round alike: for instance on the corpus
    [[boston_thrice; salem]], where the scorer with an index differs. *)
Lemma scoreDoc_and_score_on_doubles :
  Binary64.Bench.scoreDoc
    (Binary64.Bench.init (Binary64Spec.log_at_2 Binary64Spec.ln2) Binary64.Bench.SparseEngine
       [Binary64Spec.boston_thrice; Binary64Spec.salem])
    ["boston"; "salem"; "ma"] 0
  = Normal
      (Binary64.Demo.score
         (Binary64.Demo.init (Binary64Spec.log_at_2 Binary64Spec.ln2) Binary64.Demo.SparseEngine
            [Binary64Spec.boston_thrice; Binary64Spec.salem])
         ["boston"; "salem"; "ma"] Binary64Spec.boston_thrice).
Proof. vm_compute. reflexivity. Qed.

Lemma scoreDoc_returns_the_score_of_the_demo_witness :
  Bench.scoreDoc (Bench.init Bench.SparseEngine [city "Boston"; city "Salem"]) ["boston"] 1
  = Normal (Demo.score (Demo.init Demo.SparseEngine [city "Boston"; city "Salem"])
              ["boston"] (city "Salem")).
Proof.
  apply (scoreDoc_returns_the_score_of_the_demo [city "Boston"; city "Salem"] ["boston"] 1
           (city "Salem")).
  - vm_compute. lia.
  - reflexivity.
Defined.

(** *** [init] twice *)

Lemma cached_init_fields_from e ds :
  Cached.docs (Cached.init e ds) = ds /\
  Cached.avgLen (Cached.init e ds) = (of_nat (total_len ds) / of_nat (length ds))%js /\
  Cached.k1 (Cached.init e ds) = Cached.k1 e /\
  Cached.b (Cached.init e ds) = Cached.b e /\
  forall t, Cached.idf (Cached.init e ds) !! t =
            if decide (doc_freq t ds = 0%nat) then Cached.idf e !! t
            else Some (idf_value (length ds) (doc_freq t ds)).
Proof.
  unfold Cached.init. rewrite cached_scan_fold_from by lia.
  pose proof (scan_all ds) as (Hpos & Hcnt & Htot).
  destruct (fold_left scan ds (∅, 0%nat)) as [df total]. simpl in *. subst total.
  repeat split. intros t. rewrite fill_idf_lookup.
  rewrite (positive_counts_lookup df t Hpos), Hcnt.
  by destruct (decide (doc_freq t ds = 0%nat)).
Qed.

(** X30.  [init] is idempotent: initialising an engine again with the same
    documents leaves it as it is (the idf of a term is overwritten, not
    accumulated), for the engine with static fields and for the engine with
    an index. *)
Theorem init_twice_is_init_once (e : Demo.engine) (c : Cached.engine) (ds : list doc) :
  Demo.init (Demo.init e ds) ds = Demo.init e ds /\
  Cached.init (Cached.init c ds) ds = Cached.init c ds.
Proof.
  split.
  - destruct (demo_init_fields e ds) as (Hd & Ha & Hk & Hb & Hi).
    destruct (demo_init_fields (Demo.init e ds) ds) as (Hd' & Ha' & Hk' & Hb' & Hi').
    assert (Hidf : Demo.idf (Demo.init (Demo.init e ds) ds) = Demo.idf (Demo.init e ds)).
    { apply map_eq. intros t. rewrite Hi', Hi.
      by destruct (decide (doc_freq t ds = 0%nat)). }
    destruct (Demo.init (Demo.init e ds) ds), (Demo.init e ds). simpl in *. congruence.
  - destruct (cached_init_fields_from c ds) as (Hd & Ha & Hk & Hb & Hi).
    destruct (cached_init_fields_from (Cached.init c ds) ds) as (Hd' & Ha' & Hk' & Hb' & Hi').
    assert (Hidf : Cached.idf (Cached.init (Cached.init c ds) ds)
                   = Cached.idf (Cached.init c ds)).
    { apply map_eq. intros t. rewrite Hi', Hi.
      by destruct (decide (doc_freq t ds = 0%nat)). }
    assert (Hf : Cached.docFreqs (Cached.init (Cached.init c ds) ds)
                 = Cached.docFreqs (Cached.init c ds)).
    { rewrite (cached_init_docFreqs (Cached.init c ds)), (cached_init_docFreqs c).
      f_equal. rewrite drop_app_length'; [done|]. by rewrite length_map. }
    destruct (Cached.init (Cached.init c ds) ds), (Cached.init c ds). simpl in *. congruence.
Qed.

(** X29.  [search] of the engine with an index returns, in the same order,
    the records that the filter loop of the earlier demo keeps for the
    lower-cased query. *)
Theorem search_finds_the_records_of_the_filter_loop (ds : list doc) (query : list string) :
  exists hits,
    Cached.search (Cached.init Cached.new_SparseEngine ds) query = Normal hits /\
    map Cached.hit_doc hits
    = Cli.sparseHits (Demo.init Demo.SparseEngine ds) (map toLowerCase query) ds.
Proof.
  exists (omap (hit_of ds (map toLowerCase query)) ds). split; [apply search_spec|].
  rewrite hits_docs by done. symmetry. unfold Cli.sparseHits.
  apply filter_bool_decide. intros d Hd. by apply demo_score_positive.
Qed.

End SparseProps.

(** ** VectorEngine *)

Module VectorFacts.
Import JS Sparse SparseSpec JSFacts SparseFacts Vector VectorSpec TextFacts.
Local Open Scope string_scope.

(** *** [tokenize] *)

Lemma vector_tokenize_words text : Forall word (tokenize text).
Proof.
  unfold tokenize.
  pose proof (split_on_chars (fun c => negb (is_word c)) (fun c => lower c = c)
                (toLowerCase text) false (toLowerCase_chars text)) as H.
  induction H as [|p ps Hp Hps IH]; simpl; [constructor|].
  destruct p as [|c q]; simpl; [done|]. constructor; [|done].
  split; [done|]. eapply Forall_impl; [exact Hp|]. simpl. intros x [H1 H2].
  split; [|done]. by destruct (is_word x).
Qed.

Lemma tokenize_word w : word w -> tokenize w = [w].
Proof.
  intros [Hne Hw]. unfold tokenize.
  rewrite toLowerCase_fixed by (eapply Forall_impl; [exact Hw|]; by intros c [_ ?]).
  rewrite split_on_word; [|done|].
  - simpl. by destruct w.
  - eapply Forall_impl; [exact Hw|]. intros c [-> _]. done.
Qed.

Lemma tokenize_join ws : Forall word ws -> tokenize (String.concat " " ws) = ws.
Proof.
  induction ws as [|w ws IH]; intros Hws; [done|].
  apply Forall_cons in Hws as [Hw Hws]. destruct ws as [|w' ws].
  - simpl. by apply tokenize_word.
  - change (String.concat " " (w :: w' :: ws))
      with (w ++ String " " (String.concat " " (w' :: ws))).
    unfold tokenize. rewrite toLowerCase_app.
    change (toLowerCase (String " " (String.concat " " (w' :: ws))))
      with (String " " (toLowerCase (String.concat " " (w' :: ws)))).
    rewrite words_app by done.
    fold (tokenize w). fold (tokenize (String.concat " " (w' :: ws))).
    rewrite tokenize_word by done. rewrite IH by done. done.
Qed.


(** *** [vectorize] *)

Lemma bump_lookup m t u :
  bump m t !! u = if decide (u = t) then next t (m !! t) else m !! u.
Proof.
  unfold bump, get, next, stored. destruct (m !! t) as [[n|k]|] eqn:Hm.
  - destruct (decide (u = t)) as [->|Hne]; [by rewrite lookup_insert_eq|].
    by rewrite lookup_insert_ne.
  - destruct (decide (u = t)) as [->|Hne]; [by rewrite lookup_insert_eq|].
    by rewrite lookup_insert_ne.
  - destruct (inherited t); [destruct (String.eqb t "__proto__")|].
    + by destruct (decide (u = t)) as [->|Hne].
    + destruct (decide (u = t)) as [->|Hne]; [by rewrite lookup_insert_eq|].
      by rewrite lookup_insert_ne.
    + destruct (decide (u = t)) as [->|Hne]; [by rewrite lookup_insert_eq|].
      by rewrite lookup_insert_ne.
Qed.

Lemma fold_bump_lookup l : forall m u,
  fold_left bump l m !! u = Nat.iter (occ u l) (next u) (m !! u).
Proof.
  induction l as [|t l IH]; intros m u; [done|].
  cbn [fold_left]. rewrite IH, bump_lookup, occ_cons.
  destruct (decide (u = t)) as [->|Hne].
  - rewrite decide_True by done. change (1 + occ t l)%nat with (S (occ t l)).
    by rewrite Nat.iter_succ_r.
  - rewrite decide_False by done. done.
Qed.

Lemma iter_next t n : Nat.iter (S n) (next t) None = stored t (S n).
Proof.
  induction n as [|n IH]; [reflexivity|].
  rewrite Nat.iter_succ, IH. unfold next, stored.
  destruct (inherited t); [destruct (String.eqb t "__proto__")|]; done.
Qed.

Lemma vectorize_lookup text t :
  vectorize text !! t =
  match occ t (tokenize text) with
  | O => None
  | S n => stored t (S n)
  end.
Proof.
  unfold vectorize. rewrite fold_bump_lookup, lookup_empty.
  destruct (occ t (tokenize text)) as [|n]; [done|]. apply iter_next.
Qed.

Lemma word_inherited t :
  word t -> inherited t = true -> t = "constructor" \/ t = "__proto__".
Proof.
  intros [_ Hw] Hin. unfold inherited in Hin. apply bool_decide_eq_true in Hin.
  unfold prototype_names in Hin.
  repeat (apply elem_of_cons in Hin as [->|Hin]); try (by left); try (by right);
    try (exfalso; revert Hw; apply (proj1 (bool_decide_eq_false _)); vm_compute; reflexivity).
  by apply elem_of_nil in Hin.
Qed.

Lemma vectorize_counts_only text :
  "constructor" ∉ tokenize text -> counts_only (vectorize text).
Proof.
  intros Hc k v Hk. rewrite vectorize_lookup in Hk.
  destruct (occ k (tokenize text)) as [|n] eqn:Ho; [done|].
  assert (Hin : k ∈ tokenize text) by (apply occ_pos; lia).
  assert (Hw : word k).
  { pose proof (vector_tokenize_words text) as H. rewrite Forall_forall in H. by apply H. }
  unfold stored in Hk. destruct (inherited k) eqn:Hinh.
  - destruct (word_inherited k Hw Hinh) as [->| ->]; [done|]. done.
  - injection Hk as <-. done.
Qed.

Lemma vectorize_ordinary_counts text : ordinary_counts (vectorize text).
Proof.
  intros k v Hk Hinh. rewrite vectorize_lookup in Hk.
  destruct (occ k (tokenize text)) as [|n] eqn:Ho; [done|].
  unfold stored in Hk. rewrite Hinh in Hk. by injection Hk as <-.
Qed.


(** *** [cosine] *)

Local Open Scope R_scope.

Lemma wsum_insert g o i v :
  o !! i = None -> wsum g (<[i:=v]> o) = (wsum g o + count_val v * g i)%nat.
Proof.
  intros Hi. unfold wsum. rewrite map_fold_insert_L; [done| |done].
  intros. lia.
Qed.

Lemma norm2_insert o i v :
  o !! i = None -> norm2 (<[i:=v]> o) = (norm2 o + count_val v * count_val v)%nat.
Proof.
  intros Hi. unfold norm2. rewrite map_fold_insert_L; [done| |done].
  intros. lia.
Qed.

Lemma count_of_insert o i v k :
  count_of (<[i:=v]> o) k = if decide (k = i) then count_val v else count_of o k.
Proof.
  unfold count_of. destruct (decide (k = i)) as [->|Hne].
  - by rewrite lookup_insert_eq.
  - by rewrite lookup_insert_ne.
Qed.

Lemma wsum_ext g h o :
  (forall k v, o !! k = Some v -> g k = h k) -> wsum g o = wsum h o.
Proof.
  induction o as [|i v o Hi IH] using map_ind; intros Hgh; [done|].
  rewrite !wsum_insert by done. rewrite IH.
  - rewrite (Hgh i v); [done|]. by rewrite lookup_insert_eq.
  - intros k w Hk. apply (Hgh k w). rewrite lookup_insert_ne; [done|]. congruence.
Qed.

Lemma wsum_plus g h o : wsum (fun k => (g k + h k)%nat) o = (wsum g o + wsum h o)%nat.
Proof.
  induction o as [|i v o Hi IH] using map_ind; [done|].
  rewrite !wsum_insert by done. rewrite IH. lia.
Qed.

Lemma wsum_single i c o :
  wsum (fun k => if decide (k = i) then c else 0%nat) o = (count_of o i * c)%nat.
Proof.
  induction o as [|j v o Hj IH] using map_ind; [done|].
  rewrite wsum_insert by done. rewrite IH, count_of_insert.
  destruct (decide (i = j)) as [->|Hne].
  - rewrite decide_True by done. unfold count_of. rewrite Hj. lia.
  - rewrite decide_False by congruence. lia.
Qed.

Lemma wsum_zero g o : wsum g o = 0%nat <-> forall k, (count_of o k * g k = 0)%nat.
Proof.
  induction o as [|i v o Hi IH] using map_ind.
  - split; [|done]. intros _ k. unfold count_of. by rewrite lookup_empty.
  - rewrite wsum_insert by done. split.
    + intros H k. rewrite count_of_insert. destruct (decide (k = i)) as [->|Hne]; [lia|].
      apply IH. lia.
    + intros H. assert (H1 : wsum g o = 0%nat).
      { apply IH. intros k. specialize (H k). rewrite count_of_insert in H.
        destruct (decide (k = i)) as [->|Hne]; [|done]. unfold count_of. by rewrite Hi. }
      specialize (H i). rewrite count_of_insert, decide_True in H by done. lia.
Qed.

Lemma dot_comm a b : dot a b = dot b a.
Proof.
  unfold dot. induction a as [|i v a Hi IH] using map_ind.
  - symmetry. apply wsum_zero. intros k. unfold count_of at 2. rewrite lookup_empty. lia.
  - rewrite wsum_insert by done. rewrite IH.
    rewrite (wsum_ext (count_of (<[i:=v]> a))
               (fun k => (count_of a k + (if decide (k = i) then count_val v else 0))%nat)).
    + rewrite wsum_plus, wsum_single. lia.
    + intros k w _. rewrite count_of_insert. destruct (decide (k = i)) as [->|Hne]; [|lia].
      unfold count_of. rewrite Hi. lia.
Qed.

Lemma dot_zero a b : dot a b = 0%nat <-> ~ share_a_key a b.
Proof.
  unfold dot. rewrite wsum_zero. split.
  - intros H (k & Ha & Hb). specialize (H k). nia.
  - intros H k. destruct (count_of a k) as [|n] eqn:Ha; [done|].
    destruct (count_of b k) as [|m] eqn:Hb; [lia|].
    exfalso. apply H. exists k. lia.
Qed.

Lemma add_swap (y c1 c2 : jsnum) : (y + c2 + c1 = y + c1 + c2)%js.
Proof. destruct y, c1, c2; simpl; try done. f_equal. ring. Qed.

Lemma counts_only_insert o i v :
  o !! i = None -> counts_only (<[i:=v]> o) ->
  inherited i = false /\ (exists n, v = Count n) /\ counts_only o.
Proof.
  intros Hi H. apply map_Forall_insert in H as [[H1 H2] H3]; [|done].
  split; [done|]. split; [|done]. destruct v; [by eexists|done].
Qed.

Lemma get_ordinary b k :
  ordinary_counts b -> inherited k = false ->
  get b k = Own (Count (count_of b k)) \/ (get b k = Undefined /\ count_of b k = 0%nat).
Proof.
  intros Hb Hk. unfold get, count_of. destruct (b !! k) as [v|] eqn:Hv.
  - left. specialize (Hb k v Hv Hk). by destruct v.
  - right. by rewrite Hk.
Qed.

Lemma visit_a_count b k n d m :
  ordinary_counts b -> inherited k = false ->
  visit_a b k (Count n) (Fin (INR d), Fin (INR m))
  = (Fin (INR (d + n * count_of b k)), Fin (INR (m + n * n))).
Proof.
  intros Hb Hk. unfold visit_a. cbn [fst snd to_number].
  destruct (get_ordinary b k Hb Hk) as [->|[-> ->]].
  - cbn [truthy_looked to_number]. unfold of_nat. cbn [mul add].
    destruct (count_of b k) as [|c]; cbn [Nat.eqb negb].
    + f_equal; f_equal; [f_equal; lia|]. rewrite plus_INR, mult_INR. done.
    + f_equal; f_equal; rewrite plus_INR, mult_INR; done.
  - cbn [truthy_looked]. unfold of_nat. cbn [mul add].
    f_equal; f_equal; [f_equal; lia|]. rewrite plus_INR, mult_INR. done.
Qed.

Lemma visit_a_fold a b :
  counts_only a -> ordinary_counts b ->
  map_fold (visit_a b) (Fin 0, Fin 0) a = (Fin (INR (dot a b)), Fin (INR (norm2 a))).
Proof.
  intros Ha Hb. revert Ha. unfold dot.
  apply (map_fold_weak_ind (fun r m => counts_only m ->
    r = (Fin (INR (wsum (count_of b) m)), Fin (INR (norm2 m))))).
  - done.
  - intros i v m r Hi IH Hm.
    apply counts_only_insert in Hm as (Hinh & [n ->] & Hm); [|done].
    rewrite (IH Hm), visit_a_count by done.
    by rewrite wsum_insert, norm2_insert.
Qed.

Lemma visit_b_fold b :
  counts_only b -> map_fold visit_b (Fin 0) b = Fin (INR (norm2 b)).
Proof.
  apply (map_fold_weak_ind (fun r m => counts_only m -> r = Fin (INR (norm2 m)))).
  - done.
  - intros i v m r Hi IH Hm.
    apply counts_only_insert in Hm as (Hinh & [n ->] & Hm); [|done].
    rewrite (IH Hm), norm2_insert by done. unfold visit_b, of_nat. cbn [to_number mul add].
    unfold of_nat. cbn [mul add]. by rewrite plus_INR, mult_INR.
Qed.

Lemma visit_b_fold_text b k n :
  b !! k = Some (FunctionText n) -> map_fold visit_b (Fin 0) b = NaN.
Proof.
  intros Hk. rewrite <- (insert_delete_id b k (FunctionText n)) by done.
  rewrite map_fold_insert_L.
  - unfold visit_b at 1. cbn [to_number mul]. by destruct (map_fold _ _ _).
  - intros. unfold visit_b. apply add_swap.
  - apply lookup_delete_eq.
Qed.

Lemma Math_sqrt_nat n : Math_sqrt (Fin (INR n)) = Fin (R_sqrt.sqrt (INR n)).
Proof.
  unfold Math_sqrt. destruct n as [|n].
  - by rewrite sgn_zero.
  - rewrite sgn_pos; [done|]. apply lt_0_INR. lia.
Qed.

Lemma denominator_pos x y : 0 < denominator x y.
Proof.
  unfold denominator. destruct (decide (x = 0%nat \/ y = 0%nat)); [lra|].
  apply Rmult_lt_0_compat; apply sqrt_lt_R0, lt_0_INR; lia.
Qed.

Lemma denominator_comm x y : denominator x y = denominator y x.
Proof.
  unfold denominator. destruct (decide (x = 0%nat \/ y = 0%nat)) as [H|H].
  - rewrite decide_True by tauto. done.
  - rewrite decide_False by tauto. apply Rmult_comm.
Qed.

Lemma magnitude_guard x y :
  or_else (Math_sqrt (Fin (INR x)) * Math_sqrt (Fin (INR y)))%js (Fin 1)
  = Fin (denominator x y).
Proof.
  rewrite !Math_sqrt_nat. cbn [mul]. unfold denominator.
  destruct (decide (x = 0%nat \/ y = 0%nat)) as [H|H].
  - apply or_else_zero. destruct H as [-> | ->]; simpl; rewrite sqrt_0; ring.
  - apply or_else_pos. apply Rmult_lt_0_compat; apply sqrt_lt_R0, lt_0_INR; lia.
Qed.

Lemma counts_only_ordinary o : counts_only o -> ordinary_counts o.
Proof. intros H k v Hk _. by destruct (H k v Hk). Qed.

Lemma cosine_eval a b :
  counts_only a -> ordinary_counts b ->
  cosine a b = (Fin (INR (dot a b)) / or_else (Math_sqrt (Fin (INR (norm2 a)))
                 * Math_sqrt (map_fold visit_b (Fin 0) b)) (Fin 1))%js.
Proof. intros Ha Hb. unfold cosine. by rewrite visit_a_fold. Qed.

Lemma cosine_counts a b :
  counts_only a -> counts_only b ->
  cosine a b = Fin (INR (dot a b) / denominator (norm2 a) (norm2 b)).
Proof.
  intros Ha Hb. rewrite cosine_eval by (done || by apply counts_only_ordinary).
  rewrite visit_b_fold, magnitude_guard by done.
  apply div_fin. pose proof (denominator_pos (norm2 a) (norm2 b)). lra.
Qed.


(** *** The ranking of the [search] command *)

Lemma score_all_ids qv : forall vectors i,
  Forall counts_only vectors -> counts_only qv ->
  Forall (fun y => (i <= Bench.ranked_id y)%nat) (score_all qv i vectors) /\
  Forall finite_score (score_all qv i vectors).
Proof.
  induction vectors as [|v vectors IH]; intros i Hv Hq; simpl; [done|].
  apply Forall_cons in Hv as [Hv Hvs].
  destruct (IH (S i) Hvs Hq) as [Hid Hfin]. split.
  - constructor; [simpl; lia|]. eapply Forall_impl; [exact Hid|]. intros y Hy. simpl in Hy. lia.
  - constructor; [|done]. unfold finite_score. simpl. by rewrite cosine_counts.
Qed.

Lemma sort_score_all_sorted qv : forall vectors i,
  Forall counts_only vectors -> counts_only qv ->
  StronglySorted ranks_before (sort Bench.by_score (score_all qv i vectors)).
Proof.
  induction vectors as [|v vectors IH]; intros i Hv Hq; cbn [score_all sort]; [constructor|].
  pose proof Hv as Hv'. apply Forall_cons in Hv' as [Hv1 Hvs].
  destruct (score_all_ids qv vectors (S i) Hvs Hq) as [Hid Hfin].
  apply sort_insert_sorted.
  - unfold finite_score. simpl. by rewrite cosine_counts.
  - by rewrite sort_perm.
  - rewrite sort_perm. eapply Forall_impl; [exact Hid|]. intros y Hy. simpl in *. lia.
  - by apply IH.
Qed.

(** *** Further properties of VectorEngine *)

(** X10.  Every token that [VectorEngine.tokenize] returns is not empty
    and made of lower-case letters, digits and underscores. *)
Theorem vector_tokenize_returns_words (text : string) : Forall word (tokenize text).
Proof. apply vector_tokenize_words. Qed.

(** X11.  Joining the tokens of a text with spaces and tokenizing again
    gives the same tokens, hence the same vector. *)
Theorem tokenize_of_the_joined_tokens (text : string) :
  tokenize (String.concat " " (tokenize text)) = tokenize text /\
  vectorize (String.concat " " (tokenize text)) = vectorize text.
Proof.
  assert (H : tokenize (String.concat " " (tokenize text)) = tokenize text)
    by apply tokenize_join, vector_tokenize_words.
  split; [done|]. unfold vectorize. by rewrite H.
Qed.

(** X12.  [vectorize] counts the tokens: for a token [t] that is not a
    property name of [Object.prototype], the vector has the key [t] exactly
    when [t] occurs in the text, with the number of its occurrences. *)
Theorem vectorize_counts_the_tokens (text t : string) :
  inherited t = false ->
  vectorize text !! t
  = if decide (occ t (tokenize text) = 0%nat) then None
    else Some (Count (occ t (tokenize text))).
Proof.
  intros Ht. rewrite vectorize_lookup. unfold stored. rewrite Ht.
  by destruct (occ t (tokenize text)).
Qed.

Lemma vectorize_counts_the_tokens_witness :
  vectorize "Boston, boston MA" !! "boston"
  = if decide (occ "boston" (tokenize "Boston, boston MA") = 0%nat) then None
    else Some (Count (occ "boston" (tokenize "Boston, boston MA"))).
Proof. apply (vectorize_counts_the_tokens "Boston, boston MA" "boston"). reflexivity. Defined.

(** X13.  The two tokens that are property names of [Object.prototype].
    The vector is an object literal: [map["constructor"]] is at first the
    inherited function, so that the key [constructor] holds a string and
    not a count; and [__proto__] never becomes a key.  A text without the
    word [constructor] gives a vector of counters. *)
Theorem vectorize_on_prototype_names (text : string) :
  vectorize text !! "__proto__" = None /\
  vectorize text !! "constructor"
    = match occ "constructor" (tokenize text) with
      | O => None
      | S n => Some (FunctionText (S n))
      end /\
  ("constructor" ∉ tokenize text -> counts_only (vectorize text)).
Proof.
  split; [|split].
  - rewrite vectorize_lookup. by destruct (occ _ _).
  - rewrite vectorize_lookup. by destruct (occ _ _).
  - apply vectorize_counts_only.
Qed.

(** X14.  For two vectors of counters [cosine] returns a finite number
    that is not negative, also when a vector is empty (the denominator 0 is
    replaced by 1), and it is 0 exactly when the vectors share no token. *)
Theorem cosine_of_counters (a b : gmap string value) :
  counts_only a -> counts_only b ->
  exists r, cosine a b = Fin r /\ 0 <= r /\ (r = 0 <-> ~ share_a_key a b).
Proof.
  intros Ha Hb. rewrite cosine_counts by done.
  pose proof (denominator_pos (norm2 a) (norm2 b)) as Hd.
  eexists. split; [done|]. split.
  - apply Rle_mult_inv_pos; [apply pos_INR|done].
  - rewrite <- dot_zero. split.
    + intros H. apply INR_eq. simpl.
      apply (Rmult_eq_compat_r (denominator (norm2 a) (norm2 b))) in H.
      unfold Rdiv in H. rewrite Rmult_assoc, Rinv_l, Rmult_1_r, Rmult_0_l in H by lra. done.
    + intros ->. simpl. unfold Rdiv. ring.
Qed.

(** X15.  On vectors of counters [cosine] is symmetric. *)
Theorem cosine_is_symmetric (a b : gmap string value) :
  counts_only a -> counts_only b -> cosine a b = cosine b a.
Proof.
  intros Ha Hb. rewrite !cosine_counts by done.
  by rewrite dot_comm, denominator_comm.
Qed.

(** X16.  When the query contains the word [constructor], its vector holds
    a string, the squared norm of the query is [NaN], and [|| 1] replaces
    the denominator: against a vector of counters [cosine] returns the dot
    product as it is, not divided by the norms. *)
Theorem cosine_against_the_word_constructor (a : gmap string value) (query : string) :
  counts_only a -> "constructor" ∈ tokenize query ->
  cosine a (vectorize query) = Fin (INR (dot a (vectorize query))).
Proof.
  intros Ha Hq. rewrite cosine_eval by (done || apply vectorize_ordinary_counts).
  assert (Hc : exists n, vectorize query !! "constructor" = Some (FunctionText n)).
  { rewrite vectorize_lookup. apply occ_pos in Hq.
    destruct (occ "constructor" (tokenize query)) as [|n]; [lia|]. by eexists. }
  destruct Hc as [n Hc]. rewrite (visit_b_fold_text _ _ _ Hc).
  rewrite Math_sqrt_nat. cbn [Math_sqrt mul or_else truthy].
  rewrite div_fin by lra. f_equal. unfold Rdiv. rewrite Rinv_1. ring.
Qed.

(** X17.  The [search] command ranks the vectors of counters of a file
    against the vector of counters of the query: the ranking holds every
    index once and is sorted by non-increasing cosine, vectors with equal
    scores in the order of the file. *)
Theorem search_ranks_by_cosine (vectors : list (gmap string value))
    (qv : gmap string value) :
  Forall counts_only vectors -> counts_only qv ->
  ranked vectors qv ≡ₚ score_all qv 0 vectors /\
  map Bench.ranked_id (score_all qv 0 vectors) = seq 0 (length vectors) /\
  StronglySorted ranks_before (ranked vectors qv).
Proof.
  intros Hv Hq. unfold ranked. split; [apply sort_perm|]. split.
  - generalize 0%nat. clear Hv. induction vectors as [|v vectors IH]; intros i; [done|].
    simpl. by rewrite IH.
  - by apply sort_score_all_sorted.
Qed.

Lemma cosine_of_counters_witness :
  exists r, cosine (vectorize "boston ma") (vectorize "salem ma") = Fin r /\ 0 <= r /\
    (r = 0 <-> ~ share_a_key (vectorize "boston ma") (vectorize "salem ma")).
Proof.
  apply (cosine_of_counters (vectorize "boston ma") (vectorize "salem ma"));
    apply (bool_decide_unpack _); vm_compute; exact I.
Defined.

Lemma cosine_is_symmetric_witness :
  cosine (vectorize "boston ma") (vectorize "salem ma")
  = cosine (vectorize "salem ma") (vectorize "boston ma").
Proof.
  apply (cosine_is_symmetric (vectorize "boston ma") (vectorize "salem ma"));
    apply (bool_decide_unpack _); vm_compute; exact I.
Defined.

Lemma cosine_against_the_word_constructor_witness :
  cosine (vectorize "boston boston") (vectorize "constructor boston boston") = Fin (INR 4).
Proof.
  apply (cosine_against_the_word_constructor (vectorize "boston boston")
           "constructor boston boston");
    apply (bool_decide_unpack _); vm_compute; exact I.
Defined.

Lemma search_ranks_by_cosine_witness :
  ranked [vectorize "boston ma"; vectorize "salem ma"] (vectorize "salem")
    ≡ₚ score_all (vectorize "salem") 0 [vectorize "boston ma"; vectorize "salem ma"] /\
  map Bench.ranked_id
      (score_all (vectorize "salem") 0 [vectorize "boston ma"; vectorize "salem ma"])
    = seq 0 (length [vectorize "boston ma"; vectorize "salem ma"]) /\
  StronglySorted ranks_before
    (ranked [vectorize "boston ma"; vectorize "salem ma"] (vectorize "salem")).
Proof.
  apply (search_ranks_by_cosine [vectorize "boston ma"; vectorize "salem ma"]
           (vectorize "salem"));
    apply (bool_decide_unpack _); vm_compute; exact I.
Defined.

End VectorFacts.

(** ** The command line *)

Module CliFacts.
Import Cli.

Lemma getFlag_cons a rest name :
  getFlag (a :: rest) name =
  if String.eqb a name then
    match rest with
    | v :: _ => Value v
    | [] => Undefined
    end
  else getFlag rest name.
Proof.
  unfold getFlag. cbn [indexOf]. destruct (String.eqb a name); [by destruct rest|].
  destruct (indexOf rest name) as [i|]; [|done].
  replace (S i + 1)%nat with (S (i + 1)) by lia. done.
Qed.

(** X18.  [getFlag(args, name)] looks at the first occurrence of [name]
    only: it returns [null] exactly when [name] is not among the arguments,
    the argument that follows the first occurrence when there is one, and
    [undefined] exactly when the first occurrence is the last argument. *)
Theorem getFlag_returns_what_follows_the_first_occurrence (args : list string)
    (name : string) :
  (getFlag args name = Null <-> name ∉ args) /\
  (forall v, getFlag args name = Value v
     <-> exists pre post, args = pre ++ name :: v :: post /\ name ∉ pre) /\
  (getFlag args name = Undefined <-> exists pre, args = pre ++ [name] /\ name ∉ pre).
Proof.
  induction args as [|a rest (IH1 & IH2 & IH3)].
  - split; [|split].
    + split; [intros _; apply not_elem_of_nil|done].
    + intros v. split; [done|]. intros (pre & post & H & _). by destruct pre.
    + split; [done|]. intros (pre & H & _). by destruct pre.
  - rewrite getFlag_cons. destruct (String.eqb a name) eqn:Heq.
    + apply String.eqb_eq in Heq as ->. split; [|split].
      * split; [by destruct rest|]. intros H. exfalso. apply H. left.
      * intros v. split.
        -- destruct rest as [|w rest']; [done|]. intros [= ->].
           exists [], rest'. split; [done|apply not_elem_of_nil].
        -- intros (pre & post & H & Hpre). destruct pre as [|x pre].
           ++ simpl in H. by injection H as ->.
           ++ simpl in H. injection H as -> _. exfalso. apply Hpre. left.
      * split.
        -- destruct rest; [|done]. intros _. exists []. split; [done|apply not_elem_of_nil].
        -- intros (pre & H & Hpre). destruct pre as [|x pre].
           ++ simpl in H. by injection H as ->.
           ++ simpl in H. injection H as -> _. exfalso. apply Hpre. left.
    + apply String.eqb_neq in Heq. split; [|split].
      * rewrite IH1, not_elem_of_cons. split; [by intros ?; split; [congruence|]|by intros [_ ?]].
      * intros v. rewrite IH2. split.
        -- intros (pre & post & -> & Hpre). exists (a :: pre), post. split; [done|].
           rewrite not_elem_of_cons. split; [congruence|done].
        -- intros (pre & post & H & Hpre). destruct pre as [|x pre].
           ++ simpl in H. injection H as -> _. done.
           ++ simpl in H. injection H as -> ->. exists pre, post. split; [done|].
              by apply not_elem_of_cons in Hpre as [_ ?].
      * rewrite IH3. split.
        -- intros (pre & -> & Hpre). exists (a :: pre). split; [done|].
           rewrite not_elem_of_cons. split; [congruence|done].
        -- intros (pre & H & Hpre). destruct pre as [|x pre].
           ++ simpl in H. injection H as -> _. done.
           ++ simpl in H. injection H as -> ->. exists pre. split; [done|].
              by apply not_elem_of_cons in Hpre as [_ ?].
Qed.

End CliFacts.

(** ** The scheduler: order, limits and failures *)

Module PlexProps.
Import Plex PlexSpec PlexFacts PulseSpec.
Local Open Scope Z_scope.

Section Runs.
Context {T V : Type}.
Implicit Types (st : state T V) (infl : list (task T * promise)) (fn : T -> option V).

(** *** The tasks of a dataset *)

Lemma make_tasks_ids (dataset : list T) : forall k,
  map id (make_tasks k dataset) = seq k (length dataset).
Proof. induction dataset as [|d ds IH]; intros k; simpl; [done|]. by rewrite IH. Qed.

Lemma make_tasks_lookup (dataset : list T) : forall n k d,
  dataset !! k = Some d -> make_tasks n dataset !! k = Some (Task (n + k) d).
Proof.
  induction dataset as [|x xs IH]; intros n k d Hk; [done|].
  destruct k as [|k]; simpl in *.
  - injection Hk as ->. by rewrite Nat.add_0_r.
  - rewrite (IH (S n) k d Hk). do 2 f_equal. lia.
Qed.

Lemma make_tasks_data (dataset : list T) : forall k,
  map data (make_tasks k dataset) = dataset.
Proof. induction dataset as [|d ds IH]; intros k; simpl; [done|]. by rewrite IH. Qed.

Lemma step_index fn st e :
  0 <= pulseSize (self st) -> 0 <= i st -> 0 <= i (step fn st e).
Proof.
  intros Hp Hi. destruct e as [|k]; simpl.
  - unfold resume, enter_loop. destruct (ctl st) as [rest [| |]|[| |]| |]; try done.
    + by destruct (executePulse _ _ _ _) as [[act infl] c].
    + simpl. destruct (_ <? _); [|simpl; lia].
      destruct (executePulse _ _ _ _) as [[act infl] c]. simpl. lia.
  - unfold settle. by destruct (inflight st !! k) as [[t [| |]]|].
Qed.

Lemma run_start_index rt (dataset : list T) : i (run_start (V := V) rt dataset) = 0.
Proof.
  unfold run_start, enter_loop. simpl. destruct (0 <? _); [|done].
  by destruct (executePulse _ _ _ _) as [[act infl] c].
Qed.

Lemma map_fst_settle infl k t p :
  infl !! k = Some (t, Pending) -> map fst (<[k := (t, p)]> infl) = map fst infl.
Proof.
  intros Hk. rewrite list_fmap_insert. simpl. apply list_insert_id.
  by rewrite list_lookup_fmap, Hk.
Qed.


(** *** The window of a pulse *)

Lemma length_slice (l : list (task T)) (z p : Z) :
  0 <= z -> 0 <= p -> Z.of_nat (length (slice l z (z + p))) <= p.
Proof.
  intros Hz Hp. rewrite slice_between by lia. rewrite length_drop, length_take. lia.
Qed.

Lemma window_length infl (c : control T) (l : list (task T)) (z p : Z) :
  0 <= z -> 0 <= p -> map fst infl ++ waiting c = slice l z (z + p) ->
  Z.of_nat (length infl) <= p.
Proof.
  intros Hz Hp Heq. pose proof (length_slice l z p Hz Hp) as Hl.
  rewrite <- Heq, length_app, length_map in Hl. lia.
Qed.

Lemma enter_loop_window st :
  0 <= pulseSize (self st) -> 0 <= i st ->
  Z.of_nat (length (inflight st)) <= pulseSize (self st) ->
  window_inv (enter_loop st).
Proof.
  intros Hp Hi Hlen. unfold enter_loop, window_inv. destruct (i st <? _) eqn:Hlt.
  - destruct (executePulse _ _ _ _) as [[act infl] c] eqn:Hrun.
    apply executePulse_shape in Hrun as (Hs & _ & Hc1 & Hc2). simpl in *.
    split; [done|].
    assert (Hgoal : Z.of_nat (length infl) <= pulseSize (self st) /\
                    map fst infl ++ waiting c
                    = slice (tasks st) (i st) (i st + pulseSize (self st))).
    { split; [|done]. by apply (window_length infl c (tasks st) (i st)). }
    by destruct c.
  - simpl. done.
Qed.

Lemma step_window fn st e :
  0 <= pulseSize (self st) -> window_inv st -> window_inv (step fn st e).
Proof.
  intros Hp (Hi & Hlen & Hw). destruct e as [|k]; simpl.
  - unfold resume. destruct (ctl st) as [rest [| |]|[| |]| |] eqn:Hctl;
      try (unfold window_inv; by rewrite ?Hctl).
    + destruct (executePulse _ _ _ _) as [[act infl] c] eqn:Hrun.
      apply executePulse_shape in Hrun as (Hs & _ & Hc1 & Hc2).
      unfold window_inv. simpl in *. split; [done|].
      assert (Hgoal : Z.of_nat (length infl) <= pulseSize (self st) /\
                      map fst infl ++ waiting c
                      = slice (tasks st) (i st) (i st + pulseSize (self st))).
      { rewrite Hs, Hw. split; [|done].
        apply (window_length infl c (tasks st) (i st)); [done|done|]. by rewrite Hs. }
      by destruct c.
    + apply enter_loop_window; simpl; [done|lia|done].
  - unfold settle. destruct (inflight st !! k) as [[t [| |]]|] eqn:Hk;
      try (unfold window_inv; by rewrite ?Hctl).
    unfold window_inv. simpl. rewrite length_insert.
    split; [done|]. split; [done|].
    destruct (fn (data t)); rewrite (map_fst_settle _ k t _ Hk);
      by destruct (ctl st) as [rest [| |]|[| |]| |].
Qed.

Lemma run_window rt (dataset : list T) fn sched :
  0 <= pulseSize rt ->
  window_inv (run rt dataset fn sched) /\
  pulseSize (self (run rt dataset fn sched)) = pulseSize rt.
Proof.
  intros Hp. unfold run.
  apply (exec_invariant fn (fun st : state T V =>
           window_inv st /\ pulseSize (self st) = pulseSize rt)).
  - split.
    + unfold run_start. apply enter_loop_window; simpl; lia.
    + destruct (run_tasks rt dataset fn []) as (_ & H & _). exact H.
  - intros s e [Hw Hps]. split.
    + apply step_window; [lia|done].
    + destruct (step_static fn s e) as (_ & -> & _). done.
Qed.

(** *** A failure is never passed *)

Lemma fulfilled_tasks_reject infl k t :
  infl !! k = Some (t, Pending) ->
  fulfilled_tasks (<[k := (t, Rejected)]> infl) = fulfilled_tasks infl.
Proof.
  intros Hk. unfold fulfilled_tasks.
  rewrite <- (take_drop_middle infl k (t, Pending)) at 2 by done.
  rewrite insert_take_drop by (eapply lookup_lt_Some; done).
  rewrite !filter_app, !map_app.
  rewrite !filter_cons_False by (simpl; done). done.
Qed.

Lemma enter_loop_passed fn st :
  0 <= pulseSize (self st) -> 0 <= i st ->
  Forall (succeeds fn) (upto (tasks st) (i st)) ->
  passed_inv fn (enter_loop st).
Proof.
  intros Hp Hi Hall. unfold enter_loop, passed_inv. destruct (i st <? _) eqn:Hlt.
  - destruct (executePulse _ _ _ _) as [[act infl] c] eqn:Hrun.
    apply executePulse_shape in Hrun as (Hs & Hf & Hc1 & Hc2). simpl in *.
    split; [done|]. split; [done|].
    assert (Hgoal :
      upto (tasks st) (i st) ++ map fst infl ++ waiting c
        = upto (tasks st) (i st + pulseSize (self st)) /\
      Forall (succeeds fn) (fulfilled_tasks infl)).
    { split; [rewrite Hs; by apply upto_slice|]. rewrite Hf. constructor. }
    by destruct c.
  - simpl. split; [done|]. split; [done|]. apply Z.ltb_ge in Hlt.
    unfold upto in Hall. rewrite take_ge in Hall by lia. done.
Qed.

Lemma step_passed fn st e :
  0 <= pulseSize (self st) -> counter_inv st ->
  passed_inv fn st -> passed_inv fn (step fn st e).
Proof.
  intros Hp [Hact Hall] (Hi & Hup & Hinv). destruct e as [|k]; simpl.
  - unfold resume. destruct (ctl st) as [rest [| |]|[| |]| |] eqn:Hctl;
      try (unfold passed_inv; split; [done|]; split; [done|]; by rewrite ?Hctl).
    + destruct Hinv as (Hs & Hful).
      destruct (executePulse _ _ _ _) as [[act infl] c] eqn:Hrun.
      apply executePulse_shape in Hrun as (Hs' & Hf & Hc1 & Hc2).
      unfold passed_inv. simpl in *. split; [done|]. split; [done|].
      assert (Hgoal :
        upto (tasks st) (i st) ++ map fst infl ++ waiting c
          = upto (tasks st) (i st + pulseSize (self st)) /\
        Forall (succeeds fn) (fulfilled_tasks infl)).
      { split; [by rewrite Hs'|]. by rewrite Hf. }
      by destruct c.
    + destruct Hinv as (Hs & Hful). simpl in Hs. rewrite app_nil_r in Hs.
      apply enter_loop_passed; simpl; [done|lia|].
      rewrite <- Hs. apply Forall_app. split; [done|].
      rewrite <- (fulfilled_tasks_all (inflight st)); [done|]. apply Hall. by left.
  - unfold settle. destruct (inflight st !! k) as [[t [| |]]|] eqn:Hk;
      try (unfold passed_inv; split; [done|]; split; [done|]; by rewrite ?Hctl).
    unfold passed_inv. simpl. split; [done|]. split; [done|].
    assert (Hful' : Forall (succeeds fn) (fulfilled_tasks (inflight st)) ->
      Forall (succeeds fn)
        (fulfilled_tasks (<[k := (t, match fn (data t) with
                                     | Some _ => Fulfilled
                                     | None => Rejected
                                     end)]> (inflight st)))).
    { intros Hful. destruct (fn (data t)) as [r|] eqn:Hfn.
      - rewrite fulfilled_tasks_settle by done. constructor; [|done].
        unfold succeeds. rewrite Hfn. by eexists.
      - by rewrite fulfilled_tasks_reject. }
    rewrite (map_fst_settle _ k t _ Hk).
    destruct (ctl st) as [rest p|p| |] eqn:Hctl.
    + destruct Hinv as (Hs & Hful). apply Hful' in Hful.
      by destruct p, (fn (data t)).
    + destruct Hinv as (Hs & Hful). apply Hful' in Hful.
      by destruct p, (fn (data t)).
    + done.
    + done.
Qed.

Lemma run_passed rt (dataset : list T) fn sched :
  0 <= pulseSize rt -> active rt = 0 ->
  passed_inv fn (run rt dataset fn sched).
Proof.
  intros Hp Hact. unfold run.
  enough (H : (fun st : state T V =>
            pulseSize (self st) = pulseSize rt /\ counter_inv st /\ passed_inv fn st)
          (exec fn (run_start rt dataset) sched)) by apply H.
  apply exec_invariant.
  - split; [|split].
    + destruct (run_tasks rt dataset fn []) as (_ & H & _). exact H.
    + by apply run_start_counter.
    + unfold run_start. apply enter_loop_passed; simpl; [lia|lia|constructor].
  - intros s e (Hps & Hc & Hpass). split; [|split].
    + destruct (step_static fn s e) as (_ & -> & _). done.
    + by apply step_counter.
    + apply step_passed; [lia|done|done].
Qed.

(** *** Completion in start order *)

Lemma pending_suffix_nil : pending_suffix (T := T) [].
Proof. intros j k t t' p _ Hj. by rewrite lookup_nil in Hj. Qed.

Lemma pending_suffix_snoc infl t :
  pending_suffix infl -> pending_suffix (infl ++ [(t, Pending)]).
Proof.
  intros Hs j k t1 t2 p Hjk Hj Hk.
  destruct (decide (k < length infl)%nat) as [Hlt|Hge].
  - rewrite lookup_app_l in Hk by done. rewrite lookup_app_l in Hj by lia.
    by apply (Hs j k t1 t2 p).
  - rewrite lookup_app_r in Hk by lia.
    destruct (k - length infl)%nat as [|n]; simpl in Hk; [congruence|].
    by rewrite lookup_nil in Hk.
Qed.

Lemma executePulse_suffix maxc (rest : list (task T)) : forall act infl act' infl' c,
  executePulse maxc rest act infl = (act', infl', c) ->
  pending_suffix infl -> pending_suffix infl'.
Proof.
  induction rest as [|t rest IH]; intros act infl act' infl' c; simpl.
  - by intros [= <- <- <-].
  - destruct (maxc <=? act).
    + by intros [= <- <- <-].
    + intros Hrun Hs. eapply IH; [exact Hrun|]. by apply pending_suffix_snoc.
Qed.

Lemma pending_suffix_settle infl k t :
  infl !! k = Some (t, Pending) ->
  (forall j t0, (j < k)%nat -> infl !! j <> Some (t0, Pending)) ->
  pending_suffix infl -> pending_suffix (<[k := (t, Fulfilled)]> infl).
Proof.
  intros Hk Hold Hs j k' t1 t2 p Hjk Hj Hk'.
  assert (Hlen : (k < length infl)%nat) by (eapply lookup_lt_Some; done).
  destruct (decide (j = k)) as [->|Hne].
  - rewrite list_lookup_insert_eq in Hj by done. congruence.
  - rewrite list_lookup_insert_ne in Hj by done.
    destruct (decide (j < k)%nat) as [Hlt|Hge]; [by destruct (Hold j t1 Hlt)|].
    rewrite list_lookup_insert_ne in Hk' by lia.
    by apply (Hs j k' t1 t2 p).
Qed.

Lemma fulfilled_tasks_settle_suffix infl k t :
  infl !! k = Some (t, Pending) -> pending_suffix infl ->
  fulfilled_tasks (<[k := (t, Fulfilled)]> infl) = fulfilled_tasks infl ++ [t].
Proof.
  intros Hk Hs. unfold fulfilled_tasks.
  rewrite <- (take_drop_middle infl k (t, Pending)) at 2 by done.
  rewrite insert_take_drop by (eapply lookup_lt_Some; done).
  assert (Hnil : filter (fun u : task T * promise => snd u = Fulfilled) (drop (S k) infl) = []).
  { assert (Hall : Forall (fun u : task T * promise => snd u <> Fulfilled) (drop (S k) infl)).
    { apply Forall_forall. intros [t' p] Hin Hp. simpl in Hp. subst p.
      apply list_elem_of_lookup in Hin as [n Hn]. rewrite lookup_drop in Hn.
      assert (Hlt : (k < S k + n)%nat) by lia.
      pose proof (Hs k (S k + n)%nat t t' Fulfilled Hlt Hk Hn). congruence. }
    induction Hall as [|u l Hu _ IH]; [done|]. by rewrite filter_cons_False. }
  rewrite !filter_app, !map_app.
  rewrite filter_cons_True by done. rewrite filter_cons_False by (simpl; done).
  rewrite Hnil. simpl. by rewrite app_nil_r.
Qed.

Lemma enter_loop_start_order (f : T -> V) st :
  0 <= pulseSize (self st) -> 0 <= i st ->
  results st = map (entry_of f) (upto (tasks st) (i st)) ->
  start_order_inv f (enter_loop st).
Proof.
  intros Hp Hi Hres. unfold enter_loop, start_order_inv. destruct (i st <? _) eqn:Hlt.
  - destruct (executePulse _ _ _ _) as [[act infl] c] eqn:Hrun.
    pose proof (executePulse_shape _ _ _ _ _ _ _ Hrun) as (Hs & Hf & Hc1 & Hc2).
    apply executePulse_suffix in Hrun; [|apply pending_suffix_nil].
    simpl in *.
    assert (Hgoal :
      upto (tasks st) (i st) ++ map fst infl ++ waiting c
        = upto (tasks st) (i st + pulseSize (self st)) /\
      results st = map (entry_of f) (upto (tasks st) (i st) ++ fulfilled_tasks infl) /\
      pending_suffix infl).
    { split; [|split; [|done]].
      - rewrite Hs. by apply upto_slice.
      - rewrite Hf. unfold fulfilled_tasks. simpl. by rewrite app_nil_r. }
    by destruct c.
  - simpl. apply Z.ltb_ge in Hlt.
    unfold upto in Hres. rewrite take_ge in Hres by lia. done.
Qed.

Lemma step_start_order (f : T -> V) st e :
  0 <= pulseSize (self st) -> 0 <= i st ->
  counter_inv st -> settles_oldest st e -> start_order_inv f st ->
  start_order_inv f (step (fun d => Some (f d)) st e).
Proof.
  intros Hp Hi [Hact Hall] Hold Hinv. unfold start_order_inv in Hinv.
  destruct e as [|k]; simpl.
  - unfold resume. destruct (ctl st) as [rest [| |]|[| |]| |] eqn:Hctl;
      try (unfold start_order_inv; by rewrite ?Hctl).
    + destruct Hinv as (Hs & Hres & Hsuf).
      destruct (executePulse _ _ _ _) as [[act infl] c] eqn:Hrun.
      pose proof (executePulse_shape _ _ _ _ _ _ _ Hrun) as (Hs' & Hf & Hc1 & Hc2).
      apply executePulse_suffix in Hrun; [|done].
      unfold start_order_inv. simpl in *.
      assert (Hgoal :
        upto (tasks st) (i st) ++ map fst infl ++ waiting c
          = upto (tasks st) (i st + pulseSize (self st)) /\
        results st = map (entry_of f) (upto (tasks st) (i st) ++ fulfilled_tasks infl) /\
        pending_suffix infl).
      { split; [by rewrite Hs'|]. split; [by rewrite Hf|done]. }
      by destruct c.
    + destruct Hinv as (Hs & Hres & Hsuf). simpl in Hs. rewrite app_nil_r in Hs.
      assert (Hfull : Forall settled_ok (inflight st)) by (apply Hall; by left).
      apply enter_loop_start_order; simpl; [done|lia|].
      rewrite <- Hs. by rewrite <- (fulfilled_tasks_all (inflight st)).
  - unfold settle. destruct (inflight st !! k) as [[t [| |]]|] eqn:Hk;
      try (unfold start_order_inv; by rewrite ?Hctl).
    simpl in Hold. unfold start_order_inv. simpl.
    rewrite (map_fst_settle _ k t _ Hk).
    assert (Hgoal : forall c : control T,
      upto (tasks st) (i st) ++ map fst (inflight st) ++ waiting c
        = upto (tasks st) (i st + pulseSize (self st)) /\
      results st = map (entry_of f) (upto (tasks st) (i st) ++ fulfilled_tasks (inflight st)) /\
      pending_suffix (inflight st) ->
      upto (tasks st) (i st) ++ map fst (inflight st) ++ waiting c
        = upto (tasks st) (i st + pulseSize (self st)) /\
      results st ++ [Entry (id t) (f (data t))]
        = map (entry_of f) (upto (tasks st) (i st)
             ++ fulfilled_tasks (<[k := (t, Fulfilled)]> (inflight st))) /\
      pending_suffix (<[k := (t, Fulfilled)]> (inflight st))).
    { intros c (Hs & Hres & Hsuf). split; [done|]. split; [|by apply pending_suffix_settle].
      rewrite (fulfilled_tasks_settle_suffix _ k t Hk Hsuf).
      rewrite Hres, app_assoc, (map_app _ _ [t]). done. }
    destruct (ctl st) as [rest p|p| |] eqn:Hctl.
    + apply (Hgoal (AwaitRace rest p)) in Hinv. by destruct p.
    + apply (Hgoal (AwaitAll p)) in Hinv. by destruct p.
    + exfalso. eapply not_pending_of_settled; [|exact Hk]. apply Hall. by right.
    + done.
Qed.

Lemma exec_start_order (f : T -> V) (ps : Z) (sched : list event) : forall st,
  0 <= ps -> pulseSize (self st) = ps -> 0 <= i st ->
  counter_inv st -> start_order_inv f st ->
  in_start_order (fun d => Some (f d)) st sched ->
  start_order_inv f (exec (fun d => Some (f d)) st sched).
Proof.
  induction sched as [|e sched IH]; intros st Hps Hp Hi Hc Hinv Hord; [done|].
  destruct Hord as [He Hord]. simpl. apply IH; try done.
  - destruct (step_static (fun d => Some (f d)) st e) as (_ & -> & _). done.
  - apply step_index; [lia|done].
  - by apply step_counter.
  - apply step_start_order; try done. lia.
Qed.


(** *** Further properties of [run] *)

(** X19.  When [run] returns, with a per-item function that never fails,
    the array it returns holds exactly one entry [{id: k, result: fn(d)}]
    for every item [d] of index [k]: its length is the length of the
    dataset and its ids are the indices, each one once, in some order. *)
Theorem run_returns_one_entry_per_item (f : T -> V) rt (dataset : list T) sched :
  1 <= pulseSize rt -> active rt = 0 ->
  ctl (run rt dataset (fun d => Some (f d)) sched) = Returned ->
  results (run rt dataset (fun d => Some (f d)) sched)
    ≡ₚ map (entry_of f) (make_tasks 0 dataset) /\
  map entry_id (results (run rt dataset (fun d => Some (f d)) sched))
    ≡ₚ seq 0 (length dataset) /\
  length (results (run rt dataset (fun d => Some (f d)) sched)) = length dataset.
Proof.
  intros Hp Hact Hret.
  destruct (run_returns_every_entry_once f rt dataset sched Hp Hact Hret) as [Hperm Hlen].
  split; [done|]. split; [|done].
  rewrite Hperm, <- (make_tasks_ids dataset 0). rewrite <- list_fmap_compose. done.
Qed.


(** X21.  With [maxConcurrency = 1] the units run one at a time, and
    [run] returns the results in the order of the dataset, under every
    schedule. *)
Theorem one_unit_at_a_time_keeps_the_order (f : T -> V) rt (dataset : list T) sched :
  maxConcurrency rt = 1 -> 1 <= pulseSize rt -> active rt = 0 ->
  ctl (run rt dataset (fun d => Some (f d)) sched) = Returned ->
  results (run rt dataset (fun d => Some (f d)) sched)
    = map (entry_of f) (make_tasks 0 dataset).
Proof. apply run_one_at_a_time_returns_index_order. Qed.

(** X22.  Whatever the limits are, when the units complete in the order
    they start, [run] returns the results in the order of the dataset. *)
Theorem completion_in_start_order_keeps_the_order (f : T -> V) rt (dataset : list T) sched :
  1 <= pulseSize rt -> active rt = 0 ->
  in_start_order (fun d => Some (f d)) (run_start rt dataset) sched ->
  ctl (run rt dataset (fun d => Some (f d)) sched) = Returned ->
  results (run rt dataset (fun d => Some (f d)) sched)
    = map (entry_of f) (make_tasks 0 dataset).
Proof.
  intros Hp Hact Hord Hret.
  assert (Hinv : start_order_inv f (run rt dataset (fun d => Some (f d)) sched)).
  { unfold run. apply (exec_start_order f (pulseSize rt)); try done.
    - lia.
    - destruct (run_tasks rt dataset (fun d => Some (f d)) []) as (_ & H & _). exact H.
    - by rewrite run_start_index.
    - by apply run_start_counter.
    - unfold run_start. apply enter_loop_start_order; simpl; [lia|lia|done]. }
  unfold start_order_inv in Hinv. rewrite Hret in Hinv.
  destruct (run_tasks rt dataset (fun d => Some (f d)) sched) as (Ht & _).
  by rewrite Ht in Hinv.
Qed.

(** X23.  With [pulseSize <= 0] and a dataset that is not empty, [run]
    never returns: the loop index never passes the end of the tasks. *)
Theorem run_never_returns_without_a_positive_pulseSize rt (dataset : list T) fn sched :
  pulseSize rt <= 0 -> dataset <> [] ->
  ctl (run rt dataset fn sched) <> Returned.
Proof. apply nonpositive_pulseSize_never_returns. Qed.

(** X24.  When the counter of the instance is already at the limit, as
    with [maxConcurrency <= 0] or on an instance that still has units in
    flight, [run] on a dataset that is not empty starts no unit and waits
    for ever: it awaits a race among no promises, and no event changes its
    state. *)
Theorem run_waits_for_ever_at_the_limit rt (dataset : list T) fn sched :
  maxConcurrency rt <= active rt -> 1 <= pulseSize rt -> dataset <> [] ->
  run rt dataset fn sched = run_start rt dataset /\
  results (run_start (V := V) rt dataset) = [] /\
  inflight (run_start (V := V) rt dataset) = [] /\
  (exists rest, ctl (run_start (V := V) rt dataset) = AwaitRace rest Pending).
Proof.
  intros Hc Hp Hne.
  assert (Hstart : results (run_start (V := V) rt dataset) = [] /\
                   inflight (run_start (V := V) rt dataset) = [] /\
                   (exists rest, ctl (run_start (V := V) rt dataset) = AwaitRace rest Pending)).
  { unfold run_start, enter_loop. simpl.
    assert (Hlt : (0 <? Z.of_nat (length (make_tasks 0 dataset))) = true).
    { apply Z.ltb_lt. rewrite length_make_tasks. destruct dataset; [done|simpl; lia]. }
    rewrite Hlt.
    pose proof (slice_next_pulse (make_tasks 0 dataset) 0 (pulseSize rt)) as Hpulse.
    destruct (slice _ 0 (0 + pulseSize rt)) as [|t pulse].
    - exfalso. apply Hpulse; [|done|done]. apply Z.ltb_lt in Hlt. lia.
    - simpl. assert (Hle : (maxConcurrency rt <=? active rt) = true) by (apply Z.leb_le; lia).
      rewrite Hle. simpl. eauto. }
  split; [|done]. destruct Hstart as (_ & Hinfl & rest & Hctl).
  unfold run. induction sched as [|e sched IH] using rev_ind; [done|].
  rewrite exec_app, IH. destruct e as [|k]; simpl.
  - unfold resume. by rewrite Hctl.
  - unfold settle. by rewrite Hinfl.
Qed.

(** X25.  The units in flight belong to one pulse.  On a new instance with
    [pulseSize >= 0], in every state of a run: at most [pulseSize] units
    have been started in the current pulse, so that the counter never
    exceeds [pulseSize]; and while the pulse runs, the started tasks
    followed by the waiting ones are [tasks.slice(i, i + pulseSize)]. *)
Theorem units_in_flight_belong_to_one_pulse rt (dataset : list T) fn sched :
  0 <= pulseSize rt -> active rt = 0 ->
  active (self (run rt dataset fn sched)) <= pulseSize rt /\
  Z.of_nat (length (inflight (run rt dataset fn sched))) <= pulseSize rt /\
  (ctl (run rt dataset fn sched) <> Returned -> ctl (run rt dataset fn sched) <> Thrown ->
   map fst (inflight (run rt dataset fn sched)) ++ waiting (ctl (run rt dataset fn sched))
   = slice (make_tasks 0 dataset) (i (run rt dataset fn sched))
           (i (run rt dataset fn sched) + pulseSize rt)).
Proof.
  intros Hp Hact.
  destruct (run_window rt dataset fn sched Hp) as [(Hi & Hlen & Hw) Hps].
  destruct (run_counter rt dataset fn sched Hact) as [Hcnt _].
  destruct (run_tasks rt dataset fn sched) as (Ht & _).
  rewrite Hps in Hlen. split; [|split; [done|]].
  - rewrite Hcnt. unfold pending_units.
    pose proof (length_filter (fun u : task T * promise => snd u = Pending)
                  (inflight (run rt dataset fn sched))). lia.
  - intros H1 H2. rewrite Hps, Ht in Hw.
    by destruct (ctl (run rt dataset fn sched)).
Qed.

(** X26.  [run] returns only if the promise of every item was fulfilled:
    when the per-item function fails on an item, [run] never returns the
    results, under any schedule. *)
Theorem run_returns_only_if_every_unit_succeeds rt (dataset : list T) fn sched :
  active rt = 0 ->
  ctl (run rt dataset fn sched) = Returned ->
  Forall (fun d => is_Some (fn d)) dataset.
Proof.
  intros Hact Hret. destruct (decide (0 <= pulseSize rt)) as [Hp|Hp].
  - destruct (run_passed rt dataset fn sched Hp Hact) as (_ & _ & Hinv).
    rewrite Hret in Hinv.
    destruct (run_tasks rt dataset fn sched) as (Ht & _). rewrite Ht in Hinv.
    rewrite <- (make_tasks_data dataset 0). apply Forall_fmap.
    eapply Forall_impl; [exact Hinv|]. done.
  - destruct dataset as [|d ds]; [constructor|].
    exfalso. apply (nonpositive_pulseSize_never_returns rt (d :: ds) fn sched); [lia|done|done].
Qed.

(** X28.  A pulse is started only after every item of the earlier pulses
    has succeeded: on a new instance with [pulseSize >= 0], in every state
    of a run, the per-item function has succeeded on every item before the
    loop index [i], and every started unit of the current pulse has an
    index from [i] on.  So after a failure no later pulse is started. *)
Theorem pulses_start_after_the_earlier_items_succeeded rt (dataset : list T) fn sched :
  0 <= pulseSize rt -> active rt = 0 ->
  (forall k d, dataset !! k = Some d -> Z.of_nat k < i (run rt dataset fn sched) ->
     is_Some (fn d)) /\
  (ctl (run rt dataset fn sched) <> Returned -> ctl (run rt dataset fn sched) <> Thrown ->
   forall j t p, inflight (run rt dataset fn sched) !! j = Some (t, p) ->
     i (run rt dataset fn sched) <= Z.of_nat (id t)).
Proof.
  intros Hp Hact.
  destruct (run_passed rt dataset fn sched Hp Hact) as (Hi & Hup & _).
  destruct (run_window rt dataset fn sched Hp) as [(_ & _ & Hw) Hps].
  destruct (run_tasks rt dataset fn sched) as (Ht & _).
  rewrite Ht in Hup. rewrite Ht, Hps in Hw. split.
  - intros k d Hk Hlt.
    assert (Hin : Task k d ∈ upto (make_tasks 0 dataset) (i (run rt dataset fn sched))).
    { apply list_elem_of_lookup. exists k. unfold upto. rewrite lookup_take_lt by lia.
      by apply (make_tasks_lookup dataset 0). }
    rewrite Forall_forall in Hup. exact (Hup _ Hin).
  - intros H1 H2 j t p Hj.
    assert (Hslice : map fst (inflight (run rt dataset fn sched))
                       ++ waiting (ctl (run rt dataset fn sched))
                     = slice (make_tasks 0 dataset) (i (run rt dataset fn sched))
                         (i (run rt dataset fn sched) + pulseSize rt))
      by (by destruct (ctl (run rt dataset fn sched))).
    rewrite slice_between in Hslice by lia.
    assert (Hin : t ∈ drop (Z.to_nat (i (run rt dataset fn sched)))
                     (take (Z.to_nat (i (run rt dataset fn sched) + pulseSize rt))
                        (make_tasks 0 dataset))).
    { rewrite <- Hslice. apply elem_of_app. left. apply list_elem_of_fmap.
      exists (t, p). split; [done|]. eapply list_elem_of_lookup_2. exact Hj. }
    apply list_elem_of_lookup in Hin as [n Hn]. rewrite lookup_drop in Hn.
    apply lookup_take_Some in Hn as [Hn _].
    assert (Hid : id t = (Z.to_nat (i (run rt dataset fn sched)) + n)%nat).
    { assert (Hmap : map id (make_tasks 0 dataset)
                       !! (Z.to_nat (i (run rt dataset fn sched)) + n)%nat = Some (id t))
        by (by rewrite list_lookup_fmap, Hn).
      rewrite make_tasks_ids in Hmap. apply lookup_seq in Hmap as [-> _]. lia. }
    lia.
Qed.

End Runs.

(** *** The [scan] command *)

Lemma scan_filter_entries {T : Type} (p : T -> bool) (dataset : list T) : forall k,
  map entry_id (Cli.scan_filter (map (entry_of p) (make_tasks k dataset)))
  = indices_where p k dataset.
Proof.
  induction dataset as [|d ds IH]; intros k; [done|].
  unfold Cli.scan_filter in *. cbn [make_tasks map List.filter indices_where].
  unfold entry_of at 1. cbn [result data id]. destruct (p d); cbn [map entry_id]; by rewrite IH.
Qed.

Lemma scan_filter_perm (l1 l2 : list (entry bool)) :
  l1 ≡ₚ l2 -> Cli.scan_filter l1 ≡ₚ Cli.scan_filter l2.
Proof.
  intros H. unfold Cli.scan_filter.
  induction H as [|x l l' _ IH|x y l|l l' l'' _ IH1 _ IH2]; simpl.
  - done.
  - destruct (result x); [by constructor|done].
  - destruct (result x), (result y); try done. apply perm_swap.
  - by rewrite IH1.
Qed.

(** X27.  The [scan] command runs a boolean test on every item and prints
    [res.filter(r => r.result)]: when [run] returns, the entries that are
    kept are those of the items on which the test holds; their ids are the
    indices of these items, each one once. *)
Theorem scan_keeps_the_matching_items {T : Type} (p : T -> bool) rt
    (dataset : list T) sched :
  1 <= pulseSize rt -> active rt = 0 ->
  ctl (run rt dataset (fun d => Some (p d)) sched) = Returned ->
  map entry_id (Cli.scan_filter (results (run rt dataset (fun d => Some (p d)) sched)))
    ≡ₚ indices_where p 0 dataset.
Proof.
  intros Hp Hact Hret.
  destruct (run_returns_every_entry_once p rt dataset sched Hp Hact Hret) as [Hperm _].
  rewrite (scan_filter_perm _ _ Hperm). by rewrite scan_filter_entries.
Qed.

(** *** Witnesses *)

Lemma run_returns_one_entry_per_item_witness :
  results (run (new_PlexRuntime (Config None None)) [1; 2] (fun d => Some (d * 2))
             [Settle 1; Settle 0; Resume])
    ≡ₚ map (entry_of (fun d => d * 2)) (make_tasks 0 [1; 2]) /\
  map entry_id (results (run (new_PlexRuntime (Config None None)) [1; 2]
                           (fun d => Some (d * 2)) [Settle 1; Settle 0; Resume]))
    ≡ₚ seq 0 (length [1; 2]) /\
  length (results (run (new_PlexRuntime (Config None None)) [1; 2] (fun d => Some (d * 2))
                     [Settle 1; Settle 0; Resume])) = length [1; 2].
Proof.
  apply (run_returns_one_entry_per_item (fun d => d * 2) (new_PlexRuntime (Config None None))
           [1; 2] [Settle 1; Settle 0; Resume]).
  - simpl. lia.
  - reflexivity.
  - reflexivity.
Defined.


Lemma one_unit_at_a_time_keeps_the_order_witness :
  results (run (new_PlexRuntime (Config (Some 2) (Some 1))) [1; 2; 3] (fun d => Some (d * 2))
             [Settle 0; Resume; Settle 1; Resume; Settle 0; Resume])
  = map (entry_of (fun d => d * 2)) (make_tasks 0 [1; 2; 3]).
Proof.
  apply (one_unit_at_a_time_keeps_the_order (fun d => d * 2)
           (new_PlexRuntime (Config (Some 2) (Some 1))) [1; 2; 3]
           [Settle 0; Resume; Settle 1; Resume; Settle 0; Resume]).
  - reflexivity.
  - simpl. lia.
  - reflexivity.
  - reflexivity.
Defined.

Lemma completion_in_start_order_keeps_the_order_witness :
  results (run (new_PlexRuntime (Config None None)) [1; 2] (fun d => Some (d * 2))
             [Settle 0; Settle 1; Resume])
  = map (entry_of (fun d => d * 2)) (make_tasks 0 [1; 2]).
Proof.
  apply (completion_in_start_order_keeps_the_order (fun d => d * 2)
           (new_PlexRuntime (Config None None)) [1; 2] [Settle 0; Settle 1; Resume]).
  - simpl. lia.
  - reflexivity.
  - simpl. repeat split.
    + intros j t Hj. lia.
    + intros j t Hj. destruct j; [vm_compute; discriminate|lia].
  - reflexivity.
Defined.

Lemma run_never_returns_without_a_positive_pulseSize_witness :
  ctl (run (new_PlexRuntime (Config (Some 0) None)) [5] (fun d => Some (d * 2))
         [Resume; Resume]) <> Returned.
Proof.
  apply (run_never_returns_without_a_positive_pulseSize
           (new_PlexRuntime (Config (Some 0) None)) [5] (fun d => Some (d * 2))
           [Resume; Resume]).
  - simpl. lia.
  - discriminate.
Defined.

Lemma run_waits_for_ever_at_the_limit_witness :
  run (Runtime 32 1 1) [5; 6] (fun d => Some (d * 2)) [Resume; Settle 0]
    = run_start (Runtime 32 1 1) [5; 6] /\
  results (run_start (V := Z) (Runtime 32 1 1) [5; 6]) = [] /\
  inflight (run_start (V := Z) (Runtime 32 1 1) [5; 6]) = [] /\
  (exists rest, ctl (run_start (V := Z) (Runtime 32 1 1) [5; 6]) = AwaitRace rest Pending).
Proof.
  apply (run_waits_for_ever_at_the_limit (Runtime 32 1 1) [5; 6] (fun d => Some (d * 2))
           [Resume; Settle 0]).
  - simpl. lia.
  - simpl. lia.
  - discriminate.
Defined.

Lemma units_in_flight_belong_to_one_pulse_witness :
  active (self (run (new_PlexRuntime (Config (Some 2) None)) [1; 2; 3]
                  (fun d => Some (d * 2)) [Settle 1])) <= 2 /\
  Z.of_nat (length (inflight (run (new_PlexRuntime (Config (Some 2) None)) [1; 2; 3]
                                (fun d => Some (d * 2)) [Settle 1]))) <= 2 /\
  (ctl (run (new_PlexRuntime (Config (Some 2) None)) [1; 2; 3]
          (fun d => Some (d * 2)) [Settle 1]) <> Returned ->
   ctl (run (new_PlexRuntime (Config (Some 2) None)) [1; 2; 3]
          (fun d => Some (d * 2)) [Settle 1]) <> Thrown ->
   map fst (inflight (run (new_PlexRuntime (Config (Some 2) None)) [1; 2; 3]
                        (fun d => Some (d * 2)) [Settle 1]))
     ++ waiting (ctl (run (new_PlexRuntime (Config (Some 2) None)) [1; 2; 3]
                        (fun d => Some (d * 2)) [Settle 1]))
   = slice (make_tasks 0 [1; 2; 3])
       (i (run (new_PlexRuntime (Config (Some 2) None)) [1; 2; 3]
             (fun d => Some (d * 2)) [Settle 1]))
       (i (run (new_PlexRuntime (Config (Some 2) None)) [1; 2; 3]
             (fun d => Some (d * 2)) [Settle 1]) + 2)).
Proof.
  apply (units_in_flight_belong_to_one_pulse (new_PlexRuntime (Config (Some 2) None))
           [1; 2; 3] (fun d => Some (d * 2)) [Settle 1]).
  - simpl. lia.
  - reflexivity.
Defined.

Lemma run_returns_only_if_every_unit_succeeds_witness :
  Forall (fun d => is_Some ((fun d : Z => Some (d * 2)) d)) [1; 2].
Proof.
  apply (run_returns_only_if_every_unit_succeeds (new_PlexRuntime (Config None None))
           [1; 2] (fun d => Some (d * 2)) [Settle 1; Settle 0; Resume]).
  - reflexivity.
  - reflexivity.
Defined.

Lemma pulses_start_after_the_earlier_items_succeeded_witness :
  (forall k d, [1; 2; 3] !! k = Some d ->
     Z.of_nat k < i (run (new_PlexRuntime (Config (Some 2) None)) [1; 2; 3]
                       (fun d => if d =? 3 then None else Some (d * 2))
                       [Settle 0; Settle 1; Resume; Settle 0; Resume]) ->
     is_Some ((fun d => if d =? 3 then None else Some (d * 2)) d)) /\
  (ctl (run (new_PlexRuntime (Config (Some 2) None)) [1; 2; 3]
          (fun d => if d =? 3 then None else Some (d * 2))
          [Settle 0; Settle 1; Resume; Settle 0; Resume]) <> Returned ->
   ctl (run (new_PlexRuntime (Config (Some 2) None)) [1; 2; 3]
          (fun d => if d =? 3 then None else Some (d * 2))
          [Settle 0; Settle 1; Resume; Settle 0; Resume]) <> Thrown ->
   forall j t p,
     inflight (run (new_PlexRuntime (Config (Some 2) None)) [1; 2; 3]
                 (fun d => if d =? 3 then None else Some (d * 2))
                 [Settle 0; Settle 1; Resume; Settle 0; Resume]) !! j = Some (t, p) ->
     i (run (new_PlexRuntime (Config (Some 2) None)) [1; 2; 3]
          (fun d => if d =? 3 then None else Some (d * 2))
          [Settle 0; Settle 1; Resume; Settle 0; Resume]) <= Z.of_nat (id t)).
Proof.
  apply (pulses_start_after_the_earlier_items_succeeded
           (new_PlexRuntime (Config (Some 2) None)) [1; 2; 3]
           (fun d => if d =? 3 then None else Some (d * 2))
           [Settle 0; Settle 1; Resume; Settle 0; Resume]).
  - simpl. lia.
  - reflexivity.
Defined.

Lemma scan_keeps_the_matching_items_witness :
  map entry_id (Cli.scan_filter
    (results (run (new_PlexRuntime (Config None None)) [1; 2; 3]
                (fun d => Some (d =? 2)) [Settle 1; Settle 2; Settle 0; Resume])))
    ≡ₚ indices_where (fun d => d =? 2) 0 [1; 2; 3].
Proof.
  apply (scan_keeps_the_matching_items (fun d => d =? 2) (new_PlexRuntime (Config None None))
           [1; 2; 3] [Settle 1; Settle 2; Settle 0; Resume]).
  - simpl. lia.
  - reflexivity.
  - reflexivity.
Defined.

End PlexProps.
